(** * The trie storage manager (package [trie], trieStorageManager.go)

    A shallow embedding of the storage manager of the Merkle-Patricia trie:
    the multi-storer lookup chain, the pruning-block counter, the submission
    of snapshot and checkpoint requests, the worker procedures that serve
    them, the discovery of snapshot databases on disk and the shutdown
    protocol.

    Go values are embedded as follows.
    - [[]byte] is [list byte]; the nil slice and the empty slice are both
      [[]] (the code only ever looks at [len(val)]).
    - [error] is the inductive [error]; a nil error is [None].
    - [uint32] and [int] (64 bits) are [Z] with the wrap-around written out.
    - interfaces ([common.DBWriteCacher], [CheckpointHashesHolder]) are type
      classes over the state of the implementation; a method that mutates
      its receiver returns the new state.
    - the methods of the manager run in the monad [M]: a state monad over
      [world] whose computations end normally ([Done]), in a Go run-time
      panic ([Panic]) or waiting in a [select] none of whose cases is ready
      ([Blocked]).  The mutex of the manager is not modelled: every method
      is one atomic step of a sequential execution. *)

From Stdlib Require Import ZArith List Lia.
From Stdlib.Strings Require Import String Ascii Byte.
From stdpp Require Import base option list gmap sorting.

Local Open Scope Z_scope.

(** ** Bytes, errors, logging *)

Definition bytes : Type := list byte.

#[global] Instance byte_eq_dec : EqDecision byte := Byte.byte_eq_dec.

(** [len(val) != 0] *)
Definition nonEmpty (val : bytes) : bool := negb (Nat.eqb (length val) 0).

(** [bytes.Equal(a, b)] *)
Definition bytes_Equal (a b : bytes) : bool := bool_decide (a = b).

(** The error values the manager produces, receives or compares with.
    [ErrExternal] stands for any error value created by a collaborator
    (persister, node walker, operating system); [Errorf] is
    [fmt.Errorf("<text>: %w", err)], which wraps [err]. *)
Inductive error : Type :=
| ErrKeyNotFound
| ErrContextClosing
| ErrNilDatabase
| ErrNilStorer
| ErrNilMarshalizer
| ErrNilHasher
| ErrNilCheckpointHashesHolder
| ErrNotExist
| ErrSyntax
| ErrRange
| ErrExternal (msg : string)
| Errorf (text : string) (wrapped : error).

#[global] Instance error_eq_dec : EqDecision error.
Proof. solve_decision. Defined.

(** [errors.Unwrap] chain: the errors an error value carries. *)
Fixpoint errorChain (e : error) : list error :=
  match e with
  | Errorf _ e' => e :: errorChain e'
  | _ => [e]
  end.

Inductive logLevel : Type := LogTrace | LogDebug | LogError.

#[global] Instance logLevel_eq_dec : EqDecision logLevel.
Proof. solve_decision. Defined.

(** ** The interfaces the manager consumes *)

(** [common.DBWriteCacher] over the state [P] of a persister. *)
Class DBWriteCacher (P : Type) : Type := {
  db_Get : P → bytes → bytes * option error;
  db_Put : P → bytes → bytes → P * option error;
  db_Remove : P → bytes → P * option error;
  db_Close : P → P * option error
}.

(** [CheckpointHashesHolder] over the state [H] of a holder;
    [common.ModifiedHashes] is a set of hashes. *)
Class CheckpointHashesHolder (H : Type) : Type := {
  holder_Put : H → bytes → list bytes → H * bool;
  holder_Remove : H → bytes → H;
  holder_RemoveCommitted : H → bytes → H
}.

(** ** The data model *)

(** A channel [chan core.KeyValueHolder] is named by a number; [None] is
    the nil channel. *)
Definition chanId : Type := nat.

Record snapshotsQueueEntry : Type := {
  rootHash : bytes;
  newDb : bool;
  leavesChan : option chanId
}.

(** A buffered channel of requests, [make(chan *snapshotsQueueEntry, n)]. *)
Record requestChan : Type := {
  buffered : list snapshotsQueueEntry;
  capacity : nat
}.

(** Modelled from the spec: the safe closer ([core.SafeCloser], built by
    [closing.NewSafeChanCloser] of another repository).  Section 4.5 of the
    specification: a one-shot broadcast primitive whose [Close] is
    idempotent and never blocks.  [signalled] says that the close signal
    has fired; [signalCloses] counts how often its channel was closed. *)
Record SafeCloser : Type := {
  signalled : bool;
  signalCloses : nat
}.

Definition NewSafeChanCloser : SafeCloser :=
  {| signalled := false; signalCloses := 0 |}.

Definition SafeCloser_Close (c : SafeCloser) : SafeCloser :=
  if signalled c then c
  else {| signalled := true; signalCloses := S (signalCloses c) |}.

(** [config.DBConfig], the fields the manager reads. *)
Record DBConfig : Type := {
  FilePath : string;
  DBType : string;
  BatchDelaySeconds : Z;
  MaxBatchSize : Z;
  MaxOpenFiles : Z
}.

(** [storageUnit.ArgDB] *)
Record ArgDB : Type := {
  arg_DBType : string;
  arg_Path : string;
  arg_BatchDelaySeconds : Z;
  arg_MaxBatchSize : Z;
  arg_MaxOpenFiles : Z
}.

(** The storers of the lookup chain, as names for the record of calls. *)
Inductive storer : Type :=
| MainStorer
| LegacyStorer
| CheckpointsStorer
| SnapshotDb (i : nat).

#[global] Instance storer_eq_dec : EqDecision storer.
Proof. solve_decision. Defined.

(** A call of the manager on one of the resources it owns. *)
Inductive call : Type :=
| CallGet (s : storer) (key : bytes)
| CallPut (s : storer) (key val : bytes)
| CallRemove (s : storer) (key : bytes)
| CallClose (s : storer)
| CallHolderPut (root : bytes)
| CallHolderRemove (hash : bytes)
| CallHolderRemoveCommitted (root : bytes)
| CallChanClose (c : chanId)
| CallCancel
| CallCloserClose.

#[global] Instance call_eq_dec : EqDecision call.
Proof. solve_decision. Defined.

(** [type trieStorageManager struct], over the persisters [P] and the
    hashes holder [H].  [cancelled] is the state of the context behind
    [cancelFunc]; [db] is the legacy storer. *)
Record trieStorageManager (P H : Type) : Type := {
  mainStorer : P;
  pruningBlockingOps : Z;
  snapshotReq : requestChan;
  checkpointReq : requestChan;
  checkpointsStorer : P;
  checkpointHashesHolder : H;
  cancelled : bool;
  closer : SafeCloser;
  closed : bool;
  db : P;
  snapshots : list P;
  snapshotId : Z;
  snapshotDbCfg : DBConfig;
  maxSnapshots : Z;
  keepSnapshots : bool
}.

Arguments mainStorer {P H} t.
Arguments pruningBlockingOps {P H} t.
Arguments snapshotReq {P H} t.
Arguments checkpointReq {P H} t.
Arguments checkpointsStorer {P H} t.
Arguments checkpointHashesHolder {P H} t.
Arguments cancelled {P H} t.
Arguments closer {P H} t.
Arguments closed {P H} t.
Arguments db {P H} t.
Arguments snapshots {P H} t.
Arguments snapshotId {P H} t.
Arguments snapshotDbCfg {P H} t.
Arguments maxSnapshots {P H} t.
Arguments keepSnapshots {P H} t.

(** What a method of the manager runs in: the manager itself, the leaves
    channels that were closed, the log, and the calls made so far on the
    resources of the manager (oldest first). *)
Record world (P H : Type) : Type := {
  tsm : trieStorageManager P H;
  closedChans : gset chanId;
  logged : list (logLevel * string);
  called : list call
}.

Arguments tsm {P H} w.
Arguments closedChans {P H} w.
Arguments logged {P H} w.
Arguments called {P H} w.

Inductive outcome (P H A : Type) : Type :=
| Done (a : A) (w : world P H)
| Panic (w : world P H)
| Blocked (w : world P H).

Arguments Done {P H A} a w.
Arguments Panic {P H A} w.
Arguments Blocked {P H A} w.

Definition M (P H A : Type) : Type := world P H → outcome P H A.

#[global] Instance M_ret {P H} : MRet (M P H) := λ A a w, Done a w.

#[global] Instance M_bind {P H} : MBind (M P H) := λ A B f m w,
  match m w with
  | Done a w' => f a w'
  | Panic w' => Panic w'
  | Blocked w' => Blocked w'
  end.

(** The world an execution stops in, however it stops. *)
Definition finalWorld {P H A} (o : outcome P H A) : world P H :=
  match o with Done _ w | Panic w | Blocked w => w end.

(** [uint32] and [int] arithmetic. *)
Definition uint32 (z : Z) : Z := z mod 2 ^ 32.
Definition maxInt : Z := 2 ^ 63 - 1.
Definition minInt : Z := - 2 ^ 63.
Definition int (z : Z) : Z := (z + 2 ^ 63) mod 2 ^ 64 - 2 ^ 63.

Section Manager.
Context {P H : Type} `{!DBWriteCacher P} `{!CheckpointHashesHolder H}.

Local Abbreviation TSM := (trieStorageManager P H).
Local Abbreviation Op := (M P H).

(** *** Field updates *)

Definition set_mainStorer (x : P) (t : TSM) : TSM :=
  {| mainStorer := x; pruningBlockingOps := pruningBlockingOps t;
     snapshotReq := snapshotReq t; checkpointReq := checkpointReq t;
     checkpointsStorer := checkpointsStorer t;
     checkpointHashesHolder := checkpointHashesHolder t;
     cancelled := cancelled t; closer := closer t; closed := closed t;
     db := db t; snapshots := snapshots t; snapshotId := snapshotId t;
     snapshotDbCfg := snapshotDbCfg t; maxSnapshots := maxSnapshots t;
     keepSnapshots := keepSnapshots t |}.

Definition set_pruningBlockingOps (x : Z) (t : TSM) : TSM :=
  {| mainStorer := mainStorer t; pruningBlockingOps := x;
     snapshotReq := snapshotReq t; checkpointReq := checkpointReq t;
     checkpointsStorer := checkpointsStorer t;
     checkpointHashesHolder := checkpointHashesHolder t;
     cancelled := cancelled t; closer := closer t; closed := closed t;
     db := db t; snapshots := snapshots t; snapshotId := snapshotId t;
     snapshotDbCfg := snapshotDbCfg t; maxSnapshots := maxSnapshots t;
     keepSnapshots := keepSnapshots t |}.

Definition set_snapshotReq (x : requestChan) (t : TSM) : TSM :=
  {| mainStorer := mainStorer t; pruningBlockingOps := pruningBlockingOps t;
     snapshotReq := x; checkpointReq := checkpointReq t;
     checkpointsStorer := checkpointsStorer t;
     checkpointHashesHolder := checkpointHashesHolder t;
     cancelled := cancelled t; closer := closer t; closed := closed t;
     db := db t; snapshots := snapshots t; snapshotId := snapshotId t;
     snapshotDbCfg := snapshotDbCfg t; maxSnapshots := maxSnapshots t;
     keepSnapshots := keepSnapshots t |}.

Definition set_checkpointReq (x : requestChan) (t : TSM) : TSM :=
  {| mainStorer := mainStorer t; pruningBlockingOps := pruningBlockingOps t;
     snapshotReq := snapshotReq t; checkpointReq := x;
     checkpointsStorer := checkpointsStorer t;
     checkpointHashesHolder := checkpointHashesHolder t;
     cancelled := cancelled t; closer := closer t; closed := closed t;
     db := db t; snapshots := snapshots t; snapshotId := snapshotId t;
     snapshotDbCfg := snapshotDbCfg t; maxSnapshots := maxSnapshots t;
     keepSnapshots := keepSnapshots t |}.

Definition set_checkpointsStorer (x : P) (t : TSM) : TSM :=
  {| mainStorer := mainStorer t; pruningBlockingOps := pruningBlockingOps t;
     snapshotReq := snapshotReq t; checkpointReq := checkpointReq t;
     checkpointsStorer := x;
     checkpointHashesHolder := checkpointHashesHolder t;
     cancelled := cancelled t; closer := closer t; closed := closed t;
     db := db t; snapshots := snapshots t; snapshotId := snapshotId t;
     snapshotDbCfg := snapshotDbCfg t; maxSnapshots := maxSnapshots t;
     keepSnapshots := keepSnapshots t |}.

Definition set_checkpointHashesHolder (x : H) (t : TSM) : TSM :=
  {| mainStorer := mainStorer t; pruningBlockingOps := pruningBlockingOps t;
     snapshotReq := snapshotReq t; checkpointReq := checkpointReq t;
     checkpointsStorer := checkpointsStorer t;
     checkpointHashesHolder := x;
     cancelled := cancelled t; closer := closer t; closed := closed t;
     db := db t; snapshots := snapshots t; snapshotId := snapshotId t;
     snapshotDbCfg := snapshotDbCfg t; maxSnapshots := maxSnapshots t;
     keepSnapshots := keepSnapshots t |}.

Definition set_cancelled (x : bool) (t : TSM) : TSM :=
  {| mainStorer := mainStorer t; pruningBlockingOps := pruningBlockingOps t;
     snapshotReq := snapshotReq t; checkpointReq := checkpointReq t;
     checkpointsStorer := checkpointsStorer t;
     checkpointHashesHolder := checkpointHashesHolder t;
     cancelled := x; closer := closer t; closed := closed t;
     db := db t; snapshots := snapshots t; snapshotId := snapshotId t;
     snapshotDbCfg := snapshotDbCfg t; maxSnapshots := maxSnapshots t;
     keepSnapshots := keepSnapshots t |}.

Definition set_closer (x : SafeCloser) (t : TSM) : TSM :=
  {| mainStorer := mainStorer t; pruningBlockingOps := pruningBlockingOps t;
     snapshotReq := snapshotReq t; checkpointReq := checkpointReq t;
     checkpointsStorer := checkpointsStorer t;
     checkpointHashesHolder := checkpointHashesHolder t;
     cancelled := cancelled t; closer := x; closed := closed t;
     db := db t; snapshots := snapshots t; snapshotId := snapshotId t;
     snapshotDbCfg := snapshotDbCfg t; maxSnapshots := maxSnapshots t;
     keepSnapshots := keepSnapshots t |}.

Definition set_closed (x : bool) (t : TSM) : TSM :=
  {| mainStorer := mainStorer t; pruningBlockingOps := pruningBlockingOps t;
     snapshotReq := snapshotReq t; checkpointReq := checkpointReq t;
     checkpointsStorer := checkpointsStorer t;
     checkpointHashesHolder := checkpointHashesHolder t;
     cancelled := cancelled t; closer := closer t; closed := x;
     db := db t; snapshots := snapshots t; snapshotId := snapshotId t;
     snapshotDbCfg := snapshotDbCfg t; maxSnapshots := maxSnapshots t;
     keepSnapshots := keepSnapshots t |}.

Definition set_db (x : P) (t : TSM) : TSM :=
  {| mainStorer := mainStorer t; pruningBlockingOps := pruningBlockingOps t;
     snapshotReq := snapshotReq t; checkpointReq := checkpointReq t;
     checkpointsStorer := checkpointsStorer t;
     checkpointHashesHolder := checkpointHashesHolder t;
     cancelled := cancelled t; closer := closer t; closed := closed t;
     db := x; snapshots := snapshots t; snapshotId := snapshotId t;
     snapshotDbCfg := snapshotDbCfg t; maxSnapshots := maxSnapshots t;
     keepSnapshots := keepSnapshots t |}.

Definition set_snapshots (x : list P) (t : TSM) : TSM :=
  {| mainStorer := mainStorer t; pruningBlockingOps := pruningBlockingOps t;
     snapshotReq := snapshotReq t; checkpointReq := checkpointReq t;
     checkpointsStorer := checkpointsStorer t;
     checkpointHashesHolder := checkpointHashesHolder t;
     cancelled := cancelled t; closer := closer t; closed := closed t;
     db := db t; snapshots := x; snapshotId := snapshotId t;
     snapshotDbCfg := snapshotDbCfg t; maxSnapshots := maxSnapshots t;
     keepSnapshots := keepSnapshots t |}.

(** *** Primitive steps *)

Definition setTsm (t : TSM) (w : world P H) : world P H :=
  {| tsm := t; closedChans := closedChans w;
     logged := logged w; called := called w |}.

Definition addLogs (l : list (logLevel * string)) (w : world P H) : world P H :=
  {| tsm := tsm w; closedChans := closedChans w;
     logged := logged w ++ l; called := called w |}.

Definition addCalls (cs : list call) (w : world P H) : world P H :=
  {| tsm := tsm w; closedChans := closedChans w;
     logged := logged w; called := called w ++ cs |}.

Definition addClosedChan (c : chanId) (w : world P H) : world P H :=
  {| tsm := tsm w; closedChans := {[c]} ∪ closedChans w;
     logged := logged w; called := called w |}.

Definition getTsm : Op TSM := λ w, Done (tsm w) w.

Definition modifyTsm (f : TSM → TSM) : Op unit := λ w,
  Done tt (setTsm (f (tsm w)) w).

(** [log.Trace], [log.Debug], [log.Error]: level and message text. *)
Definition logMsg (lvl : logLevel) (msg : string) : Op unit := λ w,
  Done tt (addLogs [(lvl, msg)] w).

Definition record (c : call) : Op unit := λ w, Done tt (addCalls [c] w).

(** [close(ch)]: closing a closed channel panics. *)
Definition closeChan (c : chanId) : Op unit := λ w,
  if decide (c ∈ closedChans w) then Panic w
  else Done tt (addCalls [CallChanClose c] (addClosedChan c w)).

Definition panic {A} : Op A := λ w, Panic w.
Definition block {A} : Op A := λ w, Blocked w.

(** Calls on a persister, recorded. *)
Definition storerGet (s : storer) (p : P) (key : bytes) : Op (bytes * option error) :=
  record (CallGet s key);; mret (db_Get p key).

Definition storerClose (s : storer) (p : P) : Op (P * option error) :=
  record (CallClose s);; mret (db_Close p).

(** ** Get *)

(** The loop [for i := len(tsm.snapshots) - 1; i >= 0; i--] of
    [getFromOtherStorers], entered with [n = i + 1]. *)
Fixpoint getFromSnapshots (key : bytes) (n : nat) : Op (bytes * option error) :=
  match n with
  | O => mret ([], Some ErrKeyNotFound)
  | S i =>
      t ← getTsm;
      match snapshots t !! i with
      | None => panic
      | Some sdb =>
          '(val, _) ← storerGet (SnapshotDb i) sdb key;
          if nonEmpty val then mret (val, None)
          else getFromSnapshots key i
      end
  end.

Definition getFromOtherStorers (key : bytes) : Op (bytes * option error) :=
  t ← getTsm;
  '(val, _) ← storerGet LegacyStorer (db t) key;
  if nonEmpty val then mret (val, None)
  else
    '(val, _) ← storerGet CheckpointsStorer (checkpointsStorer t) key;
    if nonEmpty val then mret (val, None)
    else getFromSnapshots key (length (snapshots t)).

(** Get checks all the storers for the given key, and returns it if it is
    found. *)
Definition Get (key : bytes) : Op (bytes * option error) :=
  t ← getTsm;
  '(val, _) ← storerGet MainStorer (mainStorer t) key;
  if nonEmpty val then mret (val, None)
  else getFromOtherStorers key.

(** ** Put, Remove *)

(** Put adds the given value to the main storer. *)
Definition Put (key val : bytes) : Op (option error) :=
  logMsg LogTrace "put hash in tsm";;
  t ← getTsm;
  record (CallPut MainStorer key val);;
  let '(p, err) := db_Put (mainStorer t) key val in
  modifyTsm (set_mainStorer p);;
  mret err.

(** Remove removes the given hash from the storage and from the checkpoint
    hashes holder. *)
Definition Remove (hash : bytes) : Op (option error) :=
  t ← getTsm;
  record (CallHolderRemove hash);;
  modifyTsm (set_checkpointHashesHolder
               (holder_Remove (checkpointHashesHolder t) hash));;
  record (CallRemove MainStorer hash);;
  let '(p, err) := db_Remove (mainStorer t) hash in
  modifyTsm (set_mainStorer p);;
  mret err.

(** AddDirtyCheckpointHashes adds the given hashes to the checkpoint hashes
    holder. *)
Definition AddDirtyCheckpointHashes (root : bytes) (hashes : list bytes) : Op bool :=
  t ← getTsm;
  record (CallHolderPut root);;
  let '(h, full) := holder_Put (checkpointHashesHolder t) root hashes in
  modifyTsm (set_checkpointHashesHolder h);;
  mret full.

(** ** The pruning-block counter *)

(** EnterPruningBufferingMode increases the counter that tracks how many
    operations that block the pruning process are in progress. *)
Definition EnterPruningBufferingMode : Op unit :=
  t ← getTsm;
  modifyTsm (set_pruningBlockingOps (uint32 (pruningBlockingOps t + 1)));;
  logMsg LogTrace "enter pruning buffering state".

(** ExitPruningBufferingMode decreases the counter. *)
Definition ExitPruningBufferingMode : Op unit :=
  t ← getTsm;
  if pruningBlockingOps t <? 1 then
    logMsg LogError "ExitPruningBufferingMode called too many times"
  else
    modifyTsm (set_pruningBlockingOps (uint32 (pruningBlockingOps t - 1)));;
    logMsg LogTrace "exit pruning buffering state".

(** IsPruningBlocked returns true if there is any pruning-blocking
    operation in progress. *)
Definition IsPruningBlocked : Op bool :=
  t ← getTsm; mret (negb (pruningBlockingOps t =? 0)).

Definition IsPruningEnabled : Op bool := mret true.

Definition GetSnapshotDbBatchDelay : Op Z :=
  t ← getTsm; mret (BatchDelaySeconds (snapshotDbCfg t)).

Definition isClosed : Op bool := t ← getTsm; mret (closed t).

(** ** Submitting snapshot and checkpoint requests *)

Definition safelyCloseChan (ch : option chanId) : Op unit :=
  match ch with
  | Some c => closeChan c
  | None => mret tt
  end.

(** The case of a two-way [select] that the Go run time picks when both
    are ready. *)
Inductive selectCase : Type := CaseSend | CaseChanClose.

(** [select { case queue <- entry: ; case <-tsm.closer.ChanClose(): ... }].
    The send is ready when the buffer has room, the receive when the closer
    has fired; with both ready [pick] decides, with none the caller waits. *)
Definition selectSend (pick : selectCase)
    (onSend : Op unit) (onClose : Op unit) (queue : TSM → requestChan) : Op unit :=
  t ← getTsm;
  let canSend := bool_decide (length (buffered (queue t)) < capacity (queue t))%nat in
  let canClose := signalled (closer t) in
  match canSend, canClose with
  | true, false => onSend
  | false, true => onClose
  | true, true => match pick with CaseSend => onSend | CaseChanClose => onClose end
  | false, false => block
  end.

Definition enqueue (e : snapshotsQueueEntry) (q : requestChan) : requestChan :=
  {| buffered := buffered q ++ [e]; capacity := capacity q |}.

Section Submission.
Variable EmptyTrieHash : bytes.

(** TakeSnapshot creates a new snapshot, or if there is another snapshot or
    checkpoint in progress, it adds this snapshot in the queue. *)
Definition TakeSnapshot (pick : selectCase)
    (rootHash : bytes) (newDb : bool) (leavesChan : option chanId) : Op unit :=
  c ← isClosed;
  if (c : bool) then safelyCloseChan leavesChan
  else if bytes_Equal rootHash EmptyTrieHash then
    logMsg LogTrace "should not snapshot an empty trie";;
    safelyCloseChan leavesChan
  else
    EnterPruningBufferingMode;;
    t ← getTsm;
    record (CallHolderRemoveCommitted rootHash);;
    modifyTsm (set_checkpointHashesHolder
                 (holder_RemoveCommitted (checkpointHashesHolder t) rootHash));;
    let snapshotEntry :=
      {| rootHash := rootHash; newDb := newDb; leavesChan := leavesChan |} in
    selectSend pick
      (modifyTsm (λ t, set_snapshotReq (enqueue snapshotEntry (snapshotReq t)) t))
      (ExitPruningBufferingMode;; safelyCloseChan leavesChan)
      snapshotReq.

(** SetCheckpoint creates a new checkpoint, or if there is another snapshot
    or checkpoint in progress, it adds this checkpoint in the queue. *)
Definition SetCheckpoint (pick : selectCase)
    (rootHash : bytes) (leavesChan : option chanId) : Op unit :=
  c ← isClosed;
  if (c : bool) then safelyCloseChan leavesChan
  else if bytes_Equal rootHash EmptyTrieHash then
    logMsg LogTrace "should not set checkpoint for empty trie";;
    safelyCloseChan leavesChan
  else
    EnterPruningBufferingMode;;
    let checkpointEntry :=
      {| rootHash := rootHash; newDb := false; leavesChan := leavesChan |} in
    selectSend pick
      (modifyTsm (λ t, set_checkpointReq (enqueue checkpointEntry (checkpointReq t)) t))
      (ExitPruningBufferingMode;; safelyCloseChan leavesChan)
      checkpointReq.

End Submission.

(** ** The background worker *)

(** [defer d] in front of [body]: [d] runs when [body] returns and also
    when it panics; a body that waits for ever never runs it. *)
Definition defer {A} (d : Op unit) (body : Op A) : Op A := λ w,
  match body w with
  | Done a w' => (d;; mret a) w'
  | Panic w' => (d;; panic) w'
  | Blocked w' => Blocked w'
  end.

Definition finishOperation (snapshotEntry : snapshotsQueueEntry) (message : string) : Op unit :=
  ExitPruningBufferingMode;;
  logMsg LogTrace message;;
  safelyCloseChan (leavesChan snapshotEntry).

(** The node decoding and the node walk are code of other files: the worker
    consumes them as the operations below.  They are given the manager and
    return it as they leave it; the [ctx] they receive is the [cancelled]
    flag of that manager, and the checkpoints storer and the hashes holder
    handed to [commitCheckpoint] are its fields.  What they call on the
    storers themselves is not added to [called], which holds the calls of
    the manager's own methods. *)
Class NodeWalker : Type := {
  marshalizer : Type;
  hasher : Type;
  snapshotNode : Type;
  snapshotTrieStorageManager : Type;
  getNodeFromDBAndDecode :
    bytes → TSM → marshalizer → hasher → snapshotNode + error;
  newSnapshotTrieStorageManager :
    TSM → TSM * (snapshotTrieStorageManager + error);
  commitSnapshot :
    snapshotNode → snapshotTrieStorageManager → option chanId → TSM →
    TSM * option error;
  commitCheckpoint :
    snapshotNode → option chanId → TSM → TSM * option error
}.

Context {walker : NodeWalker}.

Definition newSnapshotNode (t : TSM) (msh : marshalizer) (hsh : hasher)
    (rootHash : bytes) : snapshotNode + error :=
  match getNodeFromDBAndDecode rootHash t msh hsh with
  | inr err => inr err
  | inl newRoot => inl newRoot
  end.

Definition takeSnapshot (snapshotEntry : snapshotsQueueEntry)
    (msh : marshalizer) (hsh : hasher) : Op unit :=
  defer (finishOperation snapshotEntry "trie snapshot finished")
    (logMsg LogTrace "trie snapshot started";;
     t ← getTsm;
     match newSnapshotNode t msh hsh (rootHash snapshotEntry) with
     | inr err =>
         logMsg LogError "takeSnapshot: trie storage manager: newSnapshotTrie"
     | inl newRoot =>
         let '(t1, r) := newSnapshotTrieStorageManager t in
         modifyTsm (λ _, t1);;
         match r with
         | inr err =>
             logMsg LogError
               "takeSnapshot: trie storage manager: newSnapshotTrieStorageManager"
         | inl stsm =>
             let '(t2, err) :=
               commitSnapshot newRoot stsm (leavesChan snapshotEntry) t1 in
             modifyTsm (λ _, t2);;
             match err with
             | Some ErrContextClosing =>
                 logMsg LogDebug "context closing while in commitSnapshot operation"
             | Some _ => logMsg LogError "trie storage manager: commit"
             | None => mret tt
             end
         end
     end).

Definition takeCheckpoint (checkpointEntry : snapshotsQueueEntry)
    (msh : marshalizer) (hsh : hasher) : Op unit :=
  defer (finishOperation checkpointEntry "trie checkpoint finished")
    (logMsg LogTrace "trie checkpoint started";;
     t ← getTsm;
     match newSnapshotNode t msh hsh (rootHash checkpointEntry) with
     | inr err =>
         logMsg LogError "takeCheckpoint: trie storage manager: newSnapshotTrie"
     | inl newRoot =>
         let '(t1, err) :=
           commitCheckpoint newRoot (leavesChan checkpointEntry) t in
         modifyTsm (λ _, t1);;
         match err with
         | Some ErrContextClosing =>
             logMsg LogDebug "context closing while in commitCheckpoint operation"
         | Some _ => logMsg LogError "trie storage manager: commit"
         | None => mret tt
         end
     end).

(** One turn of the [for { select { ... } }] of [doProcessLoop]: the case
    the run time picked, which must be ready.  The result says whether the
    loop goes on. *)
Inductive workerCase : Type := SnapshotRequest | CheckpointRequest | CtxDone.

Definition doProcessLoopStep (pick : workerCase)
    (msh : marshalizer) (hsh : hasher) : Op bool :=
  t ← getTsm;
  match pick with
  | SnapshotRequest =>
      match buffered (snapshotReq t) with
      | [] => block
      | snapshotRequest :: rest =>
          modifyTsm (set_snapshotReq
                       {| buffered := rest; capacity := capacity (snapshotReq t) |});;
          takeSnapshot snapshotRequest msh hsh;;
          mret true
      end
  | CheckpointRequest =>
      match buffered (checkpointReq t) with
      | [] => block
      | snapshotRequest :: rest =>
          modifyTsm (set_checkpointReq
                       {| buffered := rest; capacity := capacity (checkpointReq t) |});;
          takeCheckpoint snapshotRequest msh hsh;;
          mret true
      end
  | CtxDone =>
      if cancelled t then
        logMsg LogDebug
          "trieStorageManager.storageProcessLoop go routine is closing...";;
        mret false
      else block
  end.

(** [doProcessLoop]: the turns of the loop under a schedule, the cases the
    run time picks one after the other; when the schedule is used up the
    worker waits in its [select]. *)
Fixpoint doProcessLoop (schedule : list workerCase)
    (msh : marshalizer) (hsh : hasher) : Op unit :=
  match schedule with
  | [] => block
  | pick :: rest =>
      continue ← doProcessLoopStep pick msh hsh;
      if (continue : bool) then doProcessLoop rest msh hsh else mret tt
  end.

(** The queue the [select] of [cleanupChans] reads when both hold an entry. *)
Inductive cleanupCase : Type := SnapshotEntry | CheckpointEntry.

(** One turn of the [for { select { ... default: ... } }] of
    [cleanupChans]; the result says whether the loop goes on. *)
Definition cleanupTurn (pick : cleanupCase) : Op bool :=
  t ← getTsm;
  let fromSnapshotReq entry rest :=
    modifyTsm (set_snapshotReq
                 {| buffered := rest; capacity := capacity (snapshotReq t) |});;
    finishOperation entry "trie snapshot finished on cleanup";;
    mret true in
  let fromCheckpointReq entry rest :=
    modifyTsm (set_checkpointReq
                 {| buffered := rest; capacity := capacity (checkpointReq t) |});;
    finishOperation entry "trie checkpoint finished on cleanup";;
    mret true in
  match buffered (snapshotReq t), buffered (checkpointReq t) with
  | [], [] =>
      logMsg LogDebug "finished trieStorageManager.cleanupChans";;
      mret false
  | entry :: rest, [] => fromSnapshotReq entry rest
  | [], entry :: rest => fromCheckpointReq entry rest
  | entryS :: restS, entryC :: restC =>
      match pick with
      | SnapshotEntry => fromSnapshotReq entryS restS
      | CheckpointEntry => fromCheckpointReq entryC restC
      end
  end.

(** The loop of [cleanupChans] from its turn number [turn]; [picks] gives
    the pick of every turn.  No turn adds an entry to a queue, so the loop
    takes as many turns as entries are pending and one more: [n] is the
    number of turns that may still take an entry. *)
Fixpoint cleanupLoop (picks : nat → cleanupCase) (turn n : nat) : Op unit :=
  continue ← cleanupTurn (picks turn);
  if (continue : bool) then
    match n with
    | O => block
    | S n' => cleanupLoop picks (S turn) n'
    end
  else mret tt.

(** [cleanupChans]: wait for the close signal, then drain both queues. *)
Definition cleanupChans (picks : nat → cleanupCase) : Op unit :=
  t ← getTsm;
  if signalled (closer t) then
    cleanupLoop picks 0
      (length (buffered (snapshotReq t)) + length (buffered (checkpointReq t)))
  else block.

(** [doCheckpointsAndSnapshots], the body of the worker. *)
Definition doCheckpointsAndSnapshots (schedule : list workerCase)
    (picks : nat → cleanupCase) (msh : marshalizer) (hsh : hasher) : Op unit :=
  doProcessLoop schedule msh hsh;;
  cleanupChans picks.

(** ** Close *)

Definition cancelFunc : Op unit :=
  record CallCancel;; modifyTsm (set_cancelled true).

Definition closerClose : Op unit :=
  record CallCloserClose;;
  modifyTsm (λ t, set_closer (SafeCloser_Close (closer t)) t).

(** [for _, sdb := range tsm.snapshots] of [Close], at index [i]. *)
Fixpoint closeSnapshots (i : nat) (sdbs : list P) (err : option error) : Op (option error) :=
  match sdbs with
  | [] => mret err
  | sdb :: rest =>
      '(sdb', errSnapshotClose) ← storerClose (SnapshotDb i) sdb;
      modifyTsm (λ t, set_snapshots (<[i := sdb']> (snapshots t)) t);;
      err ← match errSnapshotClose with
            | Some e =>
                logMsg LogError "trieStorageManager.Close snapshotClose";;
                mret (Some e)
            | None => mret err
            end;
      closeSnapshots (S i) rest err
  end.

(** Close - closes all underlying components. *)
Definition Close : Op (option error) :=
  cancelFunc;;
  modifyTsm (set_closed true);;
  defer closerClose
    (t ← getTsm;
     '(p, err) ← storerClose LegacyStorer (db t);
     modifyTsm (set_db p);;
     err ← closeSnapshots 0 (snapshots t) err;
     '(p, errMainStorerClose) ← storerClose MainStorer (mainStorer t);
     modifyTsm (set_mainStorer p);;
     err ← match errMainStorerClose with
           | Some e =>
               logMsg LogError "trieStorageManager.Close mainStorerClose";;
               mret (Some e)
           | None => mret err
           end;
     '(p, errCheckpointsStorerClose) ← storerClose CheckpointsStorer (checkpointsStorer t);
     modifyTsm (set_checkpointsStorer p);;
     err ← match errCheckpointsStorerClose with
           | Some e =>
               logMsg LogError "trieStorageManager.Close checkpointsStorerClose";;
               mret (Some e)
           | None => mret err
           end;
     match err with
     | Some e => mret (Some (Errorf "trieStorageManager close failed" e))
     | None => mret None
     end).

End Manager.

(** ** Discovery of the snapshot databases *)

(** [os.FileInfo], the part the discovery reads. *)
Record FileInfo : Type := {
  Name : string;
  IsDir : bool
}.

(** What the discovery asks of its surroundings: [os.Stat] (its error),
    [ioutil.ReadDir] and [storageUnit.NewDB]. *)
Record OS (P : Type) : Type := {
  os_Stat : string → option error;
  ioutil_ReadDir : string → list FileInfo + error;
  storageUnit_NewDB : ArgDB → P + error
}.

Arguments os_Stat {P} o path.
Arguments ioutil_ReadDir {P} o path.
Arguments storageUnit_NewDB {P} o arg.

Definition os_IsNotExist (err : option error) : bool :=
  bool_decide (err = Some ErrNotExist).

Definition directoryExists {P} (os : OS P) (path : string) : bool :=
  negb (os_IsNotExist (os_Stat os path)).

(** [path.Join(dir, name)]; the cleaning of the result is left out, the
    path is only handed to [storageUnit.NewDB]. *)
Definition path_Join (dir name : string) : string :=
  String.append dir (String.append "/" name).

(** [strconv.Atoi] of the Go standard library: an optional sign, then
    decimal digits only, at least one; a value outside [int] is a range
    error. *)
Definition digitValue (c : ascii) : option Z :=
  let n := Z.of_N (N_of_ascii c) in
  if bool_decide (48 ≤ n ≤ 57) then Some (n - 48) else None.

Fixpoint parseDigits (s : string) (acc : Z) : option Z :=
  match s with
  | EmptyString => Some acc
  | String c rest =>
      match digitValue c with
      | Some d => parseDigits rest (10 * acc + d)
      | None => None
      end
  end.

Definition Atoi (s : string) : Z + error :=
  let '(neg, digits) :=
    match s with
    | String "-" rest => (true, rest)
    | String "+" rest => (false, rest)
    | _ => (false, s)
    end in
  match digits with
  | EmptyString => inr ErrSyntax
  | _ =>
      match parseDigits digits 0 with
      | None => inr ErrSyntax
      | Some n =>
          let v := if (neg : bool) then - n else n in
          if bool_decide (minInt ≤ v ≤ maxInt) then inl v else inr ErrRange
      end
  end.

Section Discovery.
Context {P : Type}.
Variable os : OS P.

(** The keys of the map, sorted by [sort.Ints]. *)
Definition orderedKeys (snapshotsMap : gmap Z P) : list Z :=
  merge_sort Z.le (fst <$> map_to_list snapshotsMap).

Definition getOrderedSnapshots (snapshotsMap : gmap Z P) : list P :=
  omap (λ key, snapshotsMap !! key) (orderedKeys snapshotsMap).

Definition newArgDB (cfg : DBConfig) (f : FileInfo) : ArgDB :=
  {| arg_DBType := DBType cfg;
     arg_Path := path_Join (FilePath cfg) (Name f);
     arg_BatchDelaySeconds := BatchDelaySeconds cfg;
     arg_MaxBatchSize := MaxBatchSize cfg;
     arg_MaxOpenFiles := MaxOpenFiles cfg |}.

(** [for _, f := range files] of [getSnapshotsAndSnapshotId], with what
    follows the loop.  The [log.Debug] lines of the discovery are left
    out: nothing reads them. *)
Fixpoint scanFiles (cfg : DBConfig) (files : list FileInfo)
    (snapshotsMap : gmap Z P) (snapshotId : Z) : list P * Z * option error :=
  match files with
  | [] =>
      let snapshotId :=
        if bool_decide (size snapshotsMap ≠ 0%nat) then int (snapshotId + 1)
        else snapshotId in
      (getOrderedSnapshots snapshotsMap, snapshotId, None)
  | f :: rest =>
      if negb (IsDir f) then scanFiles cfg rest snapshotsMap snapshotId
      else
        match Atoi (Name f) with
        | inr err => (getOrderedSnapshots snapshotsMap, snapshotId, Some err)
        | inl snapshotName =>
            match storageUnit_NewDB os (newArgDB cfg f) with
            | inr err => (getOrderedSnapshots snapshotsMap, snapshotId, Some err)
            | inl db =>
                let snapshotId :=
                  if bool_decide (snapshotName > snapshotId) then snapshotName
                  else snapshotId in
                scanFiles cfg rest (<[snapshotName := db]> snapshotsMap) snapshotId
            end
        end
  end.

Definition getSnapshotsAndSnapshotId (snapshotDbCfg : DBConfig)
    : list P * Z * option error :=
  if negb (directoryExists os (FilePath snapshotDbCfg)) then
    (getOrderedSnapshots ∅, 0, None)
  else
    match ioutil_ReadDir os (FilePath snapshotDbCfg) with
    | inr err => (getOrderedSnapshots ∅, 0, Some err)
    | inl files => scanFiles snapshotDbCfg files ∅ 0
    end.

(** The map [snapshotsMap] as it stands when [scanFiles] returns: the
    snapshots behind the list it returns, with their ids. *)
Fixpoint scannedMap (cfg : DBConfig) (files : list FileInfo)
    (snapshotsMap : gmap Z P) : gmap Z P :=
  match files with
  | [] => snapshotsMap
  | f :: rest =>
      if negb (IsDir f) then scannedMap cfg rest snapshotsMap
      else
        match Atoi (Name f), storageUnit_NewDB os (newArgDB cfg f) with
        | inl snapshotName, inl db =>
            scannedMap cfg rest (<[snapshotName := db]> snapshotsMap)
        | _, _ => snapshotsMap
        end
  end.

Definition discoveredMap (snapshotDbCfg : DBConfig) : gmap Z P :=
  if negb (directoryExists os (FilePath snapshotDbCfg)) then ∅
  else
    match ioutil_ReadDir os (FilePath snapshotDbCfg) with
    | inr _ => ∅
    | inl files => scannedMap snapshotDbCfg files ∅
    end.

End Discovery.

(** ** The constructor *)

(** [config.TrieStorageManagerConfig] *)
Record TrieStorageManagerConfig : Type := {
  SnapshotsBufferLen : nat;
  MaxSnapshots : Z;
  KeepSnapshots : bool
}.

(** [NewTrieStorageManagerArgs]; a nil interface value is [None]. *)
Record NewTrieStorageManagerArgs (P H Msh Hsh : Type) : Type := {
  args_DB : option P;
  args_MainStorer : option P;
  args_CheckpointsStorer : option P;
  args_Marshalizer : option Msh;
  args_Hasher : option Hsh;
  args_SnapshotDbConfig : DBConfig;
  args_GeneralConfig : TrieStorageManagerConfig;
  args_CheckpointHashesHolder : option H
}.

Arguments args_DB {P H Msh Hsh} n.
Arguments args_MainStorer {P H Msh Hsh} n.
Arguments args_CheckpointsStorer {P H Msh Hsh} n.
Arguments args_Marshalizer {P H Msh Hsh} n.
Arguments args_Hasher {P H Msh Hsh} n.
Arguments args_SnapshotDbConfig {P H Msh Hsh} n.
Arguments args_GeneralConfig {P H Msh Hsh} n.
Arguments args_CheckpointHashesHolder {P H Msh Hsh} n.

(** NewTrieStorageManager creates a new instance of trieStorageManager.  The
    worker it starts is not part of the result: its turns are
    [doProcessLoopStep]. *)
Definition NewTrieStorageManager {P H Msh Hsh} (os : OS P)
    (args : NewTrieStorageManagerArgs P H Msh Hsh) : world P H + error :=
  match args_DB args with
  | None => inr ErrNilDatabase
  | Some argsDB =>
  match args_MainStorer args with
  | None => inr (Errorf "for main storer" ErrNilStorer)
  | Some argsMainStorer =>
  match args_CheckpointsStorer args with
  | None => inr (Errorf "for checkpoints storer" ErrNilStorer)
  | Some argsCheckpointsStorer =>
  match args_Marshalizer args with
  | None => inr ErrNilMarshalizer
  | Some _ =>
  match args_Hasher args with
  | None => inr ErrNilHasher
  | Some _ =>
  match args_CheckpointHashesHolder args with
  | None => inr ErrNilCheckpointHashesHolder
  | Some argsHolder =>
      let '(snapshots, snapshotId, err) :=
        getSnapshotsAndSnapshotId os (args_SnapshotDbConfig args) in
      let bufferLen := SnapshotsBufferLen (args_GeneralConfig args) in
      inl {| tsm :=
               {| db := argsDB;
                  mainStorer := argsMainStorer;
                  checkpointsStorer := argsCheckpointsStorer;
                  snapshots := snapshots;
                  snapshotId := snapshotId;
                  snapshotDbCfg := args_SnapshotDbConfig args;
                  snapshotReq := {| buffered := []; capacity := bufferLen |};
                  checkpointReq := {| buffered := []; capacity := bufferLen |};
                  pruningBlockingOps := 0;
                  maxSnapshots := MaxSnapshots (args_GeneralConfig args);
                  keepSnapshots := KeepSnapshots (args_GeneralConfig args);
                  cancelled := false;
                  checkpointHashesHolder := argsHolder;
                  closer := NewSafeChanCloser;
                  closed := false |};
             closedChans := ∅;
             logged := match err with
                       | Some _ => [(LogDebug, "get snapshot"%string)]
                       | None => []
                       end;
             called := [] |}
  end end end end end end.

(** ** The lookup chain, as the specification words it *)

Section LookupChain.
Context {P H : Type} `{!DBWriteCacher P}.

(** The layers in the order of precedence: main storer, legacy storer,
    checkpoints storer, then the snapshot databases from the newest (the
    last of the list) to the oldest. *)
Definition lookupChain (t : trieStorageManager P H) : list (storer * P) :=
  [(MainStorer, mainStorer t); (LegacyStorer, db t);
   (CheckpointsStorer, checkpointsStorer t)]
  ++ reverse (imap (λ i sdb, (SnapshotDb i, sdb)) (snapshots t)).

(** Walk the layers in order up to the first one that holds a non-empty
    value, whatever error comes with it: the layers consulted, and the
    value found or [ErrKeyNotFound]. *)
Fixpoint firstNonEmpty (key : bytes) (chain : list (storer * P))
    : list call * (bytes * option error) :=
  match chain with
  | [] => ([], ([], Some ErrKeyNotFound))
  | (s, p) :: rest =>
      let val := (db_Get p key).1 in
      if nonEmpty val then ([CallGet s key], (val, None))
      else
        let '(consulted, found) := firstNonEmpty key rest in
        (CallGet s key :: consulted, found)
  end.

End LookupChain.

(** ** Close, as a function of the world it starts in *)

Section CloseSummary.
Context {P H : Type} `{!DBWriteCacher P}.

(** The resources [Close] closes, in the order it closes them. *)
Definition closeOrder (t : trieStorageManager P H) : list (storer * P) :=
  (LegacyStorer, db t)
  :: imap (λ i sdb, (SnapshotDb i, sdb)) (snapshots t)
  ++ [(MainStorer, mainStorer t); (CheckpointsStorer, checkpointsStorer t)].

(** The errors of the closes that failed, in that order. *)
Definition closeFailures (t : trieStorageManager P H) : list error :=
  omap (λ sp, (db_Close sp.2).2) (closeOrder t).

(** The error [Close] holds after the closes [results], having held [err]:
    the last failure wins. *)
Definition lastFailure (err : option error) (results : list (option error))
    : option error :=
  fold_left (λ acc r, match r with Some e => Some e | None => acc end) results err.

Definition snapshotCloseLogs (results : list (option error))
    : list (logLevel * string) :=
  omap (λ r : option error,
          match r with
          | Some _ => Some (LogError, "trieStorageManager.Close snapshotClose"%string)
          | None => None
          end) results.

Definition closeResults (t : trieStorageManager P H) : list (option error) :=
  (λ sp, (db_Close sp.2).2) <$> closeOrder t.

Definition closeLogs (t : trieStorageManager P H) : list (logLevel * string) :=
  snapshotCloseLogs ((λ p, (db_Close p).2) <$> snapshots t)
  ++ match (db_Close (mainStorer t)).2 with
     | Some _ => [(LogError, "trieStorageManager.Close mainStorerClose"%string)]
     | None => []
     end
  ++ match (db_Close (checkpointsStorer t)).2 with
     | Some _ => [(LogError, "trieStorageManager.Close checkpointsStorerClose"%string)]
     | None => []
     end.

(** The manager after [Close]: cancelled, closed, every persister closed
    once more, the closer fired. *)
Definition closedManager (t : trieStorageManager P H) : trieStorageManager P H :=
  set_closer (SafeCloser_Close (closer t))
    (set_checkpointsStorer (db_Close (checkpointsStorer t)).1
       (set_mainStorer (db_Close (mainStorer t)).1
          (set_snapshots ((λ p, (db_Close p).1) <$> snapshots t)
             (set_db (db_Close (db t)).1
                (set_closed true (set_cancelled true t)))))).

Definition closeCalls (t : trieStorageManager P H) : list call :=
  CallCancel :: ((λ sp, CallClose sp.1) <$> closeOrder t) ++ [CallCloserClose].

End CloseSummary.

(** ** Requests that are turned away *)

Section TurnedAwaySummary.
Context {P H : Type}.

(** What a call that is turned away leaves behind: the manager as it was
    (nothing enqueued, the counter and the hashes holder untouched), the
    leaves channel closed, and no call made but that close. *)
Definition turnedAway (leavesChan : option chanId) (w : world P H)
    (o : outcome P H unit) : Prop :=
  snapshotReq (tsm (finalWorld o)) = snapshotReq (tsm w)
  ∧ checkpointReq (tsm (finalWorld o)) = checkpointReq (tsm w)
  ∧ pruningBlockingOps (tsm (finalWorld o)) = pruningBlockingOps (tsm w)
  ∧ checkpointHashesHolder (tsm (finalWorld o)) = checkpointHashesHolder (tsm w)
  ∧ match leavesChan with
    | None => o = Done tt (finalWorld o) ∧ called (finalWorld o) = called w
    | Some c =>
        c ∈ closedChans (finalWorld o)
        ∧ (c ∉ closedChans w →
           o = Done tt (finalWorld o)
           ∧ called (finalWorld o) = called w ++ [CallChanClose c])
    end.

End TurnedAwaySummary.

(** ** The service of a request by the worker *)

Section WorkerSummary.
Context {P H : Type} {walker : @NodeWalker P H}.

(** How the service of a request ends: the root node could not be decoded,
    the snapshot view could not be built, or the node walk ran and returned
    [err]. *)
Inductive serviceResult : Type :=
| DecodeFailed (e : error)
| ViewFailed (e : error)
| Traversed (err : option error).

Definition snapshotResult (t : trieStorageManager P H) (entry : snapshotsQueueEntry)
    (msh : marshalizer) (hsh : hasher) : serviceResult :=
  match getNodeFromDBAndDecode (rootHash entry) t msh hsh with
  | inr e => DecodeFailed e
  | inl newRoot =>
      match newSnapshotTrieStorageManager t with
      | (_, inr e) => ViewFailed e
      | (t1, inl stsm) =>
          Traversed (commitSnapshot newRoot stsm (leavesChan entry) t1).2
      end
  end.

Definition checkpointResult (t : trieStorageManager P H) (entry : snapshotsQueueEntry)
    (msh : marshalizer) (hsh : hasher) : serviceResult :=
  match getNodeFromDBAndDecode (rootHash entry) t msh hsh with
  | inr e => DecodeFailed e
  | inl newRoot => Traversed (commitCheckpoint newRoot (leavesChan entry) t).2
  end.

(** A service that ends without a fault: the walk succeeded, or it was cut
    short by the closing context. *)
Definition cleanResult (r : serviceResult) : bool :=
  match r with
  | Traversed None | Traversed (Some ErrContextClosing) => true
  | _ => false
  end.

Definition errorCount (w : world P H) : nat :=
  length (filter (λ l, l.1 = LogError) (logged w)).

(** The node decoding and the node walk do not enter or leave the pruning
    buffering mode. *)
Definition walkKeepsCounter : Prop :=
  (∀ t, pruningBlockingOps (newSnapshotTrieStorageManager t).1 = pruningBlockingOps t)
  ∧ (∀ n s c t, pruningBlockingOps (commitSnapshot n s c t).1 = pruningBlockingOps t)
  ∧ (∀ n c t, pruningBlockingOps (commitCheckpoint n c t).1 = pruningBlockingOps t).

(** What the worker leaves behind when it has served [entry] from [w] with
    result [r]: one taken off the counter when it is positive, the counter
    left at zero when it is zero already; the leaves channel closed once;
    one error logged for a service that did not end clean, and one more
    when the counter was found at zero. *)
Definition completed (entry : snapshotsQueueEntry) (r : serviceResult)
    (w : world P H) (o : outcome P H unit) : Prop :=
  ∃ w', o = Done tt w'
    ∧ pruningBlockingOps (tsm w') = Z.max 0 (pruningBlockingOps (tsm w) - 1)
    ∧ called w' = called w ++
        match leavesChan entry with Some c => [CallChanClose c] | None => [] end
    ∧ closedChans w' =
        match leavesChan entry with
        | Some c => {[c]} ∪ closedChans w
        | None => closedChans w
        end
    ∧ errorCount w' =
        (errorCount w + (if cleanResult r then 0 else 1)
         + (if (pruningBlockingOps (tsm w) =? 0)%Z then 1 else 0))%nat.

End WorkerSummary.

(** ** What discovery keeps true *)

Section DiscoverySummary.
Context {P : Type}.
Variable os : OS P.

(** What the loop keeps true of the map and of [snapshotId]: no id of the
    map is above [snapshotId], which is not negative and is an id of the
    map unless it is still zero. *)
Definition idBound (m : gmap Z P) (snapshotId : Z) : Prop :=
  (∀ k, is_Some (m !! k) → k ≤ snapshotId)
  ∧ 0 ≤ snapshotId
  ∧ (snapshotId = 0 ∨ is_Some (m !! snapshotId)).

(** A child directory that opens: its name parses and its database opens. *)
Definition opens (cfg : DBConfig) (f : FileInfo) : Prop :=
  ∃ n sdb, Atoi (Name f) = inl n ∧ storageUnit_NewDB os (newArgDB cfg f) = inl sdb.

(** The child directory read last among those whose name parses to [n]. *)
Definition lastNumbered (n : Z) (files : list FileInfo) : option FileInfo :=
  last (filter (λ f, IsDir f = true ∧ Atoi (Name f) = inl n) files).

End DiscoverySummary.

(** ** Sequences of calls *)

Section CallSequences.
Context {P H : Type}.

(** What a run returned, when it returned. *)
Definition returned {A} (o : outcome P H A) : option A :=
  match o with Done a _ => Some a | _ => None end.

(** [n] calls of [op] in a row. *)
Fixpoint times (n : nat) (op : M P H unit) : M P H unit :=
  match n with
  | O => mret tt
  | S n' => op;; times n' op
  end.

(** The requests waiting in the two queues, and their leaves channels. *)
Definition pendingEntries (t : trieStorageManager P H) : list snapshotsQueueEntry :=
  buffered (snapshotReq t) ++ buffered (checkpointReq t).

Definition pendingChans (t : trieStorageManager P H) : list chanId :=
  omap leavesChan (pendingEntries t).

(** What a turn that takes [entry] off a queue leaves behind. *)
Definition tookOne (entry : snapshotsQueueEntry) (w w' : world P H) : Prop :=
  length (pendingEntries (tsm w)) = S (length (pendingEntries (tsm w')))
  ∧ pendingChans (tsm w) ≡ₚ option_list (leavesChan entry) ++ pendingChans (tsm w')
  ∧ pruningBlockingOps (tsm w') = Z.max 0 (pruningBlockingOps (tsm w) - 1)
  ∧ closer (tsm w') = closer (tsm w)
  ∧ closedChans w' =
      match leavesChan entry with
      | Some c => {[c]} ∪ closedChans w
      | None => closedChans w
      end.

End CallSequences.

(** ** Submissions *)

Section SubmissionSummary.
Context {P H : Type} `{!CheckpointHashesHolder H}.

(** What a submission to the queue [queue] comes to, whatever happens: when
    the call returns, either the entry stands at the end of the queue and
    its leaves channel is as it was, or the queue is as it was and the
    leaves channel has been closed; the call waits only at a full queue
    when the close signal has not fired, and then the queue and the channel
    are as they were; it does not panic. *)
Definition submissionOutcome (queue : trieStorageManager P H → requestChan)
    (entry : snapshotsQueueEntry) (w : world P H) (o : outcome P H unit) : Prop :=
  match o with
  | Done _ w' =>
      (queue (tsm w') = enqueue entry (queue (tsm w))
       ∧ closedChans w' = closedChans w)
      ∨ (queue (tsm w') = queue (tsm w)
         ∧ closedChans w' =
             match leavesChan entry with
             | Some c => {[c]} ∪ closedChans w
             | None => closedChans w
             end)
  | Blocked w' =>
      queue (tsm w') = queue (tsm w)
      ∧ closedChans w' = closedChans w
      ∧ (capacity (queue (tsm w)) ≤ length (buffered (queue (tsm w))))%nat
      ∧ signalled (closer (tsm w)) = false
  | Panic _ => False
  end.

(** The world in which [TakeSnapshot] reaches its [select]: the counter
    raised, the hashes holder told to drop the root hash. *)
Definition beforeSnapshotSelect (rootHash : bytes) (w : world P H) : world P H :=
  setTsm
    (set_checkpointHashesHolder
       (holder_RemoveCommitted (checkpointHashesHolder (tsm w)) rootHash)
       (set_pruningBlockingOps (uint32 (pruningBlockingOps (tsm w) + 1)) (tsm w)))
    (addCalls [CallHolderRemoveCommitted rootHash]
       (addLogs [(LogTrace, "enter pruning buffering state"%string)] w)).

(** The world in which [SetCheckpoint] reaches its [select]. *)
Definition beforeCheckpointSelect (w : world P H) : world P H :=
  addLogs [(LogTrace, "enter pruning buffering state"%string)]
    (setTsm (set_pruningBlockingOps (uint32 (pruningBlockingOps (tsm w) + 1))
               (tsm w)) w).

End SubmissionSummary.

(** ** The worker loop *)

Section WorkerLoopSummary.
Context {P H : Type} {walker : @NodeWalker P H}.

(** What the loop of the worker reads of the manager between two requests:
    the two queues, the context and the counter. *)
Definition sameLoopState (t t' : trieStorageManager P H) : Prop :=
  snapshotReq t' = snapshotReq t
  ∧ checkpointReq t' = checkpointReq t
  ∧ cancelled t' = cancelled t
  ∧ pruningBlockingOps t' = pruningBlockingOps t.

(** The node walk does not send to the queues, cancel the context or enter
    the pruning buffering mode. *)
Definition walkKeepsLoopState : Prop :=
  (∀ t, sameLoopState t (newSnapshotTrieStorageManager t).1)
  ∧ (∀ n s c t, sameLoopState t (commitSnapshot n s c t).1)
  ∧ (∀ n c t, sameLoopState t (commitCheckpoint n c t).1).

(** The requests the worker takes under a schedule of request cases, in
    the order it takes them, and what remains of the snapshot queue and of
    the checkpoint queue.  A case whose queue is empty is not ready: the
    run time cannot pick it. *)
Fixpoint serveOrder (schedule : list workerCase)
    (snapshotQueue checkpointQueue : list snapshotsQueueEntry)
    : option (list snapshotsQueueEntry
              * list snapshotsQueueEntry * list snapshotsQueueEntry) :=
  match schedule with
  | [] => Some ([], snapshotQueue, checkpointQueue)
  | SnapshotRequest :: rest =>
      match snapshotQueue with
      | [] => None
      | entry :: queue =>
          match serveOrder rest queue checkpointQueue with
          | Some (served, restS, restC) => Some (entry :: served, restS, restC)
          | None => None
          end
      end
  | CheckpointRequest :: rest =>
      match checkpointQueue with
      | [] => None
      | entry :: queue =>
          match serveOrder rest snapshotQueue queue with
          | Some (served, restS, restC) => Some (entry :: served, restS, restC)
          | None => None
          end
      end
  | CtxDone :: _ => None
  end.

(** What the service of [entry] leaves behind for the loop. *)
Definition servedOne (entry : snapshotsQueueEntry) (w : world P H)
    (o : outcome P H unit) : Prop :=
  ∃ w', o = Done tt w'
    ∧ snapshotReq (tsm w') = snapshotReq (tsm w)
    ∧ checkpointReq (tsm w') = checkpointReq (tsm w)
    ∧ cancelled (tsm w') = cancelled (tsm w)
    ∧ pruningBlockingOps (tsm w') = pruningBlockingOps (tsm w) - 1
    ∧ called w' = called w ++ (CallChanClose <$> option_list (leavesChan entry))
    ∧ closedChans w' =
        match leavesChan entry with
        | Some c => {[c]} ∪ closedChans w
        | None => closedChans w
        end.

End WorkerLoopSummary.

(** ** Test doubles *)

(** A persister in memory: an association list (newest binding first), the
    error its [Get] and its [Close] return, and how often it was closed. *)
Record memDB : Type := {
  label : string;
  content : list (bytes * bytes);
  getErr : option error;
  closeErr : option error;
  closes : nat
}.

Fixpoint memLookup (l : list (bytes * bytes)) (key : bytes) : bytes :=
  match l with
  | [] => []
  | (k, v) :: rest => if bool_decide (k = key) then v else memLookup rest key
  end.

#[global] Instance memDB_DBWriteCacher : DBWriteCacher memDB := {|
  db_Get p key := (memLookup (content p) key, getErr p);
  db_Put p key val :=
    ({| label := label p; content := (key, val) :: content p;
        getErr := getErr p; closeErr := closeErr p; closes := closes p |}, None);
  db_Remove p key :=
    ({| label := label p;
        content := filter (λ kv, kv.1 ≠ key) (content p);
        getErr := getErr p; closeErr := closeErr p; closes := closes p |}, None);
  db_Close p :=
    ({| label := label p; content := content p;
        getErr := getErr p; closeErr := closeErr p; closes := S (closes p) |},
     closeErr p)
|}.

Definition newMemDB (name : string) (l : list (bytes * bytes)) : memDB :=
  {| label := name; content := l; getErr := None; closeErr := None; closes := 0 |}.

Definition failingClose (e : error) (p : memDB) : memDB :=
  {| label := label p; content := content p; getErr := getErr p;
     closeErr := Some e; closes := closes p |}.

Definition failingGet (e : error) (p : memDB) : memDB :=
  {| label := label p; content := content p; getErr := Some e;
     closeErr := closeErr p; closes := closes p |}.

(** A hashes holder in memory: the roots it holds. *)
Record memHolder : Type := { roots : list bytes }.

#[global] Instance memHolder_CheckpointHashesHolder : CheckpointHashesHolder memHolder := {|
  holder_Put h root _ := ({| roots := root :: roots h |}, false);
  holder_Remove h hash := {| roots := filter (λ r, r ≠ hash) (roots h) |};
  holder_RemoveCommitted h root := {| roots := filter (λ r, r ≠ root) (roots h) |}
|}.

(** A node walker that touches nothing and answers as told. *)
Definition stubWalker (decoded : unit + error) (opened : unit + error)
    (walked : option error) : @NodeWalker memDB memHolder := {|
  marshalizer := unit;
  hasher := unit;
  snapshotNode := unit;
  snapshotTrieStorageManager := unit;
  getNodeFromDBAndDecode _ _ _ _ := decoded;
  newSnapshotTrieStorageManager t := (t, opened);
  commitSnapshot _ _ _ t := (t, walked);
  commitCheckpoint _ _ t := (t, walked)
|}.

(** Surroundings in which the snapshot directory holds [listing] and the
    databases at the paths [broken] do not open. *)
Definition stubOS (stat : option error) (listing : list FileInfo + error)
    (broken : list string) : OS memDB := {|
  os_Stat _ := stat;
  ioutil_ReadDir _ := listing;
  storageUnit_NewDB arg :=
    if bool_decide (arg_Path arg ∈ broken) then inr (ErrExternal "open failed")
    else inl (newMemDB (arg_Path arg) [])
|}.

Definition testCfg : DBConfig :=
  {| FilePath := "snap"; DBType := "LvlDBSerial"; BatchDelaySeconds := 2;
     MaxBatchSize := 100; MaxOpenFiles := 10 |}.

Definition testManager (main legacy checkpoints : memDB) (snaps : list memDB)
    : trieStorageManager memDB memHolder :=
  {| mainStorer := main; pruningBlockingOps := 0;
     snapshotReq := {| buffered := []; capacity := 2 |};
     checkpointReq := {| buffered := []; capacity := 2 |};
     checkpointsStorer := checkpoints;
     checkpointHashesHolder := {| roots := [] |};
     cancelled := false; closer := NewSafeChanCloser; closed := false;
     db := legacy; snapshots := snaps; snapshotId := 0;
     snapshotDbCfg := testCfg; maxSnapshots := 2; keepSnapshots := false |}.

Definition testWorld (t : trieStorageManager memDB memHolder) : world memDB memHolder :=
  {| tsm := t; closedChans := ∅; logged := []; called := [] |}.

Definition keyX : bytes := ["x"%byte].
Definition valA : bytes := ["A"%byte].
Definition valB : bytes := ["B"%byte].
Definition valC : bytes := ["C"%byte].

(** ** Concrete worlds *)

Definition dir (name : string) : FileInfo := {| Name := name; IsDir := true |}.
Definition file (name : string) : FileInfo := {| Name := name; IsDir := false |}.

(** Scenario 2 of the specification: the same key in three layers, and one
    snapshot database. *)
Definition layeredWorld : world memDB memHolder :=
  testWorld
    (testManager (newMemDB "main" [(keyX, valA)])
       (newMemDB "legacy" [(keyX, valB)])
       (newMemDB "checkpoints" [(keyX, valC)])
       [newMemDB "snap/0" []]).

(** The key only in the legacy storer. *)
Definition legacyWorld : world memDB memHolder :=
  testWorld
    (testManager (newMemDB "main" [])
       (newMemDB "legacy" [(keyX, valB)])
       (newMemDB "checkpoints" [])
       [newMemDB "snap/0" []]).

(** The main storer returns the value together with an error. *)
Definition faultyWorld : world memDB memHolder :=
  testWorld
    (testManager (failingGet (ErrExternal "disk") (newMemDB "main" [(keyX, valA)]))
       (newMemDB "legacy" [])
       (newMemDB "checkpoints" [])
       []).

(** The legacy storer and the checkpoints storer fail to close. *)
Definition failingCloseWorld : world memDB memHolder :=
  testWorld
    (testManager (newMemDB "main" [])
       (failingClose (ErrExternal "legacy") (newMemDB "legacy" []))
       (failingClose (ErrExternal "checkpoints") (newMemDB "checkpoints" []))
       [newMemDB "snap/0" []]).

(** The counter at the largest [uint32]. *)
Definition saturatedWorld : world memDB memHolder :=
  setTsm (set_pruningBlockingOps (2 ^ 32 - 1) (tsm legacyWorld)) legacyWorld.

(** A request is being served: the counter is 1. *)
Definition servingWorld : world memDB memHolder :=
  setTsm (set_pruningBlockingOps 1 (tsm legacyWorld)) legacyWorld.

(** After [Close]. *)
Definition closedWorld : world memDB memHolder :=
  setTsm (set_closed true (tsm legacyWorld)) legacyWorld.

Definition emptyTrieHash : bytes := repeat "000"%byte 32.

Definition request : snapshotsQueueEntry :=
  {| rootHash := keyX; newDb := true; leavesChan := Some 7%nat |}.

(** The close signal has fired; the [closed] flag is not set yet. *)
Definition closingWorld : world memDB memHolder :=
  setTsm (set_closer (SafeCloser_Close NewSafeChanCloser) (tsm legacyWorld))
    legacyWorld.

(** Three requests are pending, two snapshots and a checkpoint, each with
    a leaves channel of its own; the counter is 3. *)
Definition backlogWorld : world memDB memHolder :=
  setTsm
    (set_checkpointReq
       {| buffered := [{| rootHash := valC; newDb := false; leavesChan := Some 9%nat |}];
          capacity := 2 |}
       (set_snapshotReq
          {| buffered := [request;
                          {| rootHash := valB; newDb := false;
                             leavesChan := Some 8%nat |}];
             capacity := 2 |}
          (set_pruningBlockingOps 3 (tsm legacyWorld))))
    legacyWorld.

(** The same with the context of the worker cancelled. *)
Definition cancelledWorld : world memDB memHolder :=
  setTsm (set_cancelled true (tsm backlogWorld)) backlogWorld.

(** The same once the close signal has fired. *)
Definition drainingWorld : world memDB memHolder :=
  setTsm (set_closer (SafeCloser_Close NewSafeChanCloser) (tsm backlogWorld))
    backlogWorld.

(** Snapshot directories "10", "2" and "7" beside a plain file. *)
Definition tidyOS : OS memDB :=
  stubOS None (inl [dir "10"; dir "2"; file "LOCK"; dir "7"]) [].

(** A directory whose name is not a number after one whose name is. *)
Definition strayOS : OS memDB := stubOS None (inl [dir "5"; dir "abc"]) [].

(** A directory "5" whose database does not open. *)
Definition brokenOS : OS memDB := stubOS None (inl [dir "5"]) ["snap/5"%string].

(** Directories "05" and "5", read in this order: the same number twice. *)
Definition repeatedOS : OS memDB := stubOS None (inl [dir "05"; dir "5"]) [].

(** A directory whose name is a negative number. *)
Definition negativeOS : OS memDB := stubOS None (inl [dir "-3"]) [].

(** Directories "05", "-3" and "5" beside a plain file. *)
Definition mixedOS : OS memDB :=
  stubOS None (inl [dir "05"; dir "-3"; file "LOCK"; dir "5"]) [].

(** No snapshot directory. *)
Definition missingOS : OS memDB := stubOS (Some ErrNotExist) (inr ErrNotExist) [].

(** Snapshot directories "10", "2" and "7"; the databases of "2" and of
    "7" hold a value for [keyX], that of "10" does not. *)
Definition stockedOS : OS memDB := {|
  os_Stat _ := None;
  ioutil_ReadDir _ := inl [dir "10"; dir "2"; dir "7"];
  storageUnit_NewDB arg :=
    inl (newMemDB (arg_Path arg)
           (if String.eqb (arg_Path arg) "snap/2" then [(keyX, valA)]
            else if String.eqb (arg_Path arg) "snap/7" then [(keyX, valB)]
            else []))
|}.

Definition testArgs : NewTrieStorageManagerArgs memDB memHolder unit unit :=
  {| args_DB := Some (newMemDB "legacy" []);
     args_MainStorer := Some (newMemDB "main" []);
     args_CheckpointsStorer := Some (newMemDB "checkpoints" []);
     args_Marshalizer := Some tt;
     args_Hasher := Some tt;
     args_SnapshotDbConfig := testCfg;
     args_GeneralConfig :=
       {| SnapshotsBufferLen := 2; MaxSnapshots := 2; KeepSnapshots := false |};
     args_CheckpointHashesHolder := Some {| roots := [] |} |}.

(** * Properties *)

Section WorldLemmas.
Context {P H : Type}.

Lemma addCalls_nil (w : world P H) : addCalls [] w = w.
Proof. destruct w; unfold addCalls; simpl. by rewrite app_nil_r. Qed.

Lemma addCalls_addCalls (a b : list call) (w : world P H) :
  addCalls b (addCalls a w) = addCalls (a ++ b) w.
Proof. unfold addCalls; simpl. by rewrite app_assoc. Qed.

Lemma addLogs_nil (w : world P H) : addLogs [] w = w.
Proof. destruct w; unfold addLogs; simpl. by rewrite app_nil_r. Qed.

Lemma addLogs_addLogs (a b : list (logLevel * string)) (w : world P H) :
  addLogs b (addLogs a w) = addLogs (a ++ b) w.
Proof. unfold addLogs; simpl. by rewrite app_assoc. Qed.

Lemma world_eq (w1 w2 : world P H) :
  tsm w1 = tsm w2 → closedChans w1 = closedChans w2 →
  logged w1 = logged w2 → called w1 = called w2 → w1 = w2.
Proof. destruct w1, w2; simpl; by intros -> -> -> ->. Qed.

End WorldLemmas.

Ltac run :=
  unfold mbind, M_bind, mret, M_ret, getTsm, modifyTsm, storerGet, storerClose,
    record, logMsg, panic, block; simpl.

Section GetProperties.
Context {P H : Type} `{!DBWriteCacher P} `{!CheckpointHashesHolder H}.

Lemma getFromSnapshots_firstNonEmpty (key : bytes) (n : nat) (w : world P H) :
  (n ≤ length (snapshots (tsm w)))%nat →
  getFromSnapshots key n w =
    Done (firstNonEmpty key
            (reverse (imap (λ i sdb, (SnapshotDb i, sdb))
                        (take n (snapshots (tsm w)))))).2
         (addCalls (firstNonEmpty key
            (reverse (imap (λ i sdb, (SnapshotDb i, sdb))
                        (take n (snapshots (tsm w)))))).1 w).
Proof.
  revert w. induction n as [|i IH]; intros w Hn.
  - simpl. run. by rewrite addCalls_nil.
  - destruct (lookup_lt_is_Some_2 (snapshots (tsm w)) i) as [sdb Hsdb]; [lia|].
    rewrite (take_S_r _ _ _ Hsdb), imap_app, reverse_app. simpl.
    rewrite length_take, Nat.min_l, Nat.add_0_r by lia.
    run. rewrite Hsdb. run.
    destruct (db_Get sdb key) as [val err]; simpl.
    destruct (nonEmpty val); simpl; [done|].
    rewrite IH by (simpl; lia). simpl.
    destruct (firstNonEmpty _ _) as [cs r]; simpl.
    by rewrite addCalls_addCalls.
Qed.

(** [Get] is the walk of [firstNonEmpty] over the lookup chain: same
    result, and the calls made on the storers are the layers consulted. *)
Lemma Get_firstNonEmpty (key : bytes) (w : world P H) :
  Get key w =
    Done (firstNonEmpty key (lookupChain (tsm w))).2
         (addCalls (firstNonEmpty key (lookupChain (tsm w))).1 w).
Proof.
  unfold Get, getFromOtherStorers, lookupChain. run.
  destruct (db_Get (mainStorer (tsm w)) key) as [v1 e1]; simpl.
  destruct (nonEmpty v1); simpl; [done|].
  destruct (db_Get (db (tsm w)) key) as [v2 e2]; simpl.
  destruct (nonEmpty v2); simpl; [by rewrite addCalls_addCalls|].
  destruct (db_Get (checkpointsStorer (tsm w)) key) as [v3 e3]; simpl.
  destruct (nonEmpty v3); simpl; [by rewrite !addCalls_addCalls|].
  rewrite getFromSnapshots_firstNonEmpty by (simpl; lia). simpl.
  rewrite firstn_all.
  destruct (firstNonEmpty _ _) as [cs r]; simpl.
  by rewrite !addCalls_addCalls.
Qed.

End GetProperties.

Section MoreGetProperties.
Context {P H : Type} `{!DBWriteCacher P} `{!CheckpointHashesHolder H}.

Lemma nonEmpty_true (val : bytes) : nonEmpty val = true ↔ val ≠ [].
Proof. by destruct val. Qed.

Lemma nonEmpty_false (val : bytes) : nonEmpty val = false ↔ val = [].
Proof. by destruct val. Qed.

Lemma firstNonEmpty_value_or_KeyNotFound (key : bytes) (chain : list (storer * P)) :
  (∃ val, val ≠ [] ∧ (firstNonEmpty key chain).2 = (val, None))
  ∨ (firstNonEmpty key chain).2 = ([], Some ErrKeyNotFound).
Proof.
  induction chain as [|[s p] rest IH]; simpl; [by right|].
  destruct (nonEmpty (db_Get p key).1) eqn:Hval; simpl.
  - left. eexists. split; [|done]. by apply nonEmpty_true.
  - by destruct (firstNonEmpty key rest) as [cs r].
Qed.

Lemma firstNonEmpty_hit (key : bytes) (pre post : list (storer * P)) s p :
  Forall (λ sp, (db_Get sp.2 key).1 = []) pre →
  (db_Get p key).1 ≠ [] →
  firstNonEmpty key (pre ++ (s, p) :: post) =
    ((λ sp, CallGet sp.1 key) <$> (pre ++ [(s, p)]), ((db_Get p key).1, None)).
Proof.
  intros Hpre Hval. induction Hpre as [|[s' p'] pre Hx _ IH]; simpl.
  - by apply nonEmpty_true in Hval as ->.
  - simpl in Hx. rewrite Hx. simpl. by rewrite IH.
Qed.

Lemma firstNonEmpty_all_empty (key : bytes) (chain : list (storer * P)) :
  Forall (λ sp, (db_Get sp.2 key).1 = []) chain →
  firstNonEmpty key chain =
    ((λ sp, CallGet sp.1 key) <$> chain, ([], Some ErrKeyNotFound)).
Proof.
  induction 1 as [|[s p] rest Hx _ IH]; simpl; [done|].
  simpl in Hx. rewrite Hx. simpl. by rewrite IH.
Qed.

(** C10.  [Get] never returns a value together with an error: it returns
    either a non-empty value with a nil error or no value with
    [ErrKeyNotFound], and no other error.  In particular, when the first
    layer of the chain that holds a non-empty value returns it with an
    error of its own, [Get] returns that value with a nil error. *)
Theorem Get_value_or_KeyNotFound (key : bytes) (w : world P H) :
  ((∃ val w', val ≠ [] ∧ Get key w = Done (val, None) w')
   ∨ (∃ w', Get key w = Done ([], Some ErrKeyNotFound) w'))
  ∧ (∀ pre s p post val e,
       lookupChain (tsm w) = pre ++ (s, p) :: post →
       Forall (λ sp, (db_Get sp.2 key).1 = []) pre →
       db_Get p key = (val, Some e) → val ≠ [] →
       ∃ w', Get key w = Done (val, None) w').
Proof.
  rewrite Get_firstNonEmpty. split.
  - destruct (firstNonEmpty_value_or_KeyNotFound key (lookupChain (tsm w)))
      as [(val & Hval & ->)| ->]; [left|right]; eauto.
  - intros pre s p post val e -> Hpre Hp Hval.
    rewrite firstNonEmpty_hit by (by rewrite ?Hp). rewrite Hp. eauto.
Qed.

(** When every layer yields an empty value, all of them were consulted, in
    the order of the chain. *)
Lemma Get_KeyNotFound_consults_all (key : bytes) (w : world P H) :
  Forall (λ sp, (db_Get sp.2 key).1 = []) (lookupChain (tsm w)) →
  Get key w =
    Done ([], Some ErrKeyNotFound)
         (addCalls ((λ sp, CallGet sp.1 key) <$> lookupChain (tsm w)) w).
Proof.
  intros Hall. rewrite Get_firstNonEmpty.
  by rewrite (firstNonEmpty_all_empty _ _ Hall).
Qed.

(** C1.  [Get] consults the main storer, the legacy storer, the checkpoints
    storer and then the snapshot databases from the newest to the oldest,
    and stops at the first layer that yields a non-empty value: it returns
    that value with a nil error, whatever error the layers returned, having
    called [Get] on the layers before it and on it, in the order of the
    chain, and on no other.  When every layer yields an empty value it has
    called all of them in that order and returns [ErrKeyNotFound]. *)
Theorem Get_lookup_order (key : bytes) (w : world P H) :
  lookupChain (tsm w) =
    [(MainStorer, mainStorer (tsm w)); (LegacyStorer, db (tsm w));
     (CheckpointsStorer, checkpointsStorer (tsm w))]
    ++ reverse (imap (λ i sdb, (SnapshotDb i, sdb)) (snapshots (tsm w)))
  ∧ (∀ pre s p post,
       lookupChain (tsm w) = pre ++ (s, p) :: post →
       Forall (λ sp, (db_Get sp.2 key).1 = []) pre →
       (db_Get p key).1 ≠ [] →
       Get key w =
         Done ((db_Get p key).1, None)
              (addCalls ((λ sp, CallGet sp.1 key) <$> (pre ++ [(s, p)])) w))
  ∧ (Forall (λ sp, (db_Get sp.2 key).1 = []) (lookupChain (tsm w)) →
     Get key w =
       Done ([], Some ErrKeyNotFound)
            (addCalls ((λ sp, CallGet sp.1 key) <$> lookupChain (tsm w)) w)).
Proof.
  split; [done|]. split.
  - intros pre s p post Hchain Hpre Hval.
    by rewrite Get_firstNonEmpty, Hchain, firstNonEmpty_hit.
  - apply Get_KeyNotFound_consults_all.
Qed.

(** ** Put then Get *)

(** C3, as amended.  When the main storer stores what it is given, [Put]
    of a non-empty value followed by [Get] of the same key returns that
    value with a nil error. *)
Theorem Put_Get_nonEmpty (key val : bytes) (w : world P H) :
  (db_Get (db_Put (mainStorer (tsm w)) key val).1 key).1 = val →
  val ≠ [] →
  ∃ err w1 w2,
    Put key val w = Done err w1 ∧ Get key w1 = Done (val, None) w2.
Proof.
  intros Hstored Hval. unfold Put. run.
  destruct (db_Put (mainStorer (tsm w)) key val) as [p err] eqn:Hput; simpl.
  do 2 eexists. eexists. split; [done|].
  rewrite Get_firstNonEmpty.
  unfold lookupChain; simpl in *. rewrite Hstored.
  by apply nonEmpty_true in Hval as ->.
Qed.

End MoreGetProperties.

(** ** The pruning-block counter *)

Section CounterProperties.
Context {P H : Type} `{!DBWriteCacher P} `{!CheckpointHashesHolder H}.

Lemma EnterPruningBufferingMode_run (w : world P H) :
  EnterPruningBufferingMode w =
    Done tt
      (addLogs [(LogTrace, "enter pruning buffering state"%string)]
         (setTsm (set_pruningBlockingOps
                    (uint32 (pruningBlockingOps (tsm w) + 1)) (tsm w)) w)).
Proof. done. Qed.

Lemma ExitPruningBufferingMode_run (w : world P H) :
  ExitPruningBufferingMode w =
    if pruningBlockingOps (tsm w) <? 1 then
      Done tt
        (addLogs [(LogError, "ExitPruningBufferingMode called too many times"%string)] w)
    else
      Done tt
        (addLogs [(LogTrace, "exit pruning buffering state"%string)]
           (setTsm (set_pruningBlockingOps
                      (uint32 (pruningBlockingOps (tsm w) - 1)) (tsm w)) w)).
Proof.
  unfold ExitPruningBufferingMode. run.
  by destruct (pruningBlockingOps (tsm w) <? 1).
Qed.

(** C6, as amended.  The counter is a [uint32].  [EnterPruningBufferingMode]
    adds one to it modulo 2^32; [ExitPruningBufferingMode] takes one off
    when it is positive, and when it is zero leaves it at zero, logs an
    error and returns normally.  From every counter below 2^32 - 1, Enter
    followed by Exit gives the counter back.  [IsPruningBlocked] answers
    true exactly when the counter is not zero, and changes nothing. *)
Theorem pruning_counter_Enter_Exit (w : world P H) :
  0 ≤ pruningBlockingOps (tsm w) < 2 ^ 32 →
  (∃ w1, EnterPruningBufferingMode w = Done tt w1
     ∧ pruningBlockingOps (tsm w1) = (pruningBlockingOps (tsm w) + 1) mod 2 ^ 32
     ∧ (pruningBlockingOps (tsm w) < 2 ^ 32 - 1 →
        pruningBlockingOps (tsm w1) = pruningBlockingOps (tsm w) + 1))
  ∧ (∃ w1, ExitPruningBufferingMode w = Done tt w1
     ∧ (0 < pruningBlockingOps (tsm w) →
        pruningBlockingOps (tsm w1) = pruningBlockingOps (tsm w) - 1)
     ∧ (pruningBlockingOps (tsm w) = 0 →
        pruningBlockingOps (tsm w1) = 0
        ∧ logged w1 = logged w ++
            [(LogError, "ExitPruningBufferingMode called too many times"%string)]))
  ∧ (pruningBlockingOps (tsm w) < 2 ^ 32 - 1 →
     ∃ w2, (EnterPruningBufferingMode;; ExitPruningBufferingMode) w = Done tt w2
       ∧ pruningBlockingOps (tsm w2) = pruningBlockingOps (tsm w))
  ∧ (∃ b, IsPruningBlocked w = Done b w
       ∧ (b = true ↔ pruningBlockingOps (tsm w) ≠ 0)).
Proof.
  intros Hrange. repeat split.
  - rewrite EnterPruningBufferingMode_run. eexists. split; [done|].
    simpl. unfold uint32. split; [done|]. intros Hlt.
    apply Z.mod_small. lia.
  - rewrite ExitPruningBufferingMode_run. 
    destruct (pruningBlockingOps (tsm w) <? 1) eqn:Hc.
    + apply Z.ltb_lt in Hc. eexists. split; [done|]. simpl.
      split; [lia|]. by intros ->.
    + apply Z.ltb_ge in Hc. eexists. split; [done|]. simpl. unfold uint32.
      split; [|lia]. intros _. apply Z.mod_small. lia.
  - intros Hlt. unfold mbind at 1. unfold M_bind.
    rewrite EnterPruningBufferingMode_run, ExitPruningBufferingMode_run. simpl.
    assert (uint32 (pruningBlockingOps (tsm w) + 1) = pruningBlockingOps (tsm w) + 1)
      as -> by (apply Z.mod_small; lia).
    destruct (pruningBlockingOps (tsm w) + 1 <? 1) eqn:Hc;
      [apply Z.ltb_lt in Hc; lia|].
    eexists. split; [done|]. simpl. unfold uint32.
    rewrite Z.mod_small; lia.
  - exists (negb (pruningBlockingOps (tsm w) =? 0)). split; [done|].
    destruct (pruningBlockingOps (tsm w) =? 0) eqn:Hc; simpl.
    + apply Z.eqb_eq in Hc. split; [done|]. by intros [].
    + apply Z.eqb_neq in Hc. done.
Qed.

End CounterProperties.

(** ** Requests that are turned away *)

Section TurnedAway.
Context {P H : Type} `{!DBWriteCacher P} `{!CheckpointHashesHolder H}.
Variable EmptyTrieHash : bytes.

Lemma safelyCloseChan_turnedAway (leavesChan : option chanId) (w w' : world P H) :
  tsm w' = tsm w → closedChans w' = closedChans w → called w' = called w →
  turnedAway leavesChan w (safelyCloseChan leavesChan w').
Proof.
  intros Ht Hchans Hcalls. unfold turnedAway, safelyCloseChan.
  destruct leavesChan as [c|]; simpl.
  - unfold closeChan. destruct (decide (c ∈ closedChans w')) as [Hin|Hin]; simpl.
    + rewrite Ht. do 4 (split; [done|]). split; [done|].
      intros Hout. by rewrite Hchans in Hin.
    + rewrite Ht, Hcalls. do 4 (split; [done|]).
      split; [apply elem_of_union_l; by apply elem_of_singleton|done].
  - rewrite Ht, Hcalls. by repeat split.
Qed.

(** C5.  A [TakeSnapshot] or [SetCheckpoint] made while the manager is
    closed, or for the root hash of the empty trie, enqueues nothing, leaves
    the pruning-block counter and the hashes holder as they were, and closes
    the leaves channel when there is one: it returns normally when that
    channel was open, after the one call that closes it. *)
Theorem closed_or_empty_trie_turned_away (pick : selectCase)
    (rootHash : bytes) (newDb : bool) (leavesChan : option chanId) (w : world P H) :
  closed (tsm w) = true ∨ rootHash = EmptyTrieHash →
  turnedAway leavesChan w
    (TakeSnapshot EmptyTrieHash pick rootHash newDb leavesChan w)
  ∧ turnedAway leavesChan w
      (SetCheckpoint EmptyTrieHash pick rootHash leavesChan w).
Proof.
  intros Hcase. unfold TakeSnapshot, SetCheckpoint, isClosed. run.
  destruct (closed (tsm w)) eqn:Hclosed.
  - split; by apply safelyCloseChan_turnedAway.
  - destruct Hcase as [?| ->]; [done|].
    unfold bytes_Equal. rewrite bool_decide_eq_true_2 by done.
    split; by apply safelyCloseChan_turnedAway.
Qed.

End TurnedAway.

(** ** The worker completes every request it serves *)

Section WorkerProperties.
Context {P H : Type} `{!DBWriteCacher P} `{!CheckpointHashesHolder H}.
Context {walker : @NodeWalker P H}.

Lemma finishOperation_run (entry : snapshotsQueueEntry) (message : string) (w : world P H) :
  0 ≤ pruningBlockingOps (tsm w) < 2 ^ 32 →
  (∀ c, leavesChan entry = Some c → c ∉ closedChans w) →
  ∃ w', finishOperation entry message w = Done tt w'
    ∧ pruningBlockingOps (tsm w') = Z.max 0 (pruningBlockingOps (tsm w) - 1)
    ∧ called w' = called w ++
        match leavesChan entry with Some c => [CallChanClose c] | None => [] end
    ∧ closedChans w' =
        match leavesChan entry with
        | Some c => {[c]} ∪ closedChans w
        | None => closedChans w
        end
    ∧ errorCount w' =
        (errorCount w + if (pruningBlockingOps (tsm w) =? 0)%Z then 1 else 0)%nat.
Proof.
  intros Hc Hopen. unfold finishOperation.
  unfold mbind at 1. unfold M_bind. rewrite ExitPruningBufferingMode_run.
  destruct (pruningBlockingOps (tsm w) <? 1) eqn:Hlt.
  - apply Z.ltb_lt in Hlt.
    assert (pruningBlockingOps (tsm w) = 0) as Hzero by lia.
    run. unfold safelyCloseChan, closeChan, errorCount. rewrite Hzero.
    destruct (leavesChan entry) as [c|]; simpl.
    + rewrite decide_False by auto. eexists. split; [done|]. simpl.
      rewrite Hzero, <- !app_assoc, filter_app. simpl.
      rewrite length_app. simpl. repeat split; first [done | lia].
    + eexists. split; [done|]. simpl.
      rewrite Hzero, <- !app_assoc, filter_app, app_nil_r. simpl.
      rewrite length_app. simpl. repeat split; first [done | lia].
  - apply Z.ltb_ge in Hlt.
    assert ((pruningBlockingOps (tsm w) =? 0) = false) as Hpos
      by (apply Z.eqb_neq; lia).
    run. unfold safelyCloseChan, closeChan, errorCount. rewrite Hpos.
    destruct (leavesChan entry) as [c|]; simpl.
    + rewrite decide_False by auto. eexists. split; [done|]. simpl.
      unfold uint32. rewrite Z.mod_small by lia.
      rewrite <- !app_assoc, filter_app. simpl.
      rewrite length_app. simpl. repeat split; first [done | lia].
    + eexists. split; [done|]. simpl.
      unfold uint32. rewrite Z.mod_small by lia.
      rewrite <- !app_assoc, filter_app, app_nil_r. simpl.
      rewrite length_app. simpl. repeat split; first [done | lia].
Qed.

Lemma finish_completed (entry : snapshotsQueueEntry) (message : string)
    (r : serviceResult) (w wb : world P H) :
  0 ≤ pruningBlockingOps (tsm w) < 2 ^ 32 →
  (∀ c, leavesChan entry = Some c → c ∉ closedChans w) →
  pruningBlockingOps (tsm wb) = pruningBlockingOps (tsm w) →
  called wb = called w →
  closedChans wb = closedChans w →
  errorCount wb = (errorCount w + if cleanResult r then 0 else 1)%nat →
  completed entry r w ((finishOperation entry message;; mret tt) wb).
Proof.
  intros Hc Hopen Hcounter Hcalled Hchans Herrors.
  destruct (finishOperation_run entry message wb) as (w' & Hrun & H1 & H2 & H3 & H4).
  { by rewrite Hcounter. }
  { by rewrite Hchans. }
  unfold mbind, M_bind. rewrite Hrun. exists w'.
  rewrite H1, H2, H3, H4, Hcounter, Hcalled, Hchans, Herrors. done.
Qed.

Lemma errorCount_addLogs (l : list (logLevel * string)) (w : world P H) :
  errorCount (addLogs l w) =
    (errorCount w + length (filter (λ l, l.1 = LogError) l))%nat.
Proof. unfold errorCount. simpl. by rewrite filter_app, length_app. Qed.

Lemma errorCount_setTsm (t : trieStorageManager P H) (w : world P H) :
  errorCount (setTsm t w) = errorCount w.
Proof. done. Qed.

Ltac finish :=
  apply finish_completed; simpl;
  repeat (rewrite errorCount_addLogs || rewrite errorCount_setTsm); simpl;
  first [done | lia].

(** C8, as amended.  Whatever the service of a request comes to (the root
    node does not decode, the snapshot view cannot be built, the walk
    succeeds, is cut short by the closing context or fails otherwise), the
    worker returns normally having closed the leaves channel of the request
    once, when it has one, and having taken one off the pruning-block
    counter when it was positive; when another caller has already brought
    the counter to zero it stays at zero and one more error is logged.  A
    walk cut short by the closing context adds nothing of its own to the
    errors logged, like a walk that succeeds; every other failure adds one
    entry.  The counter is a [uint32], the leaves channel of the request is
    still open, and the node walk does not touch the counter. *)
Theorem worker_completes_every_request (entry : snapshotsQueueEntry)
    (msh : marshalizer) (hsh : hasher) (w : world P H) :
  walkKeepsCounter →
  0 ≤ pruningBlockingOps (tsm w) < 2 ^ 32 →
  (∀ c, leavesChan entry = Some c → c ∉ closedChans w) →
  completed entry (snapshotResult (tsm w) entry msh hsh) w
    (takeSnapshot entry msh hsh w)
  ∧ completed entry (checkpointResult (tsm w) entry msh hsh) w
      (takeCheckpoint entry msh hsh w).
Proof.
  intros (Hview & Hsnap & Hcheck) Hc Hopen. split.
  - unfold takeSnapshot, defer, newSnapshotNode, snapshotResult. run.
    destruct (getNodeFromDBAndDecode (rootHash entry) (tsm w) msh hsh)
      as [newRoot|e]; simpl; [|finish].
    specialize (Hview (tsm w)).
    destruct (newSnapshotTrieStorageManager (tsm w)) as [t1 [stsm|e]];
      simpl in *; [|finish].
    specialize (Hsnap newRoot stsm (leavesChan entry) t1).
    destruct (commitSnapshot newRoot stsm (leavesChan entry) t1)
      as [t2 [e|]]; simpl in *; [destruct e; simpl|]; finish.
  - unfold takeCheckpoint, defer, newSnapshotNode, checkpointResult. run.
    destruct (getNodeFromDBAndDecode (rootHash entry) (tsm w) msh hsh)
      as [newRoot|e]; simpl; [|finish].
    specialize (Hcheck newRoot (leavesChan entry) (tsm w)).
    destruct (commitCheckpoint newRoot (leavesChan entry) (tsm w))
      as [t1 [e|]]; simpl in *; [destruct e; simpl|]; finish.
Qed.

End WorkerProperties.

(** ** Close *)

Section CloseProperties.
Context {P H : Type} `{!DBWriteCacher P} `{!CheckpointHashesHolder H}.

Lemma lastFailure_last (err : option error) (results : list (option error)) :
  lastFailure err results =
    match last (omap id results) with Some e => Some e | None => err end.
Proof.
  revert err. induction results as [|r results IH]; intros err; [done|].
  change (lastFailure err (r :: results))
    with (lastFailure match r with Some e => Some e | None => err end results).
  rewrite IH. destruct r as [e|].
  - change (omap id (Some e :: results)) with (e :: omap id results).
    rewrite last_cons. by destruct (last (omap id results)).
  - done.
Qed.

Lemma closeSnapshots_run (sdbs pre : list P) (err : option error) (w : world P H) :
  snapshots (tsm w) = pre ++ sdbs →
  closeSnapshots (length pre) sdbs err w =
    Done (lastFailure err ((λ p, (db_Close p).2) <$> sdbs))
      (addLogs (snapshotCloseLogs ((λ p, (db_Close p).2) <$> sdbs))
         (addCalls (imap (λ i _, CallClose (SnapshotDb (length pre + i))) sdbs)
            (setTsm (set_snapshots (pre ++ ((λ p, (db_Close p).1) <$> sdbs)) (tsm w)) w))).
Proof.
  revert pre err w. induction sdbs as [|sdb rest IH]; intros pre err w Hw.
  - simpl. run. rewrite <- Hw.
    destruct w as [t ? ? ?]; destruct t; unfold addLogs, addCalls, setTsm; simpl.
    by rewrite !app_nil_r.
  - simpl. run.
    destruct (db_Close sdb) as [sdb' e] eqn:Hclose; simpl.
    rewrite Hw, insert_app_r_alt, Nat.sub_diag by lia. simpl.
    assert (length (pre ++ [sdb']) = S (length pre)) as Hlen
      by (rewrite length_app; simpl; lia).
    destruct e as [e|]; simpl.
    + rewrite <- Hlen, IH by (simpl; by rewrite <- app_assoc).
      unfold addLogs, addCalls, setTsm, set_snapshots, lastFailure; simpl.
      rewrite <- !app_assoc. simpl. do 3 f_equal. rewrite Hlen.
      f_equal; [do 2 f_equal; lia|].
      apply imap_ext. intros; simpl. do 2 f_equal. lia.
    + rewrite <- Hlen, IH by (simpl; by rewrite <- app_assoc).
      unfold addLogs, addCalls, setTsm, set_snapshots, lastFailure; simpl.
      rewrite <- !app_assoc. simpl. do 3 f_equal. rewrite Hlen.
      f_equal; [do 2 f_equal; lia|].
      apply imap_ext. intros; simpl. do 2 f_equal. lia.
Qed.

Lemma closeOrder_results (l : list P) :
  (λ sp : storer * P, (db_Close sp.2).2)
    <$> imap (λ i sdb, (SnapshotDb i, sdb)) l
  = (λ p, (db_Close p).2) <$> l.
Proof. rewrite fmap_imap. by rewrite <- imap_const. Qed.

Lemma closeOrder_calls (l : list P) :
  (λ sp : storer * P, CallClose sp.1)
    <$> imap (λ i sdb, (SnapshotDb i, sdb)) l
  = imap (λ i _, CallClose (SnapshotDb i)) l.
Proof. by rewrite fmap_imap. Qed.

Lemma Close_run (w : world P H) :
  Close w =
    Done (Errorf "trieStorageManager close failed"
            <$> lastFailure None (closeResults (tsm w)))
         {| tsm := closedManager (tsm w);
            closedChans := closedChans w;
            logged := logged w ++ closeLogs (tsm w);
            called := called w ++ closeCalls (tsm w) |}.
Proof.
  unfold Close, cancelFunc, closerClose, defer.
  unfold closeResults, closeCalls, closeLogs, closedManager, closeOrder.
  rewrite !fmap_cons, !fmap_app, closeOrder_results, closeOrder_calls.
  unfold lastFailure. simpl. rewrite fold_left_app. simpl. run.
  destruct (db_Close (db (tsm w))) as [d' e0]; simpl.
  rewrite (closeSnapshots_run (snapshots (tsm w)) []) by done. simpl.
  destruct (db_Close (mainStorer (tsm w))) as [m' e1]; simpl.
  destruct (db_Close (checkpointsStorer (tsm w))) as [c' e2]; simpl.
  unfold lastFailure.
  destruct e0 as [e0|], e1 as [e1|], e2 as [e2|]; simpl;
    try (destruct (fold_left _ _ _); simpl);
    (f_equal; apply world_eq; simpl;
     rewrite <- ?app_assoc, ?app_nil_r; simpl; rewrite ?app_nil_r; reflexivity).
Qed.

Lemma closeFailures_results (t : trieStorageManager P H) :
  omap id (closeResults t) = closeFailures t.
Proof.
  unfold closeResults, closeFailures.
  induction (closeOrder t) as [|sp l IH]; [done|].
  csimpl. rewrite IH. by destruct (db_Close sp.2).2.
Qed.

Lemma closeOrder_closedManager (t : trieStorageManager P H) :
  closeOrder (closedManager t) =
    (λ sp, (sp.1, (db_Close sp.2).1)) <$> closeOrder t.
Proof.
  unfold closeOrder, closedManager; simpl.
  rewrite fmap_app, imap_fmap, fmap_imap. simpl. done.
Qed.

(** C7, as amended.  [Close] calls [Close] on the legacy storer, on every
    snapshot database in the order of the list, on the main storer and on
    the checkpoints storer, in that order and whatever the earlier closes
    returned; every one of them is closed.  It returns nil when all of them
    succeed; when some fail it returns the error of the last one that
    failed, wrapped; the earlier failures are not part of it. *)
Theorem Close_closes_all_in_order (w : world P H) :
  ∃ r w',
    Close w = Done r w'
    ∧ called w' =
        called w ++ CallCancel
          :: ((λ sp, CallClose sp.1) <$> closeOrder (tsm w)) ++ [CallCloserClose]
    ∧ closeOrder (tsm w') = (λ sp, (sp.1, (db_Close sp.2).1)) <$> closeOrder (tsm w)
    ∧ r = Errorf "trieStorageManager close failed" <$> last (closeFailures (tsm w))
    ∧ (r = None ↔ closeFailures (tsm w) = []).
Proof.
  rewrite Close_run. do 2 eexists. split; [done|].
  split; [done|]. split; [apply closeOrder_closedManager|].
  rewrite lastFailure_last, closeFailures_results.
  destruct (last (closeFailures (tsm w))) as [e|] eqn:Hlast.
  - repeat split; try done. intros Hnil. by rewrite Hnil in Hlast.
  - apply last_None in Hlast. by rewrite Hlast.
Qed.

(** C2, as amended.  [Close] has no guard against a second call: called
    twice, it succeeds twice without a panic and the second call closes the
    legacy storer, every snapshot database, the main storer and the
    checkpoints storer again, so that each of them has been closed twice.
    Only the close signal is one-shot: the first call fires it, the second
    leaves the closer as it is. *)
Theorem Close_twice_closes_twice (w : world P H) :
  ∃ r1 w1 r2 w2,
    Close w = Done r1 w1
    ∧ Close w1 = Done r2 w2
    ∧ called w2 = called w ++ closeCalls (tsm w) ++ closeCalls (tsm w1)
    ∧ (λ sp, CallClose sp.1) <$> closeOrder (tsm w1)
      = (λ sp, CallClose sp.1) <$> closeOrder (tsm w)
    ∧ closeOrder (tsm w2) =
        (λ sp, (sp.1, (db_Close (db_Close sp.2).1).1)) <$> closeOrder (tsm w)
    ∧ signalled (closer (tsm w1)) = true
    ∧ closer (tsm w2) = closer (tsm w1).
Proof.
  rewrite Close_run. do 2 eexists. rewrite Close_run. do 2 eexists.
  split; [done|]. split; [done|]. cbn [tsm called closedChans logged].
  split; [by rewrite app_assoc|].
  split; [by rewrite closeOrder_closedManager, <- list_fmap_compose|].
  split; [by rewrite !closeOrder_closedManager, <- list_fmap_compose|].
  unfold closedManager; cbn [closer set_closer]. unfold SafeCloser_Close.
  by destruct (signalled (closer (tsm w))) eqn:Hs; simpl; rewrite ?Hs.
Qed.

End CloseProperties.

(** ** Discovery of the snapshot databases *)

Section DiscoveryProperties.
Context {P : Type}.
Variable os : OS P.

Lemma StronglySorted_le_NoDup_lt (l : list Z) :
  StronglySorted Z.le l → NoDup l → StronglySorted Z.lt l.
Proof.
  induction 1 as [|x l Hl IH Hx]; intros Hnd; [constructor|].
  apply NoDup_cons in Hnd as [Hnotin Hnd].
  constructor; [by apply IH|].
  apply Forall_forall. intros y Hy.
  rewrite Forall_forall in Hx. specialize (Hx y Hy).
  assert (x ≠ y) by (intros ->; by apply Hnotin).
  lia.
Qed.

Lemma orderedKeys_Permutation (m : gmap Z P) :
  orderedKeys m ≡ₚ fst <$> map_to_list m.
Proof. apply merge_sort_Permutation. Qed.

(** The ids come out strictly increasing. *)
Lemma orderedKeys_sorted (m : gmap Z P) : StronglySorted Z.lt (orderedKeys m).
Proof.
  apply StronglySorted_le_NoDup_lt.
  - apply StronglySorted_merge_sort; apply _.
  - rewrite orderedKeys_Permutation. apply NoDup_fst_map_to_list.
Qed.

Lemma elem_of_orderedKeys (m : gmap Z P) (k : Z) :
  k ∈ orderedKeys m ↔ is_Some (m !! k).
Proof.
  rewrite orderedKeys_Permutation, list_elem_of_fmap. split.
  - intros ([k' sdb] & -> & Hin). apply elem_of_map_to_list in Hin. eauto.
  - intros [sdb Hsdb]. exists (k, sdb). split; [done|].
    by apply elem_of_map_to_list.
Qed.

(** The list of snapshots is the map read off in the order of the ids. *)
Lemma getOrderedSnapshots_aligned (m : gmap Z P) :
  Forall2 (λ id sdb, m !! id = Some sdb) (orderedKeys m) (getOrderedSnapshots m).
Proof.
  unfold getOrderedSnapshots.
  assert (Forall (λ k, is_Some (m !! k)) (orderedKeys m)) as Hall.
  { apply Forall_forall. intros k. apply elem_of_orderedKeys. }
  induction Hall as [|k l [sdb Hk] _ IH]; simpl; [constructor|].
  rewrite Hk. simpl. by constructor.
Qed.

Lemma getOrderedSnapshots_empty : getOrderedSnapshots (∅ : gmap Z P) = [].
Proof.
  pose proof (getOrderedSnapshots_aligned ∅) as Hal.
  destruct Hal as [|k sdb ? ? Hk]; [done|].
  by rewrite lookup_empty in Hk.
Qed.

Lemma idBound_insert (m : gmap Z P) (snapshotId name : Z) (sdb : P) :
  idBound m snapshotId →
  idBound (<[name := sdb]> m)
    (if bool_decide (name > snapshotId) then name else snapshotId).
Proof.
  intros (Hle & Hpos & Hin). unfold idBound.
  case_bool_decide as Hgt; repeat split.
  - intros k. rewrite lookup_insert_is_Some. intros [->|[_ Hk]]; [lia|].
    specialize (Hle k Hk). lia.
  - lia.
  - right. rewrite lookup_insert_is_Some. by left.
  - intros k. rewrite lookup_insert_is_Some. intros [->|[_ Hk]]; [lia|].
    by apply Hle.
  - done.
  - destruct Hin as [->|Hin]; [by left|right].
    rewrite lookup_insert_is_Some.
    destruct (decide (name = snapshotId)); [by left|by right].
Qed.

(** The loop, on every path: the list returned is the scanned map in the
    order of the ids; without an error the id returned is one more than
    [snapshotId] as the loop left it (when the map is not empty), with an
    error it is [snapshotId] itself. *)
Lemma scanFiles_scannedMap (cfg : DBConfig) (files : list FileInfo)
    (m : gmap Z P) (snapshotId : Z) :
  idBound m snapshotId →
  ∃ finalId,
    idBound (scannedMap os cfg files m) finalId
    ∧ (scanFiles os cfg files m snapshotId).1.1
      = getOrderedSnapshots (scannedMap os cfg files m)
    ∧ (scanFiles os cfg files m snapshotId).1.2 =
        match (scanFiles os cfg files m snapshotId).2 with
        | None =>
            if bool_decide (scannedMap os cfg files m = ∅) then finalId
            else int (finalId + 1)
        | Some _ => finalId
        end.
Proof.
  revert m snapshotId. induction files as [|f rest IH]; intros m snapshotId Hinv.
  - exists snapshotId. simpl. split; [done|]. split; [done|].
    destruct (decide (m = ∅)) as [->|Hne].
    + by rewrite map_size_empty.
    + rewrite bool_decide_eq_true_2, bool_decide_eq_false_2; try done.
      by apply map_size_non_empty_iff.
  - simpl. destruct (IsDir f); simpl; [|by apply IH].
    destruct (Atoi (Name f)) as [name|e]; simpl.
    + destruct (storageUnit_NewDB os (newArgDB cfg f)) as [sdb|e]; simpl.
      * apply IH. by apply idBound_insert.
      * by exists snapshotId.
    + by exists snapshotId.
Qed.

Lemma idBound_empty : idBound (∅ : gmap Z P) 0.
Proof.
  repeat split; [|done|by left].
  intros k [sdb Hk]. by rewrite lookup_empty in Hk.
Qed.

(** Discovery, on every path: the snapshots returned are the discovered
    map read off by strictly increasing id, no discovered id is above the
    [snapshotId] the loop reached, and the id returned is that
    [snapshotId], plus one when discovery ends without an error and found
    a snapshot. *)
Lemma getSnapshotsAndSnapshotId_discoveredMap (cfg : DBConfig) :
  ∃ finalId,
    idBound (discoveredMap os cfg) finalId
    ∧ (getSnapshotsAndSnapshotId os cfg).1.1
      = getOrderedSnapshots (discoveredMap os cfg)
    ∧ (getSnapshotsAndSnapshotId os cfg).1.2 =
        match (getSnapshotsAndSnapshotId os cfg).2 with
        | None =>
            if bool_decide (discoveredMap os cfg = ∅) then finalId
            else int (finalId + 1)
        | Some _ => finalId
        end.
Proof.
  unfold getSnapshotsAndSnapshotId, discoveredMap.
  destruct (directoryExists os (FilePath cfg)); simpl.
  - destruct (ioutil_ReadDir os (FilePath cfg)) as [files|e]; simpl.
    + apply scanFiles_scannedMap, idBound_empty.
    + exists 0. split; [apply idBound_empty|done].
  - exists 0. split; [apply idBound_empty|]. by rewrite bool_decide_eq_true_2.
Qed.

Lemma scanFiles_skips_files (cfg : DBConfig) (files : list FileInfo)
    (m : gmap Z P) (snapshotId : Z) :
  scanFiles os cfg files m snapshotId =
    scanFiles os cfg (filter (λ f, IsDir f = true) files) m snapshotId.
Proof.
  revert m snapshotId. induction files as [|f rest IH]; intros m snapshotId; [done|].
  rewrite filter_cons. destruct (decide (IsDir f = true)) as [Hdir|Hdir].
  - simpl. rewrite Hdir. simpl.
    destruct (Atoi (Name f)); [|done].
    by destruct (storageUnit_NewDB os (newArgDB cfg f)).
  - apply not_true_is_false in Hdir. simpl. rewrite Hdir. simpl. apply IH.
Qed.

Lemma scannedMap_mono (cfg : DBConfig) (files : list FileInfo) (m : gmap Z P) (k : Z) :
  is_Some (m !! k) → is_Some (scannedMap os cfg files m !! k).
Proof.
  revert m. induction files as [|f rest IH]; intros m Hk; [done|].
  simpl. destruct (IsDir f); simpl; [|by apply IH].
  destruct (Atoi (Name f)) as [name|]; [|done].
  destruct (storageUnit_NewDB os (newArgDB cfg f)) as [sdb|]; [|done].
  apply IH. rewrite lookup_insert_is_Some.
  destruct (decide (name = k)); [by left|by right].
Qed.

Lemma scanFiles_all_open (cfg : DBConfig) (files : list FileInfo)
    (m : gmap Z P) (snapshotId : Z) :
  (∀ f, f ∈ files → IsDir f = true → opens os cfg f) →
  (scanFiles os cfg files m snapshotId).2 = None
  ∧ ∀ f n, f ∈ files → IsDir f = true → Atoi (Name f) = inl n →
      is_Some (scannedMap os cfg files m !! n).
Proof.
  revert m snapshotId. induction files as [|f rest IH]; intros m snapshotId Hall.
  - split; [done|]. intros f n Hin. by apply elem_of_nil in Hin.
  - assert (∀ f', f' ∈ rest → IsDir f' = true → opens os cfg f') as Hrest.
    { intros f' Hin. apply Hall. by right. }
    simpl. destruct (IsDir f) eqn:Hdir; simpl.
    + destruct (Hall f) as (name & sdb & Hname & Hsdb); [by left|done|].
      rewrite Hname, Hsdb. simpl.
      destruct (IH (<[name := sdb]> m)
                  (if bool_decide (name > snapshotId) then name else snapshotId)
                  Hrest) as [Herr Hids].
      split; [done|]. intros f' n Hin Hdir' Hn.
      apply elem_of_cons in Hin as [->|Hin]; [|by eapply Hids].
      rewrite Hname in Hn. injection Hn as <-.
      apply scannedMap_mono. rewrite lookup_insert_is_Some. by left.
    + destruct (IH m snapshotId Hrest) as [Herr Hids].
      split; [done|]. intros f' n Hin Hdir' Hn.
      apply elem_of_cons in Hin as [->|Hin]; [congruence|by eapply Hids].
Qed.

Lemma scanFiles_abort (cfg : DBConfig) (files : list FileInfo)
    (m : gmap Z P) (snapshotId : Z) (f : FileInfo) :
  f ∈ files → IsDir f = true → ¬ opens os cfg f →
  (scanFiles os cfg files m snapshotId).2 ≠ None.
Proof.
  revert m snapshotId. induction files as [|f' rest IH]; intros m snapshotId Hin Hdir Hbad.
  - by apply elem_of_nil in Hin.
  - simpl. apply elem_of_cons in Hin as [<-|Hin].
    + rewrite Hdir. simpl.
      destruct (Atoi (Name f)) as [name|e] eqn:Hname; [|done].
      destruct (storageUnit_NewDB os (newArgDB cfg f)) as [sdb|e] eqn:Hsdb; [|done].
      destruct Hbad. by exists name, sdb.
    + destruct (IsDir f'); simpl; [|by apply IH].
      destruct (Atoi (Name f')) as [name|e]; [|done].
      destruct (storageUnit_NewDB os (newArgDB cfg f')) as [sdb|e]; [|done].
      by apply IH.
Qed.

Lemma scannedMap_from_directories (cfg : DBConfig) (files : list FileInfo)
    (m : gmap Z P) (n : Z) :
  is_Some (scannedMap os cfg files m !! n) →
  is_Some (m !! n)
  ∨ ∃ f, f ∈ files ∧ IsDir f = true ∧ Atoi (Name f) = inl n ∧ opens os cfg f.
Proof.
  revert m. induction files as [|f rest IH]; intros m Hn; [by left|].
  simpl in Hn. destruct (IsDir f) eqn:Hdir; simpl in Hn.
  - destruct (Atoi (Name f)) as [name|e] eqn:Hname; [|by left].
    destruct (storageUnit_NewDB os (newArgDB cfg f)) as [sdb|e] eqn:Hsdb; [|by left].
    destruct (IH _ Hn) as [Hins|(f' & Hin & Hrest)].
    + apply lookup_insert_is_Some in Hins as [->|[_ Hm]]; [|by left].
      right. exists f. split; [by left|]. repeat split; try done.
      by exists n, sdb.
    + right. exists f'. split; [by right|done].
  - destruct (IH _ Hn) as [Hm|(f' & Hin & Hrest)]; [by left|].
    right. exists f'. split; [by right|done].
Qed.

Lemma scannedMap_lastNumbered (cfg : DBConfig) (files : list FileInfo)
    (m : gmap Z P) (n : Z) :
  (∀ f, f ∈ files → IsDir f = true → opens os cfg f) →
  match lastNumbered n files with
  | Some f =>
      ∃ sdb, storageUnit_NewDB os (newArgDB cfg f) = inl sdb
             ∧ scannedMap os cfg files m !! n = Some sdb
  | None => scannedMap os cfg files m !! n = m !! n
  end.
Proof.
  revert m. unfold lastNumbered.
  induction files as [|f rest IH]; intros m Hall; [done|].
  assert (∀ f', f' ∈ rest → IsDir f' = true → opens os cfg f') as Hrest.
  { intros f' Hin. apply Hall. by right. }
  simpl scannedMap. destruct (IsDir f) eqn:Hdir; simpl negb; cbv iota.
  - destruct (Hall f) as (k & sdb & Hname & Hsdb); [by left|done|].
    rewrite Hname, Hsdb.
    specialize (IH (<[k := sdb]> m) Hrest).
    destruct (decide (k = n)) as [->|Hne].
    + rewrite filter_cons_True by done. rewrite last_cons.
      destruct (last (filter _ rest)) as [f'|]; [done|].
      exists sdb. split; [done|]. by rewrite IH, lookup_insert_eq.
    + rewrite filter_cons_False by (intros [_ Hn]; congruence).
      destruct (last (filter _ rest)) as [f'|]; [done|].
      by rewrite IH, lookup_insert_ne.
  - rewrite filter_cons_False by (intros [Hd _]; congruence).
    by apply IH.
Qed.

(** C9, as amended.  On a snapshot directory that does not exist,
    discovery returns no snapshot, next id 0 and no error.  On a directory
    that exists and is read: the children that are not directories are
    skipped silently; the snapshots returned come from child directories
    whose name parses as an integer and whose database opens; a child
    directory whose name does not parse, or whose database does not open,
    aborts discovery with an error; when the name of every child directory
    parses as an integer, negative ones included, and its database opens,
    there is no error and discovery returns one snapshot for each number
    that is the name of a child directory, by increasing number, the
    snapshot of a number being the database of the child directory read
    last among those whose name parses to it. *)
Theorem snapshot_discovery (cfg : DBConfig) :
  (directoryExists os (FilePath cfg) = false →
   getSnapshotsAndSnapshotId os cfg = ([], 0, None))
  ∧ ∀ files,
      directoryExists os (FilePath cfg) = true →
      ioutil_ReadDir os (FilePath cfg) = inl files →
      getSnapshotsAndSnapshotId os cfg =
        scanFiles os cfg (filter (λ f, IsDir f = true) files) ∅ 0
      ∧ Forall2 (λ id sdb, discoveredMap os cfg !! id = Some sdb)
          (orderedKeys (discoveredMap os cfg))
          (getSnapshotsAndSnapshotId os cfg).1.1
      ∧ (∀ n, n ∈ orderedKeys (discoveredMap os cfg) →
           ∃ f, f ∈ files ∧ IsDir f = true ∧ Atoi (Name f) = inl n ∧ opens os cfg f)
      ∧ ((∀ f, f ∈ files → IsDir f = true → opens os cfg f) →
         (getSnapshotsAndSnapshotId os cfg).2 = None
         ∧ ∃ ids,
             StronglySorted Z.lt ids
             ∧ (∀ n, n ∈ ids ↔
                  ∃ f, f ∈ files ∧ IsDir f = true ∧ Atoi (Name f) = inl n)
             ∧ Forall2
                 (λ n sdb, ∃ f, lastNumbered n files = Some f
                                ∧ storageUnit_NewDB os (newArgDB cfg f) = inl sdb)
                 ids (getSnapshotsAndSnapshotId os cfg).1.1)
      ∧ (∀ f, f ∈ files → IsDir f = true → ¬ opens os cfg f →
         (getSnapshotsAndSnapshotId os cfg).2 ≠ None).
Proof.
  split.
  - intros Hdir. unfold getSnapshotsAndSnapshotId. rewrite Hdir. simpl.
    by rewrite getOrderedSnapshots_empty.
  - intros files Hdir Hread.
    destruct (getSnapshotsAndSnapshotId_discoveredMap cfg) as (finalId & _ & Hsnaps & _).
    rewrite Hsnaps. clear Hsnaps finalId.
    unfold getSnapshotsAndSnapshotId, discoveredMap. rewrite Hdir, Hread. simpl.
    split; [apply scanFiles_skips_files|].
    split; [apply getOrderedSnapshots_aligned|].
    split; [|split].
    + intros n Hn. apply elem_of_orderedKeys in Hn.
      apply scannedMap_from_directories in Hn as [[sdb Hempty]|Hf]; [|done].
      by rewrite lookup_empty in Hempty.
    + intros Hall. destruct (scanFiles_all_open cfg files ∅ 0 Hall) as [Herr _].
      split; [done|].
      exists (orderedKeys (scannedMap os cfg files ∅)).
      split; [apply orderedKeys_sorted|]. split.
      * intros n. rewrite elem_of_orderedKeys.
        pose proof (scannedMap_lastNumbered cfg files ∅ n Hall) as Hlast.
        unfold lastNumbered in Hlast. split.
        -- intros [sdb Hn].
           destruct (last (filter _ files)) as [f|] eqn:Hf.
           ++ apply last_Some_elem_of, list_elem_of_filter in Hf as [[Hd Hname] Hin].
              by exists f.
           ++ by rewrite Hlast, lookup_empty in Hn.
        -- intros (f & Hin & Hd & Hname).
           destruct (last (filter _ files)) as [f'|] eqn:Hf.
           ++ destruct Hlast as (sdb & _ & ->). eauto.
           ++ apply last_None in Hf.
              assert (f ∈ filter (λ f, IsDir f = true ∧ Atoi (Name f) = inl n) files)
                as Hfin by (by apply list_elem_of_filter).
              rewrite Hf in Hfin. by apply elem_of_nil in Hfin.
      * eapply Forall2_impl; [apply getOrderedSnapshots_aligned|].
        intros n sdb Hn. simpl in Hn.
        pose proof (scannedMap_lastNumbered cfg files ∅ n Hall) as Hlast.
        destruct (lastNumbered n files) as [f|].
        -- destruct Hlast as (sdb' & Hopen & Hn'). exists f.
           split; [done|]. congruence.
        -- by rewrite Hlast, lookup_empty in Hn.
    + intros f Hin Hd Hbad. by eapply scanFiles_abort.
Qed.

(** On every path the snapshots returned are sorted by strictly increasing
    id.  When discovery ends without an error and the ids found are not
    negative and below the largest [int], the next id is 0 when no snapshot
    was found and otherwise one more than the largest id found, hence above
    every one of them. *)
Theorem discovery_sorted_and_next_id (cfg : DBConfig) :
  StronglySorted Z.lt (orderedKeys (discoveredMap os cfg))
  ∧ Forall2 (λ id sdb, discoveredMap os cfg !! id = Some sdb)
      (orderedKeys (discoveredMap os cfg))
      (getSnapshotsAndSnapshotId os cfg).1.1
  ∧ ((getSnapshotsAndSnapshotId os cfg).2 = None →
     (∀ k, k ∈ orderedKeys (discoveredMap os cfg) → 0 ≤ k < maxInt) →
     (orderedKeys (discoveredMap os cfg) = [] →
      (getSnapshotsAndSnapshotId os cfg).1.2 = 0)
     ∧ (orderedKeys (discoveredMap os cfg) ≠ [] →
        (getSnapshotsAndSnapshotId os cfg).1.2 - 1 ∈ orderedKeys (discoveredMap os cfg)
        ∧ ∀ k, k ∈ orderedKeys (discoveredMap os cfg) →
            k < (getSnapshotsAndSnapshotId os cfg).1.2)).
Proof.
  destruct (getSnapshotsAndSnapshotId_discoveredMap cfg)
    as (finalId & (Hle & Hpos & Hin) & Hsnaps & Hid).
  split; [apply orderedKeys_sorted|].
  split; [rewrite Hsnaps; apply getOrderedSnapshots_aligned|].
  intros Herr Hrange. rewrite Herr in Hid. rewrite Hid. clear Hid Hsnaps Herr.
  set (m := discoveredMap os cfg) in *.
  split.
  - intros Hnil. rewrite bool_decide_eq_true_2.
    + destruct Hin as [->|Hin]; [done|].
      apply elem_of_orderedKeys in Hin. rewrite Hnil in Hin.
      by apply elem_of_nil in Hin.
    + apply map_eq. intros k. rewrite lookup_empty.
      destruct (m !! k) eqn:Hk; [|done].
      assert (k ∈ orderedKeys m) as Hk' by (apply elem_of_orderedKeys; eauto).
      rewrite Hnil in Hk'. by apply elem_of_nil in Hk'.
  - intros Hne. rewrite bool_decide_eq_false_2.
    + destruct (orderedKeys m) as [|k0 l] eqn:Hkeys; [done|].
      assert (k0 ∈ orderedKeys m) as Hk0 by (rewrite Hkeys; by left).
      rewrite <- Hkeys in *.
      assert (finalId ∈ orderedKeys m) as Hfinal.
      { destruct Hin as [->|Hin]; [|by apply elem_of_orderedKeys].
        pose proof (Hrange k0 Hk0) as Hk0range.
        apply elem_of_orderedKeys in Hk0 as Hk0m.
        specialize (Hle k0 Hk0m).
        by replace 0 with k0 by lia. }
      pose proof (Hrange finalId Hfinal) as Hfrange.
      assert (int (finalId + 1) = finalId + 1) as ->.
      { unfold int, maxInt in *. rewrite Z.mod_small; lia. }
      split; [by replace (finalId + 1 - 1) with finalId by lia|].
      intros k Hk. apply elem_of_orderedKeys in Hk. specialize (Hle k Hk). lia.
    + intros Hempty. apply Hne. rewrite Hempty.
      apply Permutation_nil_r. rewrite orderedKeys_Permutation.
      by rewrite map_to_list_empty.
Qed.

End DiscoveryProperties.

(** * Concrete runs *)

Example Get_prefers_main :
  ∃ w', Get keyX layeredWorld = Done (valA, None) w'
        ∧ called w' = [CallGet MainStorer keyX].
Proof. by eexists. Qed.

Example Get_after_Remove_falls_to_legacy :
  ∃ w1 w2, Remove keyX layeredWorld = Done None w1
           ∧ Get keyX w1 = Done (valB, None) w2.
Proof. by do 2 eexists. Qed.

Example Get_newest_snapshot_first :
  ∃ w',
    Get keyX
      (testWorld
         (testManager (newMemDB "main" []) (newMemDB "legacy" [])
            (newMemDB "checkpoints" [])
            [newMemDB "snap/0" [(keyX, valA)]; newMemDB "snap/1" [(keyX, valB)]]))
    = Done (valB, None) w'
    ∧ called w' =
        [CallGet MainStorer keyX; CallGet LegacyStorer keyX;
         CallGet CheckpointsStorer keyX; CallGet (SnapshotDb 1) keyX].
Proof. by eexists. Qed.

Example Get_missing_key :
  ∃ w',
    Get valC legacyWorld = Done ([], Some ErrKeyNotFound) w'
    ∧ called w' =
        [CallGet MainStorer valC; CallGet LegacyStorer valC;
         CallGet CheckpointsStorer valC; CallGet (SnapshotDb 0) valC].
Proof. by eexists. Qed.

Lemma Get_lookup_order_witness :
  Get keyX legacyWorld =
    Done (valB, None)
         (addCalls [CallGet MainStorer keyX; CallGet LegacyStorer keyX] legacyWorld).
Proof.
  assert (lookupChain (tsm legacyWorld) =
            [(MainStorer, mainStorer (tsm legacyWorld))]
            ++ (LegacyStorer, db (tsm legacyWorld))
               :: drop 2 (lookupChain (tsm legacyWorld))) as Hchain
    by reflexivity.
  assert (Forall (λ sp, (db_Get sp.2 keyX).1 = [])
            [(MainStorer, mainStorer (tsm legacyWorld))]) as Hpre
    by (by repeat constructor).
  assert ((db_Get (db (tsm legacyWorld)) keyX).1 ≠ []) as Hval by discriminate.
  exact (proj1 (proj2 (Get_lookup_order keyX legacyWorld)) _ _ _ _ Hchain Hpre Hval).
Defined.

Lemma Get_value_or_KeyNotFound_witness :
  ∃ w', Get keyX faultyWorld = Done (valA, None) w'.
Proof.
  apply (proj2 (Get_value_or_KeyNotFound keyX faultyWorld)
           [] MainStorer (mainStorer (tsm faultyWorld))
           (tail (lookupChain (tsm faultyWorld))) valA (ErrExternal "disk"));
    [reflexivity | constructor | reflexivity | discriminate].
Defined.

Lemma Put_Get_nonEmpty_witness :
  ∃ err w1 w2,
    Put keyX valA legacyWorld = Done err w1 ∧ Get keyX w1 = Done (valA, None) w2.
Proof.
  apply (Put_Get_nonEmpty keyX valA legacyWorld); [reflexivity | discriminate].
Defined.

(** C3 as stated fails for the empty value: the main storer stores it, and
    [Get] takes it for an absent key and answers from the legacy storer. *)
Lemma Put_Get_empty_value_counterexample :
  (db_Get (db_Put (mainStorer (tsm legacyWorld)) keyX []).1 keyX).1 = []
  ∧ ∃ w1 w2,
      Put keyX [] legacyWorld = Done None w1
      ∧ Get keyX w1 = Done (valB, None) w2
      ∧ valB ≠ [].
Proof. split; [reflexivity|]. by do 2 eexists. Qed.

Lemma pruning_counter_Enter_Exit_witness :
  0 ≤ pruningBlockingOps (tsm legacyWorld) < 2 ^ 32
  ∧ ∃ w2,
      (EnterPruningBufferingMode;; ExitPruningBufferingMode) legacyWorld = Done tt w2
      ∧ pruningBlockingOps (tsm w2) = pruningBlockingOps (tsm legacyWorld).
Proof.
  assert (0 ≤ pruningBlockingOps (tsm legacyWorld) < 2 ^ 32) as Hrange
    by (simpl; lia).
  split; [exact Hrange|].
  destruct (pruning_counter_Enter_Exit legacyWorld Hrange) as (_ & _ & Hpair & _).
  apply Hpair. simpl; lia.
Defined.

(** C6 as stated fails at the largest counter: Enter wraps it to zero and
    Exit then leaves it there. *)
Lemma Enter_Exit_wraps_counterexample :
  pruningBlockingOps (tsm saturatedWorld) = 4294967295
  ∧ ∃ w2,
      (EnterPruningBufferingMode;; ExitPruningBufferingMode) saturatedWorld
        = Done tt w2
      ∧ pruningBlockingOps (tsm w2) = 0.
Proof. split; [reflexivity|]. by eexists. Qed.

Lemma closed_or_empty_trie_turned_away_witness :
  turnedAway (Some 7%nat) closedWorld
    (TakeSnapshot emptyTrieHash CaseSend keyX true (Some 7%nat) closedWorld)
  ∧ turnedAway (Some 7%nat) closedWorld
      (SetCheckpoint emptyTrieHash CaseSend keyX (Some 7%nat) closedWorld).
Proof.
  apply (closed_or_empty_trie_turned_away emptyTrieHash CaseSend keyX true
           (Some 7%nat) closedWorld).
  left. reflexivity.
Defined.

Example TakeSnapshot_empty_trie :
  ∃ w',
    TakeSnapshot emptyTrieHash CaseSend emptyTrieHash true (Some 7%nat) legacyWorld
      = Done tt w'
    ∧ 7%nat ∈ closedChans w'
    ∧ tsm w' = tsm legacyWorld.
Proof.
  eexists. split; [reflexivity|]. simpl. split; [set_solver|done].
Qed.

Example TakeSnapshot_accepted :
  ∃ w',
    TakeSnapshot emptyTrieHash CaseSend keyX true (Some 7%nat) legacyWorld
      = Done tt w'
    ∧ buffered (snapshotReq (tsm w')) = [request]
    ∧ pruningBlockingOps (tsm w') = 1
    ∧ closedChans w' = ∅.
Proof. eexists. split; [vm_compute; reflexivity|]. by vm_compute. Qed.

Lemma worker_completes_every_request_witness :
  completed request (Traversed (Some ErrContextClosing)) servingWorld
    (takeSnapshot (walker := stubWalker (inl tt) (inl tt) (Some ErrContextClosing))
       request tt tt servingWorld)
  ∧ completed request (Traversed (Some ErrContextClosing)) servingWorld
      (takeCheckpoint (walker := stubWalker (inl tt) (inl tt) (Some ErrContextClosing))
         request tt tt servingWorld).
Proof.
  apply (worker_completes_every_request
           (walker := stubWalker (inl tt) (inl tt) (Some ErrContextClosing))
           request tt tt servingWorld).
  - repeat split; intros; reflexivity.
  - simpl; lia.
  - intros c _. apply not_elem_of_empty.
Defined.

(** C8 as stated fails when the counter is at zero by the time the worker
    finishes the request.  A snapshot request is accepted (counter 1), a
    caller of the exported [ExitPruningBufferingMode] takes the counter back
    to zero, and the worker then serves the request with a walk cut short
    by the closing context: the worker does not decrement the counter, and
    it logs an error although the walk ended in [ErrContextClosing]. *)
Lemma worker_zero_counter_counterexample :
  ∃ w1 w2 w3,
    TakeSnapshot emptyTrieHash CaseSend keyX true (Some 7%nat) legacyWorld = Done tt w1
    ∧ pruningBlockingOps (tsm w1) = 1
    ∧ ExitPruningBufferingMode w1 = Done tt w2
    ∧ pruningBlockingOps (tsm w2) = 0
    ∧ doProcessLoopStep
        (walker := stubWalker (inl tt) (inl tt) (Some ErrContextClosing))
        SnapshotRequest tt tt w2 = Done true w3
    ∧ pruningBlockingOps (tsm w3) = 0
    ∧ filter (λ l, l.1 = LogError) (logged w3)
      = [(LogError, "ExitPruningBufferingMode called too many times"%string)]
    ∧ called w3 = [CallHolderRemoveCommitted keyX; CallChanClose 7%nat].
Proof.
  do 3 eexists. split; [vm_compute; reflexivity|]. split; [by vm_compute|].
  split; [vm_compute; reflexivity|]. split; [by vm_compute|].
  split; [vm_compute; reflexivity|]. split; [by vm_compute|].
  split; by vm_compute.
Qed.

Example worker_logs_other_errors :
  ∃ w',
    takeSnapshot (walker := stubWalker (inl tt) (inl tt) (Some (ErrExternal "disk")))
      request tt tt servingWorld = Done tt w'
    ∧ pruningBlockingOps (tsm w') = 0
    ∧ called w' = [CallChanClose 7%nat]
    ∧ filter (λ l, l.1 = LogError) (logged w')
      = [(LogError, "trie storage manager: commit"%string)].
Proof. eexists. split; [vm_compute; reflexivity|]. by vm_compute. Qed.

Example worker_context_closing_is_not_an_error :
  ∃ w',
    takeCheckpoint (walker := stubWalker (inl tt) (inl tt) (Some ErrContextClosing))
      request tt tt servingWorld = Done tt w'
    ∧ pruningBlockingOps (tsm w') = 0
    ∧ called w' = [CallChanClose 7%nat]
    ∧ filter (λ l, l.1 = LogError) (logged w') = [].
Proof. eexists. split; [vm_compute; reflexivity|]. by vm_compute. Qed.

(** C7 as stated fails when two closes fail: the error returned wraps the
    failure of the checkpoints storer, and the failure of the legacy storer
    is not in it. *)
Lemma Close_keeps_only_last_failure_counterexample :
  closeFailures (tsm failingCloseWorld)
    = [ErrExternal "legacy"; ErrExternal "checkpoints"]
  ∧ ∃ w',
      Close failingCloseWorld
        = Done (Some (Errorf "trieStorageManager close failed"
                        (ErrExternal "checkpoints"))) w'
      ∧ ErrExternal "legacy"
          ∉ errorChain (Errorf "trieStorageManager close failed"
                          (ErrExternal "checkpoints")).
Proof.
  split; [reflexivity|]. eexists. split; [vm_compute; reflexivity|].
  intros Hin. simpl in Hin.
  apply elem_of_cons in Hin as [Hin|Hin]; [discriminate|].
  apply elem_of_cons in Hin as [Hin|Hin]; [discriminate|].
  by apply elem_of_nil in Hin.
Qed.

(** C2 as stated fails: after two calls of [Close] every persister has been
    closed twice. *)
Lemma Close_twice_counterexample :
  ∃ r1 w1 r2 w2,
    Close legacyWorld = Done r1 w1
    ∧ Close w1 = Done r2 w2
    ∧ closes (mainStorer (tsm w2)) = 2%nat
    ∧ closes (checkpointsStorer (tsm w2)) = 2%nat
    ∧ closes (db (tsm w2)) = 2%nat
    ∧ closes <$> snapshots (tsm w2) = [2%nat]
    ∧ filter (λ c, c = CallClose MainStorer) (called w2)
      = [CallClose MainStorer; CallClose MainStorer].
Proof.
  do 4 eexists. split; [vm_compute; reflexivity|].
  split; [vm_compute; reflexivity|]. by vm_compute.
Qed.

Lemma snapshot_discovery_witness :
  (getSnapshotsAndSnapshotId mixedOS testCfg).2 = None
  ∧ ∃ ids,
      StronglySorted Z.lt ids
      ∧ (∀ n, n ∈ ids ↔
           ∃ f, f ∈ [dir "05"; dir "-3"; file "LOCK"; dir "5"]
                ∧ IsDir f = true ∧ Atoi (Name f) = inl n)
      ∧ Forall2
          (λ n sdb,
             ∃ f, lastNumbered n [dir "05"; dir "-3"; file "LOCK"; dir "5"] = Some f
                  ∧ storageUnit_NewDB mixedOS (newArgDB testCfg f) = inl sdb)
          ids (getSnapshotsAndSnapshotId mixedOS testCfg).1.1.
Proof.
  destruct (proj2 (snapshot_discovery mixedOS testCfg)
              [dir "05"; dir "-3"; file "LOCK"; dir "5"] eq_refl eq_refl)
    as (_ & _ & _ & Hall & _).
  apply Hall. intros f Hin Hdir.
  repeat (apply elem_of_cons in Hin as [->|Hin];
          [first [discriminate Hdir | eexists _, _; split; reflexivity]|]).
  by apply elem_of_nil in Hin.
Defined.

Example discovery_sorts_by_id :
  getSnapshotsAndSnapshotId tidyOS testCfg
  = ([newMemDB "snap/2" []; newMemDB "snap/7" []; newMemDB "snap/10" []], 11, None).
Proof. by vm_compute. Qed.

Example discovery_without_directory :
  getSnapshotsAndSnapshotId missingOS testCfg = ([], 0, None).
Proof. by vm_compute. Qed.

(** C9 as stated fails at three inputs.  A child directory whose name
    parses as a non-negative integer and whose database does not open does
    not become a snapshot: discovery stops with the error of the opening.
    Of the child directories "05" and "5", whose names both parse as 5, one
    becomes a snapshot, the one read last.  A child directory "-3", whose
    name is not a non-negative integer, does not abort discovery: it
    becomes snapshot -3. *)
Lemma snapshot_discovery_counterexample :
  (Atoi "5" = inl 5
   ∧ getSnapshotsAndSnapshotId brokenOS testCfg
     = ([], 0, Some (ErrExternal "open failed")))
  ∧ (Atoi "05" = inl 5 ∧ Atoi "5" = inl 5
     ∧ getSnapshotsAndSnapshotId repeatedOS testCfg
       = ([newMemDB "snap/5" []], 6, None))
  ∧ (Atoi "-3" = inl (-3)
     ∧ getSnapshotsAndSnapshotId negativeOS testCfg
       = ([newMemDB "snap/-3" []], 1, None)).
Proof. by vm_compute. Qed.

(** C4, at the failing input.  The snapshot directory holds the
    directories "5" and "abc" (read in this order).  Discovery opens
    snapshot 5 and stops at "abc" with an error, returning 5 as the next
    id, which is the id of a snapshot it returned; the constructor logs the
    error and keeps both. *)
Theorem discovery_abort_returns_used_id :
  getSnapshotsAndSnapshotId strayOS testCfg
    = ([newMemDB "snap/5" []], 5, Some ErrSyntax)
  ∧ orderedKeys (discoveredMap strayOS testCfg) = [5]
  ∧ ∃ w,
      NewTrieStorageManager strayOS testArgs = inl w
      ∧ snapshots (tsm w) = [newMemDB "snap/5" []]
      ∧ snapshotId (tsm w) = 5.
Proof.
  split; [by vm_compute|]. split; [by vm_compute|].
  eexists. split; [vm_compute; reflexivity|]. by vm_compute.
Qed.

Lemma discovery_sorted_and_next_id_witness :
  (getSnapshotsAndSnapshotId tidyOS testCfg).1.2 - 1
    ∈ orderedKeys (discoveredMap tidyOS testCfg)
  ∧ ∀ k, k ∈ orderedKeys (discoveredMap tidyOS testCfg) →
      k < (getSnapshotsAndSnapshotId tidyOS testCfg).1.2.
Proof.
  apply (proj2 (proj2 (discovery_sorted_and_next_id tidyOS testCfg))).
  - reflexivity.
  - intros k Hk. vm_compute in Hk.
    repeat (apply elem_of_cons in Hk as [->|Hk]; [by vm_compute|]).
    by apply elem_of_nil in Hk.
  - by vm_compute.
Defined.

(** * Further properties *)

(** ** Put, Remove and the lookup chain *)

Section ForegroundProperties.
Context {P H : Type} `{!DBWriteCacher P} `{!CheckpointHashesHolder H}.

Lemma Put_run (key val : bytes) (w : world P H) :
  Put key val w =
    Done (db_Put (mainStorer (tsm w)) key val).2
      (setTsm (set_mainStorer (db_Put (mainStorer (tsm w)) key val).1 (tsm w))
         (addCalls [CallPut MainStorer key val]
            (addLogs [(LogTrace, "put hash in tsm"%string)] w))).
Proof.
  unfold Put. run. by destruct (db_Put (mainStorer (tsm w)) key val).
Qed.

Lemma Remove_run (hash : bytes) (w : world P H) :
  Remove hash w =
    Done (db_Remove (mainStorer (tsm w)) hash).2
      (setTsm
         (set_mainStorer (db_Remove (mainStorer (tsm w)) hash).1
            (set_checkpointHashesHolder
               (holder_Remove (checkpointHashesHolder (tsm w)) hash) (tsm w)))
         (addCalls [CallHolderRemove hash; CallRemove MainStorer hash] w)).
Proof.
  unfold Remove. run. destruct (db_Remove (mainStorer (tsm w)) hash). simpl.
  f_equal. apply world_eq; simpl; try done. by rewrite <- app_assoc.
Qed.

Lemma lookupChain_cons (t : trieStorageManager P H) :
  lookupChain t = (MainStorer, mainStorer t) :: drop 1 (lookupChain t).
Proof. done. Qed.

Lemma firstNonEmpty_head (key : bytes) (s : storer) (p : P)
    (rest : list (storer * P)) :
  (firstNonEmpty key ((s, p) :: rest)).2 =
    if nonEmpty (db_Get p key).1 then ((db_Get p key).1, None)
    else (firstNonEmpty key rest).2.
Proof.
  simpl. destruct (nonEmpty (db_Get p key).1); [done|].
  by destruct (firstNonEmpty key rest).
Qed.


(** [Remove] takes the hash off the hashes holder and off the main storer
    and hands back the error of the storer as it is.  Once the main storer
    has forgotten the hash, [Get] answers from the layers below: the first
    of legacy storer, checkpoints storer and snapshots (newest first) that
    holds a non-empty value, or [ErrKeyNotFound]. *)
Theorem Remove_then_Get_uses_lower_layers (hash : bytes) (w : world P H) :
  (db_Get (db_Remove (mainStorer (tsm w)) hash).1 hash).1 = [] →
  ∃ w1,
    Remove hash w = Done (db_Remove (mainStorer (tsm w)) hash).2 w1
    ∧ checkpointHashesHolder (tsm w1)
      = holder_Remove (checkpointHashesHolder (tsm w)) hash
    ∧ drop 1 (lookupChain (tsm w1)) = drop 1 (lookupChain (tsm w))
    ∧ returned (Get hash w1)
      = Some (firstNonEmpty hash (drop 1 (lookupChain (tsm w)))).2.
Proof.
  intros Hgone. rewrite Remove_run. eexists. split; [done|].
  do 2 (split; [done|]).
  rewrite Get_firstNonEmpty. cbn [returned]. f_equal.
  rewrite lookupChain_cons, firstNonEmpty_head.
  cbn [tsm setTsm mainStorer set_mainStorer]. by rewrite Hgone.
Qed.

End ForegroundProperties.


Lemma Remove_then_Get_uses_lower_layers_witness :
  ∃ w1,
    Remove keyX layeredWorld = Done None w1
    ∧ returned (Get keyX w1) = Some (valB, None).
Proof.
  destruct (Remove_then_Get_uses_lower_layers keyX layeredWorld)
    as (w1 & Hrem & _ & _ & Hget); [reflexivity|].
  exists w1. split; [exact Hrem | exact Hget].
Defined.

(** ** Nested pruning buffering *)

Section CounterNesting.
Context {P H : Type} `{!DBWriteCacher P} `{!CheckpointHashesHolder H}.

Lemma times_Enter_run (n : nat) (w : world P H) :
  0 ≤ pruningBlockingOps (tsm w) →
  pruningBlockingOps (tsm w) + Z.of_nat n < 2 ^ 32 →
  ∃ w',
    times n EnterPruningBufferingMode w = Done tt w'
    ∧ pruningBlockingOps (tsm w') = pruningBlockingOps (tsm w) + Z.of_nat n
    ∧ errorCount w' = errorCount w.
Proof.
  revert w. induction n as [|n IH]; intros w Hpos Hmax.
  - exists w. split; [done|]. split; [lia|done].
  - cbn [times]. unfold mbind at 1. unfold M_bind.
    rewrite EnterPruningBufferingMode_run.
    destruct (IH (addLogs [(LogTrace, "enter pruning buffering state"%string)]
                    (setTsm (set_pruningBlockingOps
                               (uint32 (pruningBlockingOps (tsm w) + 1)) (tsm w)) w)))
      as (w' & Hrun & Hc & He).
    + simpl. unfold uint32. rewrite Z.mod_small; lia.
    + simpl. unfold uint32. rewrite Z.mod_small; lia.
    + exists w'. split; [done|]. rewrite Hc, He. simpl.
      unfold uint32. rewrite Z.mod_small by lia.
      rewrite errorCount_addLogs, errorCount_setTsm. simpl. split; lia.
Qed.

Lemma times_Exit_run (n : nat) (w : world P H) :
  0 ≤ pruningBlockingOps (tsm w) < 2 ^ 32 →
  ∃ w',
    times n ExitPruningBufferingMode w = Done tt w'
    ∧ pruningBlockingOps (tsm w')
      = Z.max 0 (pruningBlockingOps (tsm w) - Z.of_nat n)
    ∧ errorCount w'
      = (errorCount w
         + Z.to_nat (Z.max 0 (Z.of_nat n - pruningBlockingOps (tsm w))))%nat.
Proof.
  revert w. induction n as [|n IH]; intros w Hrange.
  - exists w. split; [done|]. split; lia.
  - cbn [times]. unfold mbind at 1. unfold M_bind.
    rewrite ExitPruningBufferingMode_run.
    destruct (pruningBlockingOps (tsm w) <? 1) eqn:Hlt.
    + apply Z.ltb_lt in Hlt.
      destruct (IH (addLogs
                      [(LogError,
                        "ExitPruningBufferingMode called too many times"%string)] w))
        as (w' & Hrun & Hc & He); [done|].
      exists w'. split; [done|]. rewrite Hc, He, errorCount_addLogs. simpl.
      split; lia.
    + apply Z.ltb_ge in Hlt.
      destruct (IH (addLogs [(LogTrace, "exit pruning buffering state"%string)]
                      (setTsm (set_pruningBlockingOps
                                 (uint32 (pruningBlockingOps (tsm w) - 1)) (tsm w)) w)))
        as (w' & Hrun & Hc & He).
      { simpl. unfold uint32. rewrite Z.mod_small; lia. }
      exists w'. split; [done|]. rewrite Hc, He. simpl.
      unfold uint32. rewrite Z.mod_small by lia.
      rewrite errorCount_addLogs, errorCount_setTsm. simpl. split; lia.
Qed.

(** [ExitPruningBufferingMode] saturates at zero: [n] calls in a row take
    the counter from [c] to [max 0 (c - n)], and exactly the calls made at
    zero, [max 0 (n - c)] of them, log an error. *)
Theorem Exit_saturates_at_zero (n : nat) (w : world P H) :
  0 ≤ pruningBlockingOps (tsm w) < 2 ^ 32 →
  ∃ w',
    times n ExitPruningBufferingMode w = Done tt w'
    ∧ pruningBlockingOps (tsm w')
      = Z.max 0 (pruningBlockingOps (tsm w) - Z.of_nat n)
    ∧ errorCount w'
      = (errorCount w
         + Z.to_nat (Z.max 0 (Z.of_nat n - pruningBlockingOps (tsm w))))%nat.
Proof. apply times_Exit_run. Qed.

(** Pruning buffering nests: [n] calls of [EnterPruningBufferingMode] that
    do not overflow the counter raise it by [n], so that pruning is blocked
    in between when [n] is not zero, and the [n] calls of
    [ExitPruningBufferingMode] that follow give the counter back without
    logging an error. *)
Theorem Enter_Exit_nest (n : nat) (w : world P H) :
  0 ≤ pruningBlockingOps (tsm w) →
  pruningBlockingOps (tsm w) + Z.of_nat n < 2 ^ 32 →
  ∃ w1 w2,
    times n EnterPruningBufferingMode w = Done tt w1
    ∧ pruningBlockingOps (tsm w1) = pruningBlockingOps (tsm w) + Z.of_nat n
    ∧ (n ≠ 0%nat → returned (IsPruningBlocked w1) = Some true)
    ∧ times n ExitPruningBufferingMode w1 = Done tt w2
    ∧ pruningBlockingOps (tsm w2) = pruningBlockingOps (tsm w)
    ∧ errorCount w2 = errorCount w.
Proof.
  intros Hpos Hmax.
  destruct (times_Enter_run n w Hpos Hmax) as (w1 & Hrun1 & Hc1 & He1).
  destruct (times_Exit_run n w1) as (w2 & Hrun2 & Hc2 & He2); [lia|].
  exists w1, w2. split; [done|]. split; [done|]. split.
  - intros Hn. unfold IsPruningBlocked. run.
    destruct (pruningBlockingOps (tsm w1) =? 0) eqn:Hz; [|done].
    apply Z.eqb_eq in Hz. lia.
  - split; [done|]. rewrite Hc2, He2, Hc1, He1. split; lia.
Qed.

End CounterNesting.

Lemma Exit_saturates_at_zero_witness :
  ∃ w',
    times 3 ExitPruningBufferingMode servingWorld = Done tt w'
    ∧ pruningBlockingOps (tsm w') = 0
    ∧ errorCount w' = 2%nat.
Proof.
  apply (Exit_saturates_at_zero 3 servingWorld). simpl; lia.
Defined.

Lemma Enter_Exit_nest_witness :
  ∃ w1 w2,
    times 2 EnterPruningBufferingMode servingWorld = Done tt w1
    ∧ pruningBlockingOps (tsm w1) = 3
    ∧ (2%nat ≠ 0%nat → returned (IsPruningBlocked w1) = Some true)
    ∧ times 2 ExitPruningBufferingMode w1 = Done tt w2
    ∧ pruningBlockingOps (tsm w2) = 1
    ∧ errorCount w2 = 0%nat.
Proof.
  apply (Enter_Exit_nest 2 servingWorld); simpl; lia.
Defined.

(** ** Submissions that go through, give way or wait *)

Lemma uint32_succ_range (c : Z) :
  0 ≤ c < 2 ^ 32 → 0 ≤ uint32 (c + 1) < 2 ^ 32.
Proof. intros _. unfold uint32. apply Z.mod_pos_bound. lia. Qed.

Lemma uint32_succ (c : Z) :
  0 ≤ c < 2 ^ 32 →
  uint32 (c + 1) = if bool_decide (c = 2 ^ 32 - 1) then 0 else c + 1.
Proof.
  intros Hc. unfold uint32. case_bool_decide as Hmax.
  - rewrite Hmax. by vm_compute.
  - rewrite Z.mod_small; lia.
Qed.

Lemma uint32_round_trip (c : Z) :
  0 ≤ c < 2 ^ 32 →
  Z.max 0 (uint32 (c + 1) - 1) = if bool_decide (c = 2 ^ 32 - 1) then 0 else c.
Proof.
  intros Hc. rewrite uint32_succ by done. case_bool_decide; lia.
Qed.

Section SubmissionProperties.
Context {P H : Type} `{!DBWriteCacher P} `{!CheckpointHashesHolder H}.
Variable EmptyTrieHash : bytes.

Lemma TakeSnapshot_select (pick : selectCase) (rootHash : bytes) (newDb : bool)
    (leavesChan : option chanId) (w : world P H) :
  closed (tsm w) = false → rootHash ≠ EmptyTrieHash →
  TakeSnapshot EmptyTrieHash pick rootHash newDb leavesChan w =
    selectSend pick
      (modifyTsm (λ t, set_snapshotReq
                         (enqueue {| rootHash := rootHash; newDb := newDb;
                                     leavesChan := leavesChan |}
                            (snapshotReq t)) t))
      (ExitPruningBufferingMode;; safelyCloseChan leavesChan)
      snapshotReq (beforeSnapshotSelect rootHash w).
Proof.
  intros Hclosed Hroot. unfold TakeSnapshot, isClosed. run. rewrite Hclosed.
  unfold bytes_Equal. rewrite bool_decide_eq_false_2 by done.
  unfold EnterPruningBufferingMode. run. done.
Qed.

Lemma SetCheckpoint_select (pick : selectCase) (rootHash : bytes)
    (leavesChan : option chanId) (w : world P H) :
  closed (tsm w) = false → rootHash ≠ EmptyTrieHash →
  SetCheckpoint EmptyTrieHash pick rootHash leavesChan w =
    selectSend pick
      (modifyTsm (λ t, set_checkpointReq
                         (enqueue {| rootHash := rootHash; newDb := false;
                                     leavesChan := leavesChan |}
                            (checkpointReq t)) t))
      (ExitPruningBufferingMode;; safelyCloseChan leavesChan)
      checkpointReq (beforeCheckpointSelect w).
Proof.
  intros Hclosed Hroot. unfold SetCheckpoint, isClosed. run. rewrite Hclosed.
  unfold bytes_Equal. rewrite bool_decide_eq_false_2 by done.
  unfold EnterPruningBufferingMode. run. done.
Qed.

Lemma selectSend_send (pick : selectCase) (onSend onClose : M P H unit)
    (queue : trieStorageManager P H → requestChan) (w : world P H) :
  (length (buffered (queue (tsm w))) < capacity (queue (tsm w)))%nat →
  signalled (closer (tsm w)) = false ∨ pick = CaseSend →
  selectSend pick onSend onClose queue w = onSend w.
Proof.
  intros Hroom Hpick. unfold selectSend. run.
  rewrite bool_decide_eq_true_2 by done.
  destruct (signalled (closer (tsm w))); [|done].
  by destruct Hpick as [?| ->].
Qed.

Lemma selectSend_close (pick : selectCase) (onSend onClose : M P H unit)
    (queue : trieStorageManager P H → requestChan) (w : world P H) :
  signalled (closer (tsm w)) = true →
  (capacity (queue (tsm w)) ≤ length (buffered (queue (tsm w))))%nat
  ∨ pick = CaseChanClose →
  selectSend pick onSend onClose queue w = onClose w.
Proof.
  intros Hsig Hpick. unfold selectSend. run. rewrite Hsig.
  case_bool_decide as Hroom; [|done].
  destruct Hpick as [?| ->]; [lia|done].
Qed.

Lemma selectSend_wait (pick : selectCase) (onSend onClose : M P H unit)
    (queue : trieStorageManager P H → requestChan) (w : world P H) :
  (capacity (queue (tsm w)) ≤ length (buffered (queue (tsm w))))%nat →
  signalled (closer (tsm w)) = false →
  selectSend pick onSend onClose queue w = Blocked w.
Proof.
  intros Hfull Hsig. unfold selectSend. run. rewrite Hsig.
  by rewrite bool_decide_eq_false_2 by lia.
Qed.

Lemma safelyCloseChan_run (leavesChan : option chanId) (w : world P H) :
  (∀ c, leavesChan = Some c → c ∉ closedChans w) →
  safelyCloseChan leavesChan w =
    Done tt
      match leavesChan with
      | Some c => addCalls [CallChanClose c] (addClosedChan c w)
      | None => w
      end.
Proof.
  intros Hopen. unfold safelyCloseChan, closeChan.
  destruct leavesChan as [c|]; [|done]. by rewrite decide_False by auto.
Qed.

(** A submission that goes through.  On a manager that is not closed, for
    a root hash other than that of the empty trie, when the queue has room
    and the run time takes the send (it must when the close signal has not
    fired), [TakeSnapshot] puts the request at the end of the snapshot
    queue with its [newDb] flag, adds one to the counter modulo 2^32, tells
    the hashes holder to drop the root hash, and leaves the leaves channel
    open; [SetCheckpoint] does the same on the checkpoint queue, with
    [newDb] false and without touching the holder.  Pruning is then
    blocked, unless the counter stood at the largest [uint32]: it has
    wrapped to zero, and pruning is not blocked although the request is
    queued.  The counter is a [uint32]. *)
Theorem submission_accepted (pick : selectCase) (rootHash : bytes) (newDb : bool)
    (leavesChan : option chanId) (w : world P H) :
  closed (tsm w) = false → rootHash ≠ EmptyTrieHash →
  signalled (closer (tsm w)) = false ∨ pick = CaseSend →
  0 ≤ pruningBlockingOps (tsm w) < 2 ^ 32 →
  ((length (buffered (snapshotReq (tsm w))) < capacity (snapshotReq (tsm w)))%nat →
   ∃ w',
     TakeSnapshot EmptyTrieHash pick rootHash newDb leavesChan w = Done tt w'
     ∧ buffered (snapshotReq (tsm w')) =
         buffered (snapshotReq (tsm w))
         ++ [{| rootHash := rootHash; newDb := newDb; leavesChan := leavesChan |}]
     ∧ checkpointReq (tsm w') = checkpointReq (tsm w)
     ∧ pruningBlockingOps (tsm w')
       = (if bool_decide (pruningBlockingOps (tsm w) = 2 ^ 32 - 1) then 0
          else pruningBlockingOps (tsm w) + 1)
     ∧ returned (IsPruningBlocked w')
       = Some (negb (bool_decide (pruningBlockingOps (tsm w) = 2 ^ 32 - 1)))
     ∧ checkpointHashesHolder (tsm w') =
         holder_RemoveCommitted (checkpointHashesHolder (tsm w)) rootHash
     ∧ closedChans w' = closedChans w)
  ∧ ((length (buffered (checkpointReq (tsm w))) < capacity (checkpointReq (tsm w)))%nat →
     ∃ w',
       SetCheckpoint EmptyTrieHash pick rootHash leavesChan w = Done tt w'
       ∧ buffered (checkpointReq (tsm w')) =
           buffered (checkpointReq (tsm w))
           ++ [{| rootHash := rootHash; newDb := false; leavesChan := leavesChan |}]
       ∧ snapshotReq (tsm w') = snapshotReq (tsm w)
       ∧ pruningBlockingOps (tsm w')
         = (if bool_decide (pruningBlockingOps (tsm w) = 2 ^ 32 - 1) then 0
            else pruningBlockingOps (tsm w) + 1)
       ∧ returned (IsPruningBlocked w')
         = Some (negb (bool_decide (pruningBlockingOps (tsm w) = 2 ^ 32 - 1)))
       ∧ checkpointHashesHolder (tsm w') = checkpointHashesHolder (tsm w)
       ∧ closedChans w' = closedChans w).
Proof.
  intros Hclosed Hroot Hpick Hc.
  pose proof (uint32_succ (pruningBlockingOps (tsm w)) Hc) as Hup.
  split; intros Hroom.
  - rewrite TakeSnapshot_select, selectSend_send by done.
    eexists. split; [done|]. simpl. rewrite Hup.
    do 3 (split; [done|]). split; [|done].
    unfold IsPruningBlocked. run. do 2 f_equal.
    case_bool_decide; [done|]. apply Z.eqb_neq. lia.
  - rewrite SetCheckpoint_select, selectSend_send by done.
    eexists. split; [done|]. simpl. rewrite Hup.
    do 3 (split; [done|]). split; [|done].
    unfold IsPruningBlocked. run. do 2 f_equal.
    case_bool_decide; [done|]. apply Z.eqb_neq. lia.
Qed.

Lemma give_way_run (leavesChan : option chanId) (w : world P H) :
  0 ≤ pruningBlockingOps (tsm w) < 2 ^ 32 →
  (∀ c, leavesChan = Some c → c ∉ closedChans w) →
  ∃ w',
    (ExitPruningBufferingMode;; safelyCloseChan leavesChan) w = Done tt w'
    ∧ snapshotReq (tsm w') = snapshotReq (tsm w)
    ∧ checkpointReq (tsm w') = checkpointReq (tsm w)
    ∧ checkpointHashesHolder (tsm w') = checkpointHashesHolder (tsm w)
    ∧ pruningBlockingOps (tsm w') = Z.max 0 (pruningBlockingOps (tsm w) - 1)
    ∧ closedChans w' =
        match leavesChan with
        | Some c => {[c]} ∪ closedChans w
        | None => closedChans w
        end.
Proof.
  intros Hc Hopen. unfold mbind, M_bind. rewrite ExitPruningBufferingMode_run.
  destruct (pruningBlockingOps (tsm w) <? 1) eqn:Hlt.
  - apply Z.ltb_lt in Hlt. rewrite safelyCloseChan_run by done.
    eexists. split; [done|].
    destruct leavesChan; simpl; (do 3 (split; [done|])); (split; [lia|done]).
  - apply Z.ltb_ge in Hlt. rewrite safelyCloseChan_run by done.
    eexists. split; [done|]. unfold uint32.
    destruct leavesChan; simpl; rewrite Z.mod_small by lia;
      (do 3 (split; [done|])); (split; [lia|done]).
Qed.

(** A submission that gives way to the close signal.  On a manager whose
    [closed] flag is not yet set but whose close signal has fired, when the
    queue is full or the run time takes the signal, [TakeSnapshot] and
    [SetCheckpoint] return with the queues as they were, the leaves channel
    closed, and the counter back at its value before the call; at the
    largest [uint32] the call has wrapped the counter to zero, where it
    stays.  [TakeSnapshot] has by then told the hashes holder to drop the
    root hash.  The counter is a [uint32], the leaves channel is nil or
    open, and the queues are buffered channels: their capacity is not
    zero. *)
Theorem submission_gives_way (pick : selectCase) (rootHash : bytes) (newDb : bool)
    (leavesChan : option chanId) (w : world P H) :
  closed (tsm w) = false → rootHash ≠ EmptyTrieHash →
  signalled (closer (tsm w)) = true →
  0 ≤ pruningBlockingOps (tsm w) < 2 ^ 32 →
  (∀ c, leavesChan = Some c → c ∉ closedChans w) →
  ((0 < capacity (snapshotReq (tsm w)))%nat →
   (capacity (snapshotReq (tsm w)) ≤ length (buffered (snapshotReq (tsm w))))%nat
   ∨ pick = CaseChanClose →
   ∃ w',
     TakeSnapshot EmptyTrieHash pick rootHash newDb leavesChan w = Done tt w'
     ∧ snapshotReq (tsm w') = snapshotReq (tsm w)
     ∧ checkpointReq (tsm w') = checkpointReq (tsm w)
     ∧ pruningBlockingOps (tsm w')
       = (if bool_decide (pruningBlockingOps (tsm w) = 2 ^ 32 - 1) then 0
          else pruningBlockingOps (tsm w))
     ∧ checkpointHashesHolder (tsm w') =
         holder_RemoveCommitted (checkpointHashesHolder (tsm w)) rootHash
     ∧ closedChans w' =
         match leavesChan with
         | Some c => {[c]} ∪ closedChans w
         | None => closedChans w
         end)
  ∧ ((0 < capacity (checkpointReq (tsm w)))%nat →
     (capacity (checkpointReq (tsm w)) ≤ length (buffered (checkpointReq (tsm w))))%nat
     ∨ pick = CaseChanClose →
     ∃ w',
       SetCheckpoint EmptyTrieHash pick rootHash leavesChan w = Done tt w'
       ∧ snapshotReq (tsm w') = snapshotReq (tsm w)
       ∧ checkpointReq (tsm w') = checkpointReq (tsm w)
       ∧ pruningBlockingOps (tsm w')
         = (if bool_decide (pruningBlockingOps (tsm w) = 2 ^ 32 - 1) then 0
            else pruningBlockingOps (tsm w))
       ∧ checkpointHashesHolder (tsm w') = checkpointHashesHolder (tsm w)
       ∧ closedChans w' =
           match leavesChan with
           | Some c => {[c]} ∪ closedChans w
           | None => closedChans w
           end).
Proof.
  intros Hclosed Hroot Hsig Hc Hopen.
  pose proof (uint32_succ_range (pruningBlockingOps (tsm w)) Hc) as Hrange.
  pose proof (uint32_round_trip (pruningBlockingOps (tsm w)) Hc) as Hback.
  split; intros _ Hpick.
  - rewrite TakeSnapshot_select, selectSend_close by done.
    destruct (give_way_run leavesChan (beforeSnapshotSelect rootHash w))
      as (w' & Hrun & HS & HC & Hholder & Hcount & Hchans); [exact Hrange|done|].
    exists w'. split; [done|]. rewrite HS, HC, Hholder, Hcount, Hchans. simpl.
    do 2 (split; [done|]). split; [exact Hback|done].
  - rewrite SetCheckpoint_select, selectSend_close by done.
    destruct (give_way_run leavesChan (beforeCheckpointSelect w))
      as (w' & Hrun & HS & HC & Hholder & Hcount & Hchans); [exact Hrange|done|].
    exists w'. split; [done|]. rewrite HS, HC, Hholder, Hcount, Hchans. simpl.
    do 2 (split; [done|]). split; [exact Hback|done].
Qed.

Lemma safelyCloseChan_outcome (queue : trieStorageManager P H → requestChan)
    (entry : snapshotsQueueEntry) (w w' : world P H) :
  (∀ c, leavesChan entry = Some c → c ∉ closedChans w) →
  queue (tsm w') = queue (tsm w) → closedChans w' = closedChans w →
  submissionOutcome queue entry w (safelyCloseChan (leavesChan entry) w').
Proof.
  intros Hopen Hqueue Hchans.
  rewrite safelyCloseChan_run by (intros c Hc; rewrite Hchans; auto).
  simpl. right. destruct (leavesChan entry); simpl; by rewrite Hqueue, Hchans.
Qed.

Lemma selectSend_outcome (pick : selectCase)
    (queue : trieStorageManager P H → requestChan)
    (update : requestChan → trieStorageManager P H → trieStorageManager P H)
    (entry : snapshotsQueueEntry) (w w2 : world P H) :
  (∀ q t, queue (update q t) = q) →
  (∀ x t, queue (set_pruningBlockingOps x t) = queue t) →
  (∀ c, leavesChan entry = Some c → c ∉ closedChans w) →
  queue (tsm w2) = queue (tsm w) → closedChans w2 = closedChans w →
  signalled (closer (tsm w2)) = signalled (closer (tsm w)) →
  submissionOutcome queue entry w
    (selectSend pick
       (modifyTsm (λ t, update (enqueue entry (queue t)) t))
       (ExitPruningBufferingMode;; safelyCloseChan (leavesChan entry))
       queue w2).
Proof.
  intros Hupdate Hcounter Hopen Hqueue Hchans Hsig.
  destruct (decide (length (buffered (queue (tsm w2)))
                    < capacity (queue (tsm w2)))%nat) as [Hroom|Hfull].
  - destruct (signalled (closer (tsm w2))) eqn:Hs2.
    + destruct pick.
      * rewrite selectSend_send by auto. simpl. left.
        by rewrite Hupdate, Hqueue, Hchans.
      * rewrite selectSend_close by auto.
        unfold mbind, M_bind. rewrite ExitPruningBufferingMode_run.
        destruct (pruningBlockingOps (tsm w2) <? 1);
          apply safelyCloseChan_outcome; simpl; try done.
        by rewrite Hcounter.
    + rewrite selectSend_send by auto. simpl. left.
      by rewrite Hupdate, Hqueue, Hchans.
  - destruct (signalled (closer (tsm w2))) eqn:Hs2.
    + rewrite selectSend_close by (auto; left; lia).
      unfold mbind, M_bind. rewrite ExitPruningBufferingMode_run.
      destruct (pruningBlockingOps (tsm w2) <? 1);
        apply safelyCloseChan_outcome; simpl; try done.
      by rewrite Hcounter.
    + rewrite selectSend_wait by (done || lia). simpl.
      rewrite <- Hqueue, <- Hsig. repeat split; try done. lia.
Qed.

(** The ways a submission can end.  Whatever the state of the manager and
    whatever the run time picks, a [TakeSnapshot] or a [SetCheckpoint]
    whose leaves channel is nil or open does not panic, and it ends in one
    of three ways: it returns with the request at the end of its queue and
    the leaves channel untouched; it returns with the queue as it was and
    the leaves channel closed; or it waits, at a full queue while the close
    signal has not fired, queue and channel as they were.  Nothing is said
    of what becomes of a request once it is in the queue: a request can be
    put there after the close signal has fired.  The queues are buffered
    channels: their capacity is not zero. *)
Theorem submission_outcomes (pick : selectCase) (rootHash : bytes)
    (newDb : bool) (leavesChan : option chanId) (w : world P H) :
  (0 < capacity (snapshotReq (tsm w)))%nat →
  (0 < capacity (checkpointReq (tsm w)))%nat →
  (∀ c, leavesChan = Some c → c ∉ closedChans w) →
  submissionOutcome snapshotReq
    {| rootHash := rootHash; newDb := newDb; leavesChan := leavesChan |} w
    (TakeSnapshot EmptyTrieHash pick rootHash newDb leavesChan w)
  ∧ submissionOutcome checkpointReq
      {| rootHash := rootHash; newDb := false; leavesChan := leavesChan |} w
      (SetCheckpoint EmptyTrieHash pick rootHash leavesChan w).
Proof.
  intros _ _ Hopen.
  destruct (closed (tsm w)) eqn:Hclosed.
  { unfold TakeSnapshot, SetCheckpoint, isClosed. run. rewrite Hclosed.
    split;
      by apply (safelyCloseChan_outcome _
                  {| rootHash := rootHash; newDb := _; leavesChan := leavesChan |}). }
  destruct (decide (rootHash = EmptyTrieHash)) as [Hroot|Hroot].
  { unfold TakeSnapshot, SetCheckpoint, isClosed, bytes_Equal. run.
    rewrite Hclosed, bool_decide_eq_true_2 by done.
    split;
      by apply (safelyCloseChan_outcome _
                  {| rootHash := rootHash; newDb := _; leavesChan := leavesChan |}). }
  split.
  - rewrite TakeSnapshot_select by done.
    by apply (selectSend_outcome pick snapshotReq set_snapshotReq
                {| rootHash := rootHash; newDb := newDb; leavesChan := leavesChan |}).
  - rewrite SetCheckpoint_select by done.
    by apply (selectSend_outcome pick checkpointReq set_checkpointReq
                {| rootHash := rootHash; newDb := false; leavesChan := leavesChan |}).
Qed.

End SubmissionProperties.

Lemma submission_accepted_witness :
  ∃ w',
    TakeSnapshot emptyTrieHash CaseSend keyX true (Some 7%nat) legacyWorld = Done tt w'
    ∧ buffered (snapshotReq (tsm w')) = [request]
    ∧ checkpointReq (tsm w') = checkpointReq (tsm legacyWorld)
    ∧ pruningBlockingOps (tsm w') = 1
    ∧ returned (IsPruningBlocked w') = Some true
    ∧ checkpointHashesHolder (tsm w') =
        holder_RemoveCommitted (checkpointHashesHolder (tsm legacyWorld)) keyX
    ∧ closedChans w' = closedChans legacyWorld.
Proof.
  apply (proj1 (submission_accepted emptyTrieHash CaseSend keyX true (Some 7%nat)
                  legacyWorld eq_refl ltac:(discriminate) (or_introl eq_refl)
                  ltac:(simpl; lia))).
  simpl; lia.
Defined.

(** At the largest [uint32] an accepted request leaves pruning unblocked. *)
Example submission_accepted_at_largest_counter :
  ∃ w',
    TakeSnapshot emptyTrieHash CaseSend keyX true (Some 7%nat) saturatedWorld
    = Done tt w'
    ∧ buffered (snapshotReq (tsm w')) = [request]
    ∧ pruningBlockingOps (tsm w') = 0
    ∧ returned (IsPruningBlocked w') = Some false.
Proof. eexists. split; [vm_compute; reflexivity|]. by vm_compute. Qed.

Lemma submission_gives_way_witness :
  ∃ w',
    SetCheckpoint emptyTrieHash CaseChanClose keyX (Some 7%nat) closingWorld = Done tt w'
    ∧ snapshotReq (tsm w') = snapshotReq (tsm closingWorld)
    ∧ checkpointReq (tsm w') = checkpointReq (tsm closingWorld)
    ∧ pruningBlockingOps (tsm w') = 0
    ∧ checkpointHashesHolder (tsm w') = checkpointHashesHolder (tsm closingWorld)
    ∧ closedChans w' = {[7%nat]} ∪ closedChans closingWorld.
Proof.
  apply (proj2 (submission_gives_way emptyTrieHash CaseChanClose keyX true (Some 7%nat)
                  closingWorld eq_refl ltac:(discriminate) eq_refl
                  ltac:(simpl; lia)
                  ltac:(intros c _; apply not_elem_of_empty))).
  - simpl; lia.
  - by right.
Defined.

Lemma submission_outcomes_witness :
  submissionOutcome snapshotReq request legacyWorld
    (TakeSnapshot emptyTrieHash CaseSend keyX true (Some 7%nat) legacyWorld)
  ∧ submissionOutcome checkpointReq
      {| rootHash := keyX; newDb := false; leavesChan := Some 7%nat |} legacyWorld
      (SetCheckpoint emptyTrieHash CaseSend keyX (Some 7%nat) legacyWorld).
Proof.
  apply (submission_outcomes emptyTrieHash CaseSend keyX true (Some 7%nat)
           legacyWorld).
  - simpl; lia.
  - simpl; lia.
  - intros c _. apply not_elem_of_empty.
Defined.

(** ** Draining the queues *)

Section CleanupProperties.
Context {P H : Type} `{!DBWriteCacher P} `{!CheckpointHashesHolder H}.

Lemma finishOperation_saturating (entry : snapshotsQueueEntry) (message : string)
    (w : world P H) :
  0 ≤ pruningBlockingOps (tsm w) < 2 ^ 32 →
  (∀ c, leavesChan entry = Some c → c ∉ closedChans w) →
  ∃ w',
    finishOperation entry message w = Done tt w'
    ∧ pruningBlockingOps (tsm w') = Z.max 0 (pruningBlockingOps (tsm w) - 1)
    ∧ snapshotReq (tsm w') = snapshotReq (tsm w)
    ∧ checkpointReq (tsm w') = checkpointReq (tsm w)
    ∧ closer (tsm w') = closer (tsm w)
    ∧ closedChans w' =
        match leavesChan entry with
        | Some c => {[c]} ∪ closedChans w
        | None => closedChans w
        end.
Proof.
  intros Hc Hopen. unfold finishOperation.
  unfold mbind at 1. unfold M_bind. rewrite ExitPruningBufferingMode_run.
  destruct (pruningBlockingOps (tsm w) <? 1) eqn:Hlt.
  - apply Z.ltb_lt in Hlt. run. rewrite safelyCloseChan_run by done.
    eexists. split; [done|]. destruct (leavesChan entry); simpl;
      (split; [lia|done]).
  - apply Z.ltb_ge in Hlt. run. rewrite safelyCloseChan_run by done.
    eexists. split; [done|]. unfold uint32.
    destruct (leavesChan entry); simpl; rewrite Z.mod_small by lia;
      (split; [lia|done]).
Qed.

Lemma pendingChans_cons (e : snapshotsQueueEntry) (l : list snapshotsQueueEntry) :
  omap leavesChan (e :: l) = option_list (leavesChan e) ++ omap leavesChan l.
Proof. simpl. by destruct (leavesChan e). Qed.

Lemma drain_snapshot_entry (entry : snapshotsQueueEntry)
    (rest : list snapshotsQueueEntry) (message : string) (w : world P H) :
  0 ≤ pruningBlockingOps (tsm w) < 2 ^ 32 →
  buffered (snapshotReq (tsm w)) = entry :: rest →
  (∀ c, c ∈ pendingChans (tsm w) → c ∉ closedChans w) →
  ∃ w',
    (modifyTsm (set_snapshotReq
                  {| buffered := rest; capacity := capacity (snapshotReq (tsm w)) |});;
     finishOperation entry message;; mret true) w = Done true w'
    ∧ tookOne entry w w'.
Proof.
  intros Hc Hqueue Hopen. run.
  destruct (finishOperation_saturating entry message
              (setTsm (set_snapshotReq
                         {| buffered := rest;
                            capacity := capacity (snapshotReq (tsm w)) |} (tsm w)) w))
    as (w' & Hrun & Hc' & HS & HC & Hcl & Hchans); [done| |].
  { intros c Hentry. simpl. apply Hopen. unfold pendingChans, pendingEntries.
    rewrite Hqueue. simpl. rewrite Hentry. by left. }
  rewrite Hrun. exists w'. split; [done|]. simpl in Hc', HS, HC, Hcl, Hchans.
  unfold tookOne, pendingChans, pendingEntries.
  rewrite HS, HC, Hc', Hcl, Hchans, Hqueue. simpl.
  repeat split; try done. destruct (leavesChan entry); reflexivity.
Qed.

Lemma drain_checkpoint_entry (entry : snapshotsQueueEntry)
    (rest : list snapshotsQueueEntry) (message : string) (w : world P H) :
  0 ≤ pruningBlockingOps (tsm w) < 2 ^ 32 →
  buffered (checkpointReq (tsm w)) = entry :: rest →
  (∀ c, c ∈ pendingChans (tsm w) → c ∉ closedChans w) →
  ∃ w',
    (modifyTsm (set_checkpointReq
                  {| buffered := rest; capacity := capacity (checkpointReq (tsm w)) |});;
     finishOperation entry message;; mret true) w = Done true w'
    ∧ tookOne entry w w'.
Proof.
  intros Hc Hqueue Hopen. run.
  destruct (finishOperation_saturating entry message
              (setTsm (set_checkpointReq
                         {| buffered := rest;
                            capacity := capacity (checkpointReq (tsm w)) |} (tsm w)) w))
    as (w' & Hrun & Hc' & HS & HC & Hcl & Hchans); [done| |].
  { intros c Hentry. simpl. apply Hopen. unfold pendingChans, pendingEntries.
    rewrite Hqueue, omap_app, pendingChans_cons, Hentry.
    apply elem_of_app. right. by left. }
  rewrite Hrun. exists w'. split; [done|]. simpl in Hc', HS, HC, Hcl, Hchans.
  unfold tookOne, pendingChans, pendingEntries.
  rewrite HS, HC, Hc', Hcl, Hchans, Hqueue. simpl.
  rewrite !length_app, !omap_app, pendingChans_cons. simpl.
  repeat split; try done; try lia.
  apply Permutation_app_swap_app.
Qed.

Lemma cleanupTurn_takes_one (pick : cleanupCase) (w : world P H) :
  0 ≤ pruningBlockingOps (tsm w) < 2 ^ 32 →
  pendingEntries (tsm w) ≠ [] →
  (∀ c, c ∈ pendingChans (tsm w) → c ∉ closedChans w) →
  ∃ entry w', cleanupTurn pick w = Done true w' ∧ tookOne entry w w'.
Proof.
  intros Hc Hne Hopen. unfold cleanupTurn. unfold mbind at 1. unfold M_bind, getTsm.
  unfold pendingEntries in Hne.
  destruct (buffered (snapshotReq (tsm w))) as [|eS rS] eqn:HS,
           (buffered (checkpointReq (tsm w))) as [|eC rC] eqn:HC.
  - done.
  - exists eC. by apply drain_checkpoint_entry.
  - exists eS. by apply drain_snapshot_entry.
  - destruct pick.
    + exists eS. by apply drain_snapshot_entry.
    + exists eC. by apply drain_checkpoint_entry.
Qed.

Lemma cleanupTurn_empty (pick : cleanupCase) (w : world P H) :
  pendingEntries (tsm w) = [] →
  cleanupTurn pick w =
    Done false
      (addLogs [(LogDebug, "finished trieStorageManager.cleanupChans"%string)] w).
Proof.
  unfold pendingEntries. intros Hnil. apply app_eq_nil in Hnil as [HS HC].
  unfold cleanupTurn. run. by rewrite HS, HC.
Qed.

Lemma cleanupLoop_drains (picks : nat → cleanupCase) (n turn : nat) (w : world P H) :
  length (pendingEntries (tsm w)) = n →
  0 ≤ pruningBlockingOps (tsm w) < 2 ^ 32 →
  NoDup (pendingChans (tsm w)) →
  (∀ c, c ∈ pendingChans (tsm w) → c ∉ closedChans w) →
  ∃ w',
    cleanupLoop picks turn n w = Done tt w'
    ∧ pendingEntries (tsm w') = []
    ∧ pruningBlockingOps (tsm w')
      = Z.max 0 (pruningBlockingOps (tsm w) - Z.of_nat n)
    ∧ closer (tsm w') = closer (tsm w)
    ∧ ∀ c, c ∈ closedChans w' ↔ c ∈ pendingChans (tsm w) ∨ c ∈ closedChans w.
Proof.
  revert turn w. induction n as [|n IH]; intros turn w Hlen Hc Hnodup Hopen.
  - apply nil_length_inv in Hlen.
    cbn [cleanupLoop]. unfold mbind, M_bind. rewrite cleanupTurn_empty by done.
    eexists. split; [done|]. simpl. split; [done|]. split; [lia|]. split; [done|].
    intros c. unfold pendingChans. rewrite Hlen. simpl.
    rewrite elem_of_nil. tauto.
  - destruct (cleanupTurn_takes_one (picks turn) w Hc) as
      (entry & w1 & Hturn & Hlen1 & Hperm & Hc1 & Hcl1 & Hchans1); [|done|].
    { intros Hnil. by rewrite Hnil in Hlen. }
    rewrite Hperm in Hnodup. apply NoDup_app in Hnodup as (_ & Hfresh & Hnodup1).
    destruct (IH (S turn) w1) as (w' & Hrun & Hnil & Hc' & Hcl' & Hchans').
    + lia.
    + lia.
    + done.
    + intros c Hin Hclosed. rewrite Hchans1 in Hclosed.
      assert (c ∉ closedChans w) as Hout.
      { apply Hopen. rewrite Hperm. apply elem_of_app. by right. }
      destruct (leavesChan entry) as [ce|]; [|done].
      apply elem_of_union in Hclosed as [Hce|]; [|done].
      apply elem_of_singleton in Hce as ->.
      apply (Hfresh ce); [by left|done].
    + exists w'. cbn [cleanupLoop]. unfold mbind, M_bind. rewrite Hturn.
      split; [done|]. split; [done|]. split; [lia|]. split; [congruence|].
      intros c. rewrite Hchans', Hchans1, Hperm, elem_of_app.
      destruct (leavesChan entry) as [ce|]; simpl.
      * rewrite elem_of_union, elem_of_singleton, list_elem_of_singleton. tauto.
      * rewrite elem_of_nil. tauto.
Qed.

(** [cleanupChans] waits for the close signal.  Once it has fired, and
    whatever queue the run time reads first, the drain returns with both
    queues empty, having closed the leaves channel of every pending request
    and no other, and having taken one off the counter for each of them,
    down to zero at most.  The pending requests have leaves channels that
    are open and differ from one another. *)
Theorem cleanupChans_drains (picks : nat → cleanupCase) (w : world P H) :
  (signalled (closer (tsm w)) = false → cleanupChans picks w = Blocked w)
  ∧ (signalled (closer (tsm w)) = true →
     0 ≤ pruningBlockingOps (tsm w) < 2 ^ 32 →
     NoDup (pendingChans (tsm w)) →
     (∀ c, c ∈ pendingChans (tsm w) → c ∉ closedChans w) →
     ∃ w',
       cleanupChans picks w = Done tt w'
       ∧ buffered (snapshotReq (tsm w')) = []
       ∧ buffered (checkpointReq (tsm w')) = []
       ∧ pruningBlockingOps (tsm w')
         = Z.max 0 (pruningBlockingOps (tsm w)
                    - Z.of_nat (length (pendingEntries (tsm w))))
       ∧ ∀ c, c ∈ closedChans w' ↔ c ∈ pendingChans (tsm w) ∨ c ∈ closedChans w).
Proof.
  split.
  - intros Hsig. unfold cleanupChans. run. by rewrite Hsig.
  - intros Hsig Hc Hnodup Hopen. unfold cleanupChans. run. rewrite Hsig.
    destruct (cleanupLoop_drains picks (length (pendingEntries (tsm w))) 0 w)
      as (w' & Hrun & Hnil & Hc' & _ & Hchans); try done.
    unfold pendingEntries in Hrun at 1. rewrite length_app in Hrun.
    exists w'. split; [done|].
    unfold pendingEntries in Hnil. apply app_eq_nil in Hnil as [HS HC].
    by rewrite HS, HC.
Qed.

End CleanupProperties.

Lemma cleanupChans_drains_witness :
  ∃ w',
    cleanupChans (λ _, CheckpointEntry) drainingWorld = Done tt w'
    ∧ buffered (snapshotReq (tsm w')) = []
    ∧ buffered (checkpointReq (tsm w')) = []
    ∧ pruningBlockingOps (tsm w') = 0
    ∧ ∀ c, c ∈ closedChans w' ↔ c ∈ [7; 8; 9]%nat ∨ c ∈ closedChans drainingWorld.
Proof.
  apply (proj2 (cleanupChans_drains (λ _, CheckpointEntry) drainingWorld)).
  - reflexivity.
  - simpl; lia.
  - refine (bool_decide_unpack (NoDup (pendingChans (tsm drainingWorld))) _).
    by vm_compute.
  - intros c _. apply not_elem_of_empty.
Defined.

(** ** From submission to shutdown *)

Section LifecycleProperties.
Context {P H : Type} `{!DBWriteCacher P} `{!CheckpointHashesHolder H}.
Context {walker : @NodeWalker P H}.
Variable EmptyTrieHash : bytes.

Ltac finished :=
  apply finish_completed; simpl;
  repeat (rewrite errorCount_addLogs || rewrite errorCount_setTsm); simpl;
  first [done | lia].

Lemma takeSnapshot_completes (entry : snapshotsQueueEntry)
    (msh : marshalizer) (hsh : hasher) (w : world P H) :
  walkKeepsCounter →
  0 ≤ pruningBlockingOps (tsm w) < 2 ^ 32 →
  (∀ c, leavesChan entry = Some c → c ∉ closedChans w) →
  completed entry (snapshotResult (tsm w) entry msh hsh) w
    (takeSnapshot entry msh hsh w).
Proof.
  intros (Hview & Hsnap & Hcheck) Hc Hopen.
  unfold takeSnapshot, defer, newSnapshotNode, snapshotResult. run.
  destruct (getNodeFromDBAndDecode (rootHash entry) (tsm w) msh hsh)
    as [newRoot|e]; simpl; [|finished].
  specialize (Hview (tsm w)).
  destruct (newSnapshotTrieStorageManager (tsm w)) as [t1 [stsm|e]];
    simpl in *; [|finished].
  specialize (Hsnap newRoot stsm (leavesChan entry) t1).
  destruct (commitSnapshot newRoot stsm (leavesChan entry) t1)
    as [t2 [e|]]; simpl in *; [destruct e; simpl|]; finished.
Qed.

Lemma takeCheckpoint_completes (entry : snapshotsQueueEntry)
    (msh : marshalizer) (hsh : hasher) (w : world P H) :
  walkKeepsCounter →
  0 ≤ pruningBlockingOps (tsm w) < 2 ^ 32 →
  (∀ c, leavesChan entry = Some c → c ∉ closedChans w) →
  completed entry (checkpointResult (tsm w) entry msh hsh) w
    (takeCheckpoint entry msh hsh w).
Proof.
  intros (Hview & Hsnap & Hcheck) Hc Hopen.
  unfold takeCheckpoint, defer, newSnapshotNode, checkpointResult. run.
  destruct (getNodeFromDBAndDecode (rootHash entry) (tsm w) msh hsh)
    as [newRoot|e]; simpl; [|finished].
  specialize (Hcheck newRoot (leavesChan entry) (tsm w)).
  destruct (commitCheckpoint newRoot (leavesChan entry) (tsm w))
    as [t1 [e|]]; simpl in *; [destruct e; simpl|]; finished.
Qed.

Lemma serve_snapshot_request (entry : snapshotsQueueEntry)
    (rest : list snapshotsQueueEntry)
    (msh : marshalizer) (hsh : hasher) (w : world P H) :
  walkKeepsCounter →
  buffered (snapshotReq (tsm w)) = entry :: rest →
  0 ≤ pruningBlockingOps (tsm w) < 2 ^ 32 →
  (∀ c, leavesChan entry = Some c → c ∉ closedChans w) →
  ∃ w', doProcessLoopStep SnapshotRequest msh hsh w = Done true w'
    ∧ pruningBlockingOps (tsm w') = Z.max 0 (pruningBlockingOps (tsm w) - 1)
    ∧ closedChans w' =
        match leavesChan entry with
        | Some c => {[c]} ∪ closedChans w
        | None => closedChans w
        end.
Proof.
  intros Hwalk Hqueue Hc Hopen.
  unfold doProcessLoopStep. run. rewrite Hqueue. run.
  match goal with
  | |- context [takeSnapshot entry msh hsh ?w1] =>
      destruct (takeSnapshot_completes entry msh hsh w1 Hwalk)
        as (w2 & Hrun & Hc2 & _ & Hchans & _); [done | done |]
  end.
  rewrite Hrun. by exists w2.
Qed.

Lemma serve_checkpoint_request (entry : snapshotsQueueEntry)
    (rest : list snapshotsQueueEntry)
    (msh : marshalizer) (hsh : hasher) (w : world P H) :
  walkKeepsCounter →
  buffered (checkpointReq (tsm w)) = entry :: rest →
  0 ≤ pruningBlockingOps (tsm w) < 2 ^ 32 →
  (∀ c, leavesChan entry = Some c → c ∉ closedChans w) →
  ∃ w', doProcessLoopStep CheckpointRequest msh hsh w = Done true w'
    ∧ pruningBlockingOps (tsm w') = Z.max 0 (pruningBlockingOps (tsm w) - 1)
    ∧ closedChans w' =
        match leavesChan entry with
        | Some c => {[c]} ∪ closedChans w
        | None => closedChans w
        end.
Proof.
  intros Hwalk Hqueue Hc Hopen.
  unfold doProcessLoopStep. run. rewrite Hqueue. run.
  match goal with
  | |- context [takeCheckpoint entry msh hsh ?w1] =>
      destruct (takeCheckpoint_completes entry msh hsh w1 Hwalk)
        as (w2 & Hrun & Hc2 & _ & Hchans & _); [done | done |]
  end.
  rewrite Hrun. by exists w2.
Qed.

(** From submission to completion.  A snapshot request submitted to a
    manager with an empty snapshot queue, and then served by the worker,
    leaves the leaves channel closed and the pruning-block counter where it
    was before the submission; at the largest [uint32] the submission wraps
    the counter to zero, where the worker leaves it.  The same holds for a
    checkpoint request on the checkpoint queue.  The manager is not closed,
    the root hash is not that of the empty trie, the select takes the send,
    the queue is a buffered channel, the leaves channel is open, and the
    node walk does not touch the counter. *)
Theorem submit_then_serve (pick : selectCase) (rootHash : bytes) (newDb : bool)
    (ch : chanId) (msh : marshalizer) (hsh : hasher) (w : world P H) :
  walkKeepsCounter →
  closed (tsm w) = false → rootHash ≠ EmptyTrieHash →
  signalled (closer (tsm w)) = false ∨ pick = CaseSend →
  0 ≤ pruningBlockingOps (tsm w) < 2 ^ 32 →
  ch ∉ closedChans w →
  (buffered (snapshotReq (tsm w)) = [] → (0 < capacity (snapshotReq (tsm w)))%nat →
   ∃ w1 w2,
     TakeSnapshot EmptyTrieHash pick rootHash newDb (Some ch) w = Done tt w1
     ∧ doProcessLoopStep SnapshotRequest msh hsh w1 = Done true w2
     ∧ pruningBlockingOps (tsm w2)
       = (if bool_decide (pruningBlockingOps (tsm w) = 2 ^ 32 - 1) then 0
          else pruningBlockingOps (tsm w))
     ∧ closedChans w2 = {[ch]} ∪ closedChans w)
  ∧ (buffered (checkpointReq (tsm w)) = [] → (0 < capacity (checkpointReq (tsm w)))%nat →
     ∃ w1 w2,
       SetCheckpoint EmptyTrieHash pick rootHash (Some ch) w = Done tt w1
       ∧ doProcessLoopStep CheckpointRequest msh hsh w1 = Done true w2
       ∧ pruningBlockingOps (tsm w2)
         = (if bool_decide (pruningBlockingOps (tsm w) = 2 ^ 32 - 1) then 0
            else pruningBlockingOps (tsm w))
       ∧ closedChans w2 = {[ch]} ∪ closedChans w).
Proof.
  intros Hwalk Hclosed Hroot Hpick Hc Hopen.
  pose proof (uint32_succ_range (pruningBlockingOps (tsm w)) Hc) as Hrange.
  pose proof (uint32_round_trip (pruningBlockingOps (tsm w)) Hc) as Hback.
  split; intros Hempty Hcap.
  - rewrite TakeSnapshot_select, selectSend_send by (simpl; rewrite ?Hempty; done).
    eexists.
    edestruct (serve_snapshot_request
                 {| rootHash := rootHash; newDb := newDb; leavesChan := Some ch |} []
                 msh hsh) as (w2 & Hrun & Hc2 & Hchans);
      [done | | | | exists w2; split; [by run|]; split; [exact Hrun|]].
    + simpl. by rewrite Hempty.
    + simpl. exact Hrange.
    + simpl. by intros c [= <-].
    + rewrite Hc2, Hchans. simpl. by rewrite Hback.
  - rewrite SetCheckpoint_select, selectSend_send by (simpl; rewrite ?Hempty; done).
    eexists.
    edestruct (serve_checkpoint_request
                 {| rootHash := rootHash; newDb := false; leavesChan := Some ch |} []
                 msh hsh) as (w2 & Hrun & Hc2 & Hchans);
      [done | | | | exists w2; split; [by run|]; split; [exact Hrun|]].
    + simpl. by rewrite Hempty.
    + simpl. exact Hrange.
    + simpl. by intros c [= <-].
    + rewrite Hc2, Hchans. simpl. by rewrite Hback.
Qed.

Lemma closedManager_keeps (t : trieStorageManager P H) :
  snapshotReq (closedManager t) = snapshotReq t
  ∧ checkpointReq (closedManager t) = checkpointReq t
  ∧ pruningBlockingOps (closedManager t) = pruningBlockingOps t
  ∧ checkpointHashesHolder (closedManager t) = checkpointHashesHolder t
  ∧ cancelled (closedManager t) = true
  ∧ closed (closedManager t) = true
  ∧ signalled (closer (closedManager t)) = true.
Proof.
  repeat split; try done. simpl. unfold SafeCloser_Close.
  by destruct (signalled (closer t)) eqn:Hsig.
Qed.

(** Shutdown.  After [Close], a worker that sees the cancelled context
    leaves its loop and drains both queues: it returns with the queues
    empty, having closed the leaves channel of every request that was still
    pending, and no other channel, and having taken one off the counter for
    each of them, down to zero at most.  The pending requests have leaves
    channels that are open and differ from one another. *)
Theorem shutdown_drains_pending (rest : list workerCase) (picks : nat → cleanupCase)
    (msh : marshalizer) (hsh : hasher) (w : world P H) :
  0 ≤ pruningBlockingOps (tsm w) < 2 ^ 32 →
  NoDup (pendingChans (tsm w)) →
  (∀ c, c ∈ pendingChans (tsm w) → c ∉ closedChans w) →
  ∃ err w1 w2,
    Close w = Done err w1
    ∧ doCheckpointsAndSnapshots (CtxDone :: rest) picks msh hsh w1 = Done tt w2
    ∧ buffered (snapshotReq (tsm w2)) = []
    ∧ buffered (checkpointReq (tsm w2)) = []
    ∧ pruningBlockingOps (tsm w2)
      = Z.max 0 (pruningBlockingOps (tsm w)
                 - Z.of_nat (length (pendingEntries (tsm w))))
    ∧ ∀ c, c ∈ closedChans w2 ↔ c ∈ pendingChans (tsm w) ∨ c ∈ closedChans w.
Proof.
  intros Hc Hnodup Hopen. rewrite Close_run.
  destruct (closedManager_keeps (tsm w))
    as (HS & HC & Hcount & _ & Hcancel & _ & Hsig).
  set (w1 := {| tsm := closedManager (tsm w); closedChans := closedChans w;
                logged := logged w ++ closeLogs (tsm w);
                called := called w ++ closeCalls (tsm w) |}).
  set (w1' := addLogs
                [(LogDebug,
                  "trieStorageManager.storageProcessLoop go routine is closing..."%string)]
                w1).
  assert (pendingEntries (tsm w1') = pendingEntries (tsm w)) as Hpending
    by (unfold pendingEntries; simpl; done).
  assert (pendingChans (tsm w1') = pendingChans (tsm w)) as Hchans
    by (unfold pendingChans; by rewrite Hpending).
  destruct (cleanupLoop_drains picks (length (pendingEntries (tsm w1'))) 0 w1')
    as (w2 & Hrun & Hnil & Hc2 & _ & Hclosed).
  { done. }
  { exact Hc. }
  { by rewrite Hchans. }
  { rewrite Hchans. exact Hopen. }
  eexists _, w1, w2. split; [done|]. split.
  { unfold doCheckpointsAndSnapshots. cbn [doProcessLoop].
    unfold doProcessLoopStep, cleanupChans. run.
    simpl in Hsig. rewrite Hsig.
    unfold pendingEntries in Hrun at 1. rewrite length_app in Hrun.
    exact Hrun. }
  unfold pendingEntries in Hnil. apply app_eq_nil in Hnil as [HS2 HC2].
  rewrite HS2, HC2, Hc2, Hpending.
  do 3 (split; [done|]). intros c. by rewrite Hclosed, Hchans.
Qed.

(** After [Close] the manager takes no request: a [TakeSnapshot] or a
    [SetCheckpoint] enqueues nothing, leaves the counter and the hashes
    holder as [Close] found them, and closes the leaves channel it was
    given. *)
Theorem Close_then_submission_turned_away (pick : selectCase)
    (rootHash : bytes) (newDb : bool) (leavesChan : option chanId) (w : world P H) :
  ∃ err w1,
    Close w = Done err w1
    ∧ snapshotReq (tsm w1) = snapshotReq (tsm w)
    ∧ checkpointReq (tsm w1) = checkpointReq (tsm w)
    ∧ pruningBlockingOps (tsm w1) = pruningBlockingOps (tsm w)
    ∧ checkpointHashesHolder (tsm w1) = checkpointHashesHolder (tsm w)
    ∧ turnedAway leavesChan w1
        (TakeSnapshot EmptyTrieHash pick rootHash newDb leavesChan w1)
    ∧ turnedAway leavesChan w1
        (SetCheckpoint EmptyTrieHash pick rootHash leavesChan w1).
Proof.
  rewrite Close_run. do 2 eexists. split; [done|].
  destruct (closedManager_keeps (tsm w))
    as (HS & HC & Hcount & Hholder & _ & Hclosed & _).
  cbn [tsm]. do 4 (split; [done|]).
  unfold TakeSnapshot, SetCheckpoint, isClosed. run.
  split; by apply safelyCloseChan_turnedAway.
Qed.

End LifecycleProperties.

Lemma submit_then_serve_witness :
  ∃ w1 w2,
    TakeSnapshot emptyTrieHash CaseSend keyX true (Some 7%nat) legacyWorld = Done tt w1
    ∧ doProcessLoopStep (walker := stubWalker (inl tt) (inl tt) None)
        SnapshotRequest tt tt w1 = Done true w2
    ∧ pruningBlockingOps (tsm w2) = 0
    ∧ closedChans w2 = {[7%nat]} ∪ closedChans legacyWorld.
Proof.
  apply (proj1 (submit_then_serve (walker := stubWalker (inl tt) (inl tt) None)
                  emptyTrieHash CaseSend keyX true 7%nat tt tt legacyWorld
                  ltac:(repeat split; intros; reflexivity)
                  eq_refl ltac:(discriminate) (or_introl eq_refl)
                  ltac:(simpl; lia)
                  ltac:(apply not_elem_of_empty))).
  - reflexivity.
  - simpl; lia.
Defined.

Lemma shutdown_drains_pending_witness :
  ∃ err w1 w2,
    Close backlogWorld = Done err w1
    ∧ doCheckpointsAndSnapshots (walker := stubWalker (inl tt) (inl tt) None)
        [CtxDone] (λ _, SnapshotEntry) tt tt w1 = Done tt w2
    ∧ buffered (snapshotReq (tsm w2)) = []
    ∧ buffered (checkpointReq (tsm w2)) = []
    ∧ pruningBlockingOps (tsm w2) = 0
    ∧ ∀ c, c ∈ closedChans w2 ↔ c ∈ [7; 8; 9]%nat ∨ c ∈ closedChans backlogWorld.
Proof.
  apply (shutdown_drains_pending (walker := stubWalker (inl tt) (inl tt) None)
           [] (λ _, SnapshotEntry) tt tt backlogWorld).
  - simpl; lia.
  - refine (bool_decide_unpack (NoDup (pendingChans (tsm backlogWorld))) _).
    by vm_compute.
  - intros c _. apply not_elem_of_empty.
Defined.

(** ** The manager as the constructor returns it *)

Section ConstructionProperties.
Context {P H Msh Hsh : Type} `{!DBWriteCacher P} `{!CheckpointHashesHolder H}.
Variable os : OS P.

Ltac nil_case :=
  intros [= <-]; simpl; rewrite ?elem_of_cons, ?elem_of_nil;
  repeat split;
  repeat match goal with
         | |- _ → _ => intros ?
         | Hx : _ ∧ _ |- _ => destruct Hx
         | Hx : _ ∨ _ |- _ => destruct Hx
         | Hx : is_Some None |- _ => by destruct Hx
         end;
  first [done | by eauto | by left | by right; left].

Lemma NewTrieStorageManager_inl (args : NewTrieStorageManagerArgs P H Msh Hsh)
    (w : world P H) :
  NewTrieStorageManager os args = inl w →
  ∃ argsDB argsMainStorer argsCheckpointsStorer argsHolder,
    args_DB args = Some argsDB
    ∧ args_MainStorer args = Some argsMainStorer
    ∧ args_CheckpointsStorer args = Some argsCheckpointsStorer
    ∧ is_Some (args_Marshalizer args) ∧ is_Some (args_Hasher args)
    ∧ args_CheckpointHashesHolder args = Some argsHolder
    ∧ mainStorer (tsm w) = argsMainStorer ∧ db (tsm w) = argsDB
    ∧ checkpointsStorer (tsm w) = argsCheckpointsStorer
    ∧ checkpointHashesHolder (tsm w) = argsHolder
    ∧ (snapshots (tsm w), snapshotId (tsm w))
      = (getSnapshotsAndSnapshotId os (args_SnapshotDbConfig args)).1
    ∧ buffered (snapshotReq (tsm w)) = [] ∧ buffered (checkpointReq (tsm w)) = []
    ∧ pruningBlockingOps (tsm w) = 0
    ∧ closed (tsm w) = false ∧ cancelled (tsm w) = false
    ∧ signalled (closer (tsm w)) = false
    ∧ called w = [] ∧ closedChans w = ∅
    ∧ (logged w = [] ↔ (getSnapshotsAndSnapshotId os (args_SnapshotDbConfig args)).2 = None).
Proof.
  unfold NewTrieStorageManager.
  destruct (args_DB args) as [d|]; [|done].
  destruct (args_MainStorer args) as [m|]; [|done].
  destruct (args_CheckpointsStorer args) as [c|]; [|done].
  destruct (args_Marshalizer args) as [msh|]; [|done].
  destruct (args_Hasher args) as [hsh|]; [|done].
  destruct (args_CheckpointHashesHolder args) as [h|]; [|done].
  destruct (getSnapshotsAndSnapshotId os (args_SnapshotDbConfig args))
    as [[snaps id] err].
  intros [= <-]. exists d, m, c, h. simpl.
  repeat (split; [by eauto|]). by destruct err.
Qed.

(** The constructor fails only for a missing dependency, with the error of
    the first one missing in the order database, main storer, checkpoints
    storer, marshalizer, hasher, hashes holder; the two storer errors wrap
    [ErrNilStorer].  A failed discovery does not make it fail: with every
    dependency given it returns a manager, which holds what discovery
    returned, error or not, and is idle: nothing pending, pruning not
    blocked, not closed, and no call made on any storer. *)
Theorem constructor_fails_only_on_missing_dependency
    (args : NewTrieStorageManagerArgs P H Msh Hsh) :
  ((∃ w, NewTrieStorageManager os args = inl w)
   ↔ is_Some (args_DB args) ∧ is_Some (args_MainStorer args)
     ∧ is_Some (args_CheckpointsStorer args) ∧ is_Some (args_Marshalizer args)
     ∧ is_Some (args_Hasher args) ∧ is_Some (args_CheckpointHashesHolder args))
  ∧ (∀ e, NewTrieStorageManager os args = inr e →
       (e = ErrNilDatabase ↔ args_DB args = None)
       ∧ (ErrNilStorer ∈ errorChain e ↔
          is_Some (args_DB args)
          ∧ (args_MainStorer args = None ∨ args_CheckpointsStorer args = None))
       ∧ (e = ErrNilCheckpointHashesHolder →
          is_Some (args_DB args) ∧ is_Some (args_MainStorer args)
          ∧ is_Some (args_CheckpointsStorer args) ∧ is_Some (args_Marshalizer args)
          ∧ is_Some (args_Hasher args)))
  ∧ (∀ w, NewTrieStorageManager os args = inl w →
       (snapshots (tsm w), snapshotId (tsm w))
       = (getSnapshotsAndSnapshotId os (args_SnapshotDbConfig args)).1
       ∧ pendingEntries (tsm w) = []
       ∧ returned (IsPruningBlocked w) = Some false
       ∧ closed (tsm w) = false
       ∧ called w = []).
Proof.
  split; [|split].
  - split.
    + intros [w Hw]. apply NewTrieStorageManager_inl in Hw
        as (d & m & c & h & -> & -> & -> & ? & ? & -> & _). eauto 10.
    + intros ([d Hd] & [m Hm] & [c Hc] & [msh Hmsh] & [hsh Hhsh] & [h Hh]).
      unfold NewTrieStorageManager. rewrite Hd, Hm, Hc, Hmsh, Hhsh, Hh.
      destruct (getSnapshotsAndSnapshotId os (args_SnapshotDbConfig args))
        as [[snaps id] err]. eauto.
  - intros e. unfold NewTrieStorageManager.
    destruct (args_DB args) as [d|]; [|nil_case].
    destruct (args_MainStorer args) as [m|]; [|nil_case].
    destruct (args_CheckpointsStorer args) as [c|]; [|nil_case].
    destruct (args_Marshalizer args) as [msh|]; [|nil_case].
    destruct (args_Hasher args) as [hsh|]; [|nil_case].
    destruct (args_CheckpointHashesHolder args) as [h|]; [|nil_case].
    destruct (getSnapshotsAndSnapshotId os (args_SnapshotDbConfig args))
      as [[snaps id] err]. done.
  - intros w Hw. apply NewTrieStorageManager_inl in Hw
      as (d & m & c & h & _ & _ & _ & _ & _ & _ & _ & _ & _ & _ & Hsnaps
          & HS & HC & Hcount & Hclosed & _ & _ & Hcalled & _).
    split; [done|]. unfold pendingEntries. rewrite HS, HC.
    split; [done|]. unfold IsPruningBlocked. run. rewrite Hcount.
    by repeat split.
Qed.

Lemma newest_holder_split (m : gmap Z P) (key : bytes) (id : Z) (sdb : P) :
  m !! id = Some sdb →
  (∀ id' sdb', m !! id' = Some sdb' → id < id' → (db_Get sdb' key).1 = []) →
  ∃ pre post,
    getOrderedSnapshots m = pre ++ sdb :: post
    ∧ Forall (λ p, (db_Get p key).1 = []) post.
Proof.
  intros Hid Hnewer.
  pose proof (getOrderedSnapshots_aligned m) as Haligned.
  pose proof (orderedKeys_sorted m) as Hsorted.
  assert (id ∈ orderedKeys m) as Hin by (apply elem_of_orderedKeys; eauto).
  apply list_elem_of_split in Hin as (k1 & k2 & Hkeys).
  rewrite Hkeys in Haligned, Hsorted.
  apply Forall2_app_inv_l in Haligned as (pre & rest & _ & Hrest & Hsnaps).
  apply Forall2_cons_inv_l in Hrest as (x & post & Hx & Hpost & ->).
  assert (x = sdb) as -> by congruence.
  exists pre, post. split; [done|].
  apply StronglySorted_app_1_r in Hsorted.
  apply StronglySorted_inv in Hsorted as [_ Hlt].
  clear Hkeys Hsnaps. induction Hpost as [|k p k2 post Hk _ IH]; [done|].
  apply Forall_cons in Hlt as [Hidk Hlt].
  constructor; [by eapply Hnewer|by apply IH].
Qed.

(** The manager the constructor returns serves a key that only snapshot
    databases hold from the newest of them: when the main, legacy and
    checkpoints storers given to the constructor have no value for the key,
    [Get] returns the value of the discovered snapshot with the largest id
    among those that hold one. *)
Theorem constructed_manager_serves_newest_snapshot
    (args : NewTrieStorageManagerArgs P H Msh Hsh) (w : world P H)
    (key : bytes) (id : Z) (sdb : P) :
  NewTrieStorageManager os args = inl w →
  (∀ p, p ∈ [args_MainStorer args; args_DB args; args_CheckpointsStorer args] →
        ∃ storer, p = Some storer ∧ (db_Get storer key).1 = []) →
  discoveredMap os (args_SnapshotDbConfig args) !! id = Some sdb →
  (db_Get sdb key).1 ≠ [] →
  (∀ id' sdb', discoveredMap os (args_SnapshotDbConfig args) !! id' = Some sdb' →
               id < id' → (db_Get sdb' key).1 = []) →
  returned (Get key w) = Some ((db_Get sdb key).1, None).
Proof.
  intros Hw Hupper Hid Hval Hnewer.
  apply NewTrieStorageManager_inl in Hw
    as (d & m & c & h & Hd & Hm & Hc & _ & _ & _ & Hmain & Hdb & Hcp & _ & Hsnaps & _).
  assert (snapshots (tsm w)
          = getOrderedSnapshots (discoveredMap os (args_SnapshotDbConfig args)))
    as Hs.
  { destruct (getSnapshotsAndSnapshotId_discoveredMap os (args_SnapshotDbConfig args))
      as (finalId & _ & <- & _).
    by rewrite <- Hsnaps. }
  destruct (newest_holder_split _ key id sdb Hid Hnewer) as (pre & post & Hsplit & Hpost).
  rewrite Get_firstNonEmpty. cbn [returned]. f_equal.
  unfold lookupChain. rewrite Hs, Hsplit, imap_app, reverse_app.
  rewrite imap_cons, reverse_cons, <- !app_assoc, Hmain, Hdb, Hcp.
  rewrite (app_assoc [_; _; _]). simpl ([_] ++ _).
  rewrite firstNonEmpty_hit; [done| |done].
  apply Forall_app. split.
  - rewrite Hd, Hm, Hc in Hupper.
    repeat constructor; simpl.
    + destruct (Hupper (Some m)) as (? & [= <-] & ?); [set_solver|done].
    + destruct (Hupper (Some d)) as (? & [= <-] & ?); [set_solver|done].
    + destruct (Hupper (Some c)) as (? & [= <-] & ?); [set_solver|done].
  - apply Forall_reverse, Forall_forall. intros sp Hsp.
    apply elem_of_lookup_imap in Hsp as (i & p & -> & Hp). simpl.
    rewrite Forall_forall in Hpost. apply Hpost.
    by eapply list_elem_of_lookup_2.
Qed.

End ConstructionProperties.

Lemma constructed_manager_serves_newest_snapshot_witness :
  ∃ w,
    NewTrieStorageManager stockedOS testArgs = inl w
    ∧ returned (Get keyX w) = Some (valB, None).
Proof.
  destruct (NewTrieStorageManager stockedOS testArgs) as [w|e] eqn:Hw;
    [|by vm_compute in Hw].
  exists w. split; [done|].
  change (returned (Get keyX w)
          = Some ((db_Get (newMemDB "snap/7" [(keyX, valB)]) keyX).1, None)).
  apply (constructed_manager_serves_newest_snapshot stockedOS testArgs w keyX 7
           (newMemDB "snap/7" [(keyX, valB)]) Hw).
  - intros p Hp.
    repeat (apply elem_of_cons in Hp as [->|Hp]; [eexists; split; reflexivity|]).
    by apply elem_of_nil in Hp.
  - by vm_compute.
  - discriminate.
  - intros id' sdb' Hlook Hlt.
    assert (id' ∈ orderedKeys (discoveredMap stockedOS testCfg)) as Hin
      by (apply elem_of_orderedKeys; eauto).
    vm_compute in Hin.
    repeat (apply elem_of_cons in Hin as [->|Hin]; [try lia|]).
    + vm_compute in Hlook. by injection Hlook as <-.
    + by apply elem_of_nil in Hin.
Defined.

(** ** The worker loop *)

Section WorkerLoopProperties.
Context {P H : Type} `{!DBWriteCacher P} `{!CheckpointHashesHolder H}.
Context {walker : @NodeWalker P H}.

Lemma finish_servedOne (entry : snapshotsQueueEntry) (message : string)
    (w wb : world P H) :
  0 < pruningBlockingOps (tsm w) < 2 ^ 32 →
  (∀ c, leavesChan entry = Some c → c ∉ closedChans w) →
  sameLoopState (tsm w) (tsm wb) →
  called wb = called w →
  closedChans wb = closedChans w →
  servedOne entry w ((finishOperation entry message;; mret tt) wb).
Proof.
  intros Hc Hopen (HS & HC & Hcancel & Hcount) Hcalled Hchans.
  unfold servedOne, finishOperation.
  unfold mbind at 1 2. unfold M_bind. rewrite ExitPruningBufferingMode_run.
  rewrite Hcount.
  destruct (pruningBlockingOps (tsm w) <? 1) eqn:Hlt; [apply Z.ltb_lt in Hlt; lia|].
  run. unfold safelyCloseChan, closeChan.
  unfold uint32. rewrite Z.mod_small by lia.
  destruct (leavesChan entry) as [c|]; simpl.
  - rewrite decide_False by (rewrite Hchans; auto).
    eexists. split; [done|]. simpl. rewrite Hcalled, Hchans. by repeat split.
  - eexists. split; [done|]. simpl. rewrite Hcalled, Hchans, app_nil_r.
    by repeat split.
Qed.

Ltac servedOne :=
  apply finish_servedOne; simpl; first [done | by repeat split].

Lemma takeSnapshot_servedOne (entry : snapshotsQueueEntry)
    (msh : marshalizer) (hsh : hasher) (w : world P H) :
  walkKeepsLoopState →
  0 < pruningBlockingOps (tsm w) < 2 ^ 32 →
  (∀ c, leavesChan entry = Some c → c ∉ closedChans w) →
  servedOne entry w (takeSnapshot entry msh hsh w).
Proof.
  intros (Hview & Hsnap & _) Hc Hopen.
  unfold takeSnapshot, defer, newSnapshotNode. run.
  destruct (getNodeFromDBAndDecode (rootHash entry) (tsm w) msh hsh)
    as [newRoot|e]; simpl; [|servedOne].
  specialize (Hview (tsm w)).
  destruct (newSnapshotTrieStorageManager (tsm w)) as [t1 [stsm|e]];
    simpl in *; [|servedOne].
  specialize (Hsnap newRoot stsm (leavesChan entry) t1).
  destruct Hview as (HS1 & HC1 & Hcancel1 & Hcount1).
  destruct (commitSnapshot newRoot stsm (leavesChan entry) t1)
    as [t2 [e|]]; simpl in *; [destruct e; simpl|];
    (apply finish_servedOne; simpl; [done|done| |done|done];
     destruct Hsnap as (HS2 & HC2 & Hcancel2 & Hcount2);
     repeat split; congruence).
Qed.

Lemma takeCheckpoint_servedOne (entry : snapshotsQueueEntry)
    (msh : marshalizer) (hsh : hasher) (w : world P H) :
  walkKeepsLoopState →
  0 < pruningBlockingOps (tsm w) < 2 ^ 32 →
  (∀ c, leavesChan entry = Some c → c ∉ closedChans w) →
  servedOne entry w (takeCheckpoint entry msh hsh w).
Proof.
  intros (_ & _ & Hcheck) Hc Hopen.
  unfold takeCheckpoint, defer, newSnapshotNode. run.
  destruct (getNodeFromDBAndDecode (rootHash entry) (tsm w) msh hsh)
    as [newRoot|e]; simpl; [|servedOne].
  specialize (Hcheck newRoot (leavesChan entry) (tsm w)).
  destruct (commitCheckpoint newRoot (leavesChan entry) (tsm w))
    as [t1 [e|]]; simpl in *; [destruct e; simpl|]; servedOne.
Qed.

Lemma doProcessLoop_serves (schedule : list workerCase)
    (served restS restC : list snapshotsQueueEntry)
    (msh : marshalizer) (hsh : hasher) (w : world P H) :
  walkKeepsLoopState →
  serveOrder schedule (buffered (snapshotReq (tsm w)))
    (buffered (checkpointReq (tsm w))) = Some (served, restS, restC) →
  Z.of_nat (length served) ≤ pruningBlockingOps (tsm w) < 2 ^ 32 →
  NoDup (omap leavesChan served) →
  (∀ c, c ∈ omap leavesChan served → c ∉ closedChans w) →
  ∃ w',
    (∀ rest, doProcessLoop (schedule ++ rest) msh hsh w
             = doProcessLoop rest msh hsh w')
    ∧ buffered (snapshotReq (tsm w')) = restS
    ∧ buffered (checkpointReq (tsm w')) = restC
    ∧ cancelled (tsm w') = cancelled (tsm w)
    ∧ pruningBlockingOps (tsm w')
      = pruningBlockingOps (tsm w) - Z.of_nat (length served)
    ∧ called w' = called w ++ (CallChanClose <$> omap leavesChan served)
    ∧ ∀ c, c ∈ closedChans w' ↔ c ∈ omap leavesChan served ∨ c ∈ closedChans w.
Proof.
  intros Hwalk. revert served w.
  induction schedule as [|pick schedule IH]; intros served w Horder Hc Hnodup Hopen.
  - injection Horder as <- <- <-. exists w. simpl.
    rewrite app_nil_r, Z.sub_0_r. repeat split; try done.
    + by right.
    + intros [Hin|Hin]; [by apply elem_of_nil in Hin|done].
  - destruct pick; [| |done].
    + simpl in Horder.
      destruct (buffered (snapshotReq (tsm w))) as [|entry queue] eqn:Hqueue; [done|].
      destruct (serveOrder schedule queue (buffered (checkpointReq (tsm w))))
        as [[[served' rS] rC]|] eqn:Hrest; [|done].
      injection Horder as <- <- <-.
      rewrite pendingChans_cons in Hnodup, Hopen.
      apply NoDup_app in Hnodup as (_ & Hfresh & Hnodup).
      simpl in Hc.
      set (w1 := setTsm (set_snapshotReq
                           {| buffered := queue;
                              capacity := capacity (snapshotReq (tsm w)) |}
                           (tsm w)) w).
      destruct (takeSnapshot_servedOne entry msh hsh w1 Hwalk)
        as (w2 & Hrun & HS & HC & Hcancel & Hcount & Hcalled & Hchans).
      { simpl. lia. }
      { intros c Hentry. simpl. apply Hopen. rewrite Hentry. by left. }
      subst w1. simpl in Hrun, HS, HC, Hcancel, Hcount, Hcalled, Hchans.
      destruct (IH served' w2) as (w' & Hloop & HS' & HC' & Hcancel' & Hcount'
                                   & Hcalled' & Hchans').
      { by rewrite HS, HC. }
      { rewrite Hcount. lia. }
      { done. }
      { intros c Hin Hclosed. rewrite Hchans in Hclosed.
        assert (c ∉ closedChans w) as Hout
          by (apply Hopen, elem_of_app; by right).
        destruct (leavesChan entry) as [ce|]; [|done].
        apply elem_of_union in Hclosed as [Hce|]; [|done].
        apply elem_of_singleton in Hce as ->.
        apply (Hfresh ce); [by left|done]. }
      exists w'. cbn [length].
      split; [|split; [done|split; [done|split; [congruence|split; [lia|split]]]]].
      * intros rest. cbn [app doProcessLoop]. unfold doProcessLoopStep. run.
        rewrite Hqueue. run. rewrite Hrun. apply Hloop.
      * rewrite Hcalled', Hcalled, pendingChans_cons, fmap_app, app_assoc. done.
      * intros c. rewrite Hchans', Hchans, pendingChans_cons, elem_of_app.
        destruct (leavesChan entry) as [ce|]; simpl.
        -- rewrite elem_of_union, elem_of_singleton, list_elem_of_singleton. tauto.
        -- rewrite elem_of_nil. tauto.
    + simpl in Horder.
      destruct (buffered (checkpointReq (tsm w))) as [|entry queue] eqn:Hqueue; [done|].
      destruct (serveOrder schedule (buffered (snapshotReq (tsm w))) queue)
        as [[[served' rS] rC]|] eqn:Hrest; [|done].
      injection Horder as <- <- <-.
      rewrite pendingChans_cons in Hnodup, Hopen.
      apply NoDup_app in Hnodup as (_ & Hfresh & Hnodup).
      simpl in Hc.
      set (w1 := setTsm (set_checkpointReq
                           {| buffered := queue;
                              capacity := capacity (checkpointReq (tsm w)) |}
                           (tsm w)) w).
      destruct (takeCheckpoint_servedOne entry msh hsh w1 Hwalk)
        as (w2 & Hrun & HS & HC & Hcancel & Hcount & Hcalled & Hchans).
      { simpl. lia. }
      { intros c Hentry. simpl. apply Hopen. rewrite Hentry. by left. }
      subst w1. simpl in Hrun, HS, HC, Hcancel, Hcount, Hcalled, Hchans.
      destruct (IH served' w2) as (w' & Hloop & HS' & HC' & Hcancel' & Hcount'
                                   & Hcalled' & Hchans').
      { by rewrite HS, HC. }
      { rewrite Hcount. lia. }
      { done. }
      { intros c Hin Hclosed. rewrite Hchans in Hclosed.
        assert (c ∉ closedChans w) as Hout
          by (apply Hopen, elem_of_app; by right).
        destruct (leavesChan entry) as [ce|]; [|done].
        apply elem_of_union in Hclosed as [Hce|]; [|done].
        apply elem_of_singleton in Hce as ->.
        apply (Hfresh ce); [by left|done]. }
      exists w'. cbn [length].
      split; [|split; [done|split; [done|split; [congruence|split; [lia|split]]]]].
      * intros rest. cbn [app doProcessLoop]. unfold doProcessLoopStep. run.
        rewrite Hqueue. run. rewrite Hrun. apply Hloop.
      * rewrite Hcalled', Hcalled, pendingChans_cons, fmap_app, app_assoc. done.
      * intros c. rewrite Hchans', Hchans, pendingChans_cons, elem_of_app.
        destruct (leavesChan entry) as [ce|]; simpl.
        -- rewrite elem_of_union, elem_of_singleton, list_elem_of_singleton. tauto.
        -- rewrite elem_of_nil. tauto.
Qed.

(** The worker serves each queue first in, first out, and completes every
    request it takes before it takes the next.  Under a schedule of request
    cases it takes the requests in the order [serveOrder] gives and then
    waits for the next; it has taken one off the counter for each request
    and closed their leaves channels, one after the other in that order,
    and no other channel; the requests it has not taken are still in their
    queues.  When the context is cancelled and the run time next picks that
    case, the worker leaves the loop in that same state.  The counter
    counts the requests taken, whose leaves channels are open and differ
    from one another; the node walk leaves the queues, the context and the
    counter alone. *)
Theorem worker_serves_in_order (schedule : list workerCase)
    (served restS restC : list snapshotsQueueEntry)
    (msh : marshalizer) (hsh : hasher) (w : world P H) :
  walkKeepsLoopState →
  serveOrder schedule (buffered (snapshotReq (tsm w)))
    (buffered (checkpointReq (tsm w))) = Some (served, restS, restC) →
  Z.of_nat (length served) ≤ pruningBlockingOps (tsm w) < 2 ^ 32 →
  NoDup (omap leavesChan served) →
  (∀ c, c ∈ omap leavesChan served → c ∉ closedChans w) →
  ∃ w',
    doProcessLoop schedule msh hsh w = Blocked w'
    ∧ (cancelled (tsm w) = true →
       ∃ w'', doProcessLoop (schedule ++ [CtxDone]) msh hsh w = Done tt w''
              ∧ tsm w'' = tsm w' ∧ called w'' = called w'
              ∧ closedChans w'' = closedChans w')
    ∧ buffered (snapshotReq (tsm w')) = restS
    ∧ buffered (checkpointReq (tsm w')) = restC
    ∧ pruningBlockingOps (tsm w')
      = pruningBlockingOps (tsm w) - Z.of_nat (length served)
    ∧ called w' = called w ++ (CallChanClose <$> omap leavesChan served)
    ∧ ∀ c, c ∈ closedChans w' ↔ c ∈ omap leavesChan served ∨ c ∈ closedChans w.
Proof.
  intros Hwalk Horder Hc Hnodup Hopen.
  destruct (doProcessLoop_serves schedule served restS restC msh hsh w)
    as (w' & Hloop & HS & HC & Hcancel & Hcount & Hcalled & Hchans); try done.
  exists w'. split; [|split; [|done]].
  - rewrite <- (app_nil_r schedule) at 1. by rewrite Hloop.
  - intros Hcancelled. rewrite Hloop. cbn [doProcessLoop].
    unfold doProcessLoopStep. run. rewrite Hcancel, Hcancelled. run.
    eexists. split; [done|]. done.
Qed.

End WorkerLoopProperties.

Lemma worker_serves_in_order_witness :
  ∃ w',
    doProcessLoop (walker := stubWalker (inl tt) (inl tt) None)
      [SnapshotRequest; CheckpointRequest] tt tt cancelledWorld = Blocked w'
    ∧ (cancelled (tsm cancelledWorld) = true →
       ∃ w'', doProcessLoop (walker := stubWalker (inl tt) (inl tt) None)
                ([SnapshotRequest; CheckpointRequest] ++ [CtxDone]) tt tt cancelledWorld
              = Done tt w''
              ∧ tsm w'' = tsm w' ∧ called w'' = called w'
              ∧ closedChans w'' = closedChans w')
    ∧ buffered (snapshotReq (tsm w'))
      = [{| rootHash := valB; newDb := false; leavesChan := Some 8%nat |}]
    ∧ buffered (checkpointReq (tsm w')) = []
    ∧ pruningBlockingOps (tsm w') = 1
    ∧ called w' = [CallChanClose 7%nat; CallChanClose 9%nat]
    ∧ ∀ c, c ∈ closedChans w' ↔ c ∈ [7; 9]%nat ∨ c ∈ closedChans cancelledWorld.
Proof.
  apply (worker_serves_in_order (walker := stubWalker (inl tt) (inl tt) None)
           [SnapshotRequest; CheckpointRequest]
           [request; {| rootHash := valC; newDb := false; leavesChan := Some 9%nat |}]
           [{| rootHash := valB; newDb := false; leavesChan := Some 8%nat |}] []
           tt tt cancelledWorld).
  - repeat split; intros; reflexivity.
  - reflexivity.
  - simpl; lia.
  - refine (bool_decide_unpack (NoDup [7; 9]%nat) _). by vm_compute.
  - intros c _. apply not_elem_of_empty.
Defined.

(** ** The hashes holder, and the data operations after Close *)

Section HolderAndShutdown.
Context {P H : Type} `{!DBWriteCacher P} `{!CheckpointHashesHolder H}.

(** [AddDirtyCheckpointHashes] hands the hashes to the hashes holder and
    returns its answer.  It makes that one call and touches nothing but the
    holder: every storer and the counter are as before, so that [Get] and
    [IsPruningBlocked] answer as they did. *)
Theorem AddDirtyCheckpointHashes_only_holder (root key : bytes)
    (hashes : list bytes) (w : world P H) :
  ∃ w',
    AddDirtyCheckpointHashes root hashes w
    = Done (holder_Put (checkpointHashesHolder (tsm w)) root hashes).2 w'
    ∧ checkpointHashesHolder (tsm w')
      = (holder_Put (checkpointHashesHolder (tsm w)) root hashes).1
    ∧ called w' = called w ++ [CallHolderPut root]
    ∧ lookupChain (tsm w') = lookupChain (tsm w)
    ∧ returned (Get key w') = returned (Get key w)
    ∧ returned (IsPruningBlocked w') = returned (IsPruningBlocked w)
    ∧ pendingEntries (tsm w') = pendingEntries (tsm w).
Proof.
  unfold AddDirtyCheckpointHashes. run.
  destruct (holder_Put (checkpointHashesHolder (tsm w)) root hashes) as [h full].
  eexists. split; [done|]. simpl. do 3 (split; [done|]).
  rewrite !Get_firstNonEmpty. done.
Qed.

(** [Close] does not stop the data operations: after it, [Put] and
    [Remove] still call the main storer, which [Close] has closed, and
    return what it returns, and [Get] still walks the lookup chain, whose
    layers are the closed storers in the same order. *)
Theorem data_operations_after_Close (key val : bytes) (w : world P H) :
  ∃ err w1,
    Close w = Done err w1
    ∧ closed (tsm w1) = true
    ∧ lookupChain (tsm w1)
      = (λ sp, (sp.1, (db_Close sp.2).1)) <$> lookupChain (tsm w)
    ∧ Put key val w1
      = Done (db_Put (db_Close (mainStorer (tsm w))).1 key val).2
          (finalWorld (Put key val w1))
    ∧ called (finalWorld (Put key val w1))
      = called w1 ++ [CallPut MainStorer key val]
    ∧ Remove key w1
      = Done (db_Remove (db_Close (mainStorer (tsm w))).1 key).2
          (finalWorld (Remove key w1))
    ∧ called (finalWorld (Remove key w1))
      = called w1 ++ [CallHolderRemove key; CallRemove MainStorer key]
    ∧ returned (Get key w1)
      = Some (firstNonEmpty key
                ((λ sp, (sp.1, (db_Close sp.2).1)) <$> lookupChain (tsm w))).2.
Proof.
  rewrite Close_run. do 2 eexists. split; [done|]. split; [done|].
  assert (lookupChain (closedManager (tsm w))
          = (λ sp, (sp.1, (db_Close sp.2).1)) <$> lookupChain (tsm w)) as Hchain.
  { unfold lookupChain, closedManager. simpl. do 3 f_equal.
    change (list_fmap _ _ ?f ?l) with (f <$> l).
    by rewrite fmap_reverse, imap_fmap, fmap_imap. }
  split; [exact Hchain|].
  rewrite Put_run, Remove_run, Get_firstNonEmpty. cbn [finalWorld returned tsm].
  rewrite Hchain. simpl. by rewrite <- !app_assoc.
Qed.

End HolderAndShutdown.
